(** * actor-kit: the durable alarm subsystem

    A shallow embedding of [src/storage.ts] (the SQL persistence layer),
    [src/alarms.ts] (the alarm manager and its drain) and the alarm
    scheduler for XState delayed events (the timer adapter, its no-op clock
    and the restore of the in-memory index), with the properties of the
    specification stated and proved over it.

    Conventions of the embedding:
    - JavaScript numbers that hold millisecond timestamps, intervals and
      delays are integers ([Z]); the SQL columns are declared INTEGER.
    - [async]/[await] code is run to completion in program order: a
      computation is a function of the world that returns an outcome (a
      value or a thrown exception), the new world and the effects it
      performed, in order.
    - [Date.now()] and [Math.random()] read oracles carried by the world,
      one reading per call.
    - The SQL engine, the Durable Object alarm slot and [JSON] belong to the
      platform; they are modelled by their documented behaviour on the
      statements and calls the code issues. A statement fails only on the
      primary key of the [alarms] table, [setAlarm] does not fail, and a
      query returns rows of equal deadline in rowid order.
    - An alarm handler and an actor are arbitrary: each is a function of the
      world that resolves or throws and leaves a world.
    - A [Map] object lives in a store of objects by reference; its entries
      are a finite map, so the order of [entries()] is not modelled. *)

From Stdlib Require Import ZArith Lia Ascii Qcanon.
From Stdlib Require String.
From stdpp Require Import base option list strings gmap numbers sorting.

#[local] Set Warnings "-register-all".

Open Scope Z_scope.

(** ** JavaScript values that cross the SQL driver boundary *)

(** A cell of a result row is [string | number | null]; reading a row past
    its end yields [undefined]. *)
Inductive JsValue :=
| JsUndefined
| JsNull
| JsNumber (n : Z)
| JsString (s : string).

#[global] Instance JsValue_eq_dec : EqDecision JsValue.
Proof. solve_decision. Defined.

(** A column-keyed record, [Record<string, unknown>]. *)
Abbreviation JsObject := (gmap string JsValue).

(** ** JSON documents *)

(** The value domain of [JSON.parse]. A number is kept as the decimal
    [mantissa * 10 ^ exponent]. *)
Inductive JsonValue :=
| JNull
| JBool (b : bool)
| JNumber (mantissa exponent : Z)
| JString (s : string)
| JArray (items : list JsonValue)
| JObject (members : list (string * JsonValue)).

(** [JSON.parse] and [JSON.stringify] are built into the JavaScript runtime.
    [JSON_parse s = None] stands for the [SyntaxError] that [JSON.parse]
    throws. *)
Class JsonLib := {
  JSON_parse : string -> option JsonValue;
  JSON_stringify : JsonValue -> string;
}.

(** The object literal [{}]. *)
Definition empty_object : JsonValue := JObject [].

(** *** A reference implementation of the JSON grammar (ECMA-404) *)

Module Json.

(** The quotation mark, character 34. *)
Abbreviation dquote := (Ascii false true false false false true false false).

Definition is_ws (c : ascii) : bool :=
  match c with
  | " "%char | "009"%char | "010"%char | "013"%char => true
  | _ => false
  end.

Fixpoint skip_ws (s : list ascii) : list ascii :=
  match s with
  | c :: s' => if is_ws c then skip_ws s' else s
  | [] => []
  end.

Definition digit_of (c : ascii) : option Z :=
  let n := Z.of_nat (nat_of_ascii c) in
  if (48 <=? n) && (n <=? 57) then Some (n - 48) else None.

Definition hex_of (c : ascii) : option Z :=
  let n := Z.of_nat (nat_of_ascii c) in
  if (48 <=? n) && (n <=? 57) then Some (n - 48)
  else if (65 <=? n) && (n <=? 70) then Some (n - 55)
  else if (97 <=? n) && (n <=? 102) then Some (n - 87)
  else None.

(** Reads a maximal run of digits: the accumulated value, the number of
    digits read and the rest of the input. *)
Fixpoint read_digits (acc : Z) (count : Z) (s : list ascii) : Z * Z * list ascii :=
  match s with
  | c :: s' =>
      match digit_of c with
      | Some d => read_digits (10 * acc + d) (count + 1) s'
      | None => (acc, count, s)
      end
  | [] => (acc, count, [])
  end.

(** The integer part: a single [0], or a run of digits that does not start
    with [0]. *)
Definition read_int (s : list ascii) : option (Z * list ascii) :=
  match s with
  | "0"%char :: s' => Some (0, s')
  | _ =>
      let '(n, count, rest) := read_digits 0 0 s in
      if count =? 0 then None else Some (n, rest)
  end.

Definition read_frac (int_part : Z) (s : list ascii) : option (Z * Z * list ascii) :=
  match s with
  | "."%char :: s' =>
      let '(n, count, rest) := read_digits int_part 0 s' in
      if count =? 0 then None else Some (n, - count, rest)
  | _ => Some (int_part, 0, s)
  end.

Definition read_exp (s : list ascii) : option (Z * list ascii) :=
  match s with
  | ("e" | "E")%char :: s' =>
      let '(sign, s'') :=
        match s' with
        | "+"%char :: r => (1, r)
        | "-"%char :: r => (-1, r)
        | _ => (1, s')
        end in
      let '(n, count, rest) := read_digits 0 0 s'' in
      if count =? 0 then None else Some (sign * n, rest)
  | _ => Some (0, s)
  end.

Definition parse_number (s : list ascii) : option (JsonValue * list ascii) :=
  let '(sign, s1) :=
    match s with
    | "-"%char :: r => (-1, r)
    | _ => (1, s)
    end in
  '(i, s2) ← read_int s1;
  '(m, e1, s3) ← read_frac i s2;
  '(e2, s4) ← read_exp s3;
  Some (JNumber (sign * m) (e1 + e2), s4).

(** The UTF-8 bytes of a code point of the basic multilingual plane. *)
Definition utf8_of (cp : Z) : list ascii :=
  let byte (n : Z) := ascii_of_nat (Z.to_nat n) in
  if cp <? 128 then [byte cp]
  else if cp <? 2048 then
    [byte (192 + cp / 64); byte (128 + cp mod 64)]
  else
    [byte (224 + cp / 4096); byte (128 + (cp / 64) mod 64); byte (128 + cp mod 64)].

(** The characters of a string literal after its opening quote. *)
Fixpoint parse_chars (s : list ascii) (acc : list ascii) : option (string * list ascii) :=
  match s with
  | [] => None
  | dquote :: rest => Some (String.string_of_list_ascii (rev acc), rest)
  | "\"%char :: c :: rest =>
      match c with
      | dquote => parse_chars rest (dquote :: acc)
      | "\"%char => parse_chars rest ("\"%char :: acc)
      | "/"%char => parse_chars rest ("/"%char :: acc)
      | "b"%char => parse_chars rest ("008"%char :: acc)
      | "f"%char => parse_chars rest ("012"%char :: acc)
      | "n"%char => parse_chars rest ("010"%char :: acc)
      | "r"%char => parse_chars rest ("013"%char :: acc)
      | "t"%char => parse_chars rest ("009"%char :: acc)
      | "u"%char =>
          match rest with
          | h1 :: h2 :: h3 :: h4 :: rest' =>
              match hex_of h1, hex_of h2, hex_of h3, hex_of h4 with
              | Some a, Some b, Some c', Some d =>
                  parse_chars rest'
                    (rev (utf8_of (4096 * a + 256 * b + 16 * c' + d)) ++ acc)
              | _, _, _, _ => None
              end
          | _ => None
          end
      | _ => None
      end
  | c :: rest =>
      if (nat_of_ascii c <? 32)%nat then None else parse_chars rest (c :: acc)
  end.

Definition expect (word : string) (v : JsonValue) (s : list ascii)
  : option (JsonValue * list ascii) :=
  let w := String.list_ascii_of_string word in
  if decide (take (length w) s = w) then Some (v, drop (length w) s) else None.

(** Recursive descent; every nested call has consumed a character, so the
    length of the input bounds the depth. *)
Fixpoint parse_value (fuel : nat) (s : list ascii) : option (JsonValue * list ascii) :=
  match fuel with
  | O => None
  | S fuel' =>
      match skip_ws s with
      | ("n"%char :: _) as s' => expect "null" JNull s'
      | ("t"%char :: _) as s' => expect "true" (JBool true) s'
      | ("f"%char :: _) as s' => expect "false" (JBool false) s'
      | dquote :: rest =>
          '(str, rest') ← parse_chars rest [];
          Some (JString str, rest')
      | "["%char :: rest =>
          match skip_ws rest with
          | "]"%char :: rest' => Some (JArray [], rest')
          | _ =>
              '(items, rest') ← parse_elements fuel' rest [];
              Some (JArray items, rest')
          end
      | "{"%char :: rest =>
          match skip_ws rest with
          | "}"%char :: rest' => Some (JObject [], rest')
          | _ =>
              '(members, rest') ← parse_members fuel' rest [];
              Some (JObject members, rest')
          end
      | s' => parse_number s'
      end
  end
with parse_elements (fuel : nat) (s : list ascii) (acc : list JsonValue)
  : option (list JsonValue * list ascii) :=
  match fuel with
  | O => None
  | S fuel' =>
      '(v, rest) ← parse_value fuel' s;
      match skip_ws rest with
      | ","%char :: rest' => parse_elements fuel' rest' (v :: acc)
      | "]"%char :: rest' => Some (rev (v :: acc), rest')
      | _ => None
      end
  end
with parse_members (fuel : nat) (s : list ascii) (acc : list (string * JsonValue))
  : option (list (string * JsonValue) * list ascii) :=
  match fuel with
  | O => None
  | S fuel' =>
      match skip_ws s with
      | dquote :: rest =>
          '(key, rest1) ← parse_chars rest [];
          match skip_ws rest1 with
          | ":"%char :: rest2 =>
              '(v, rest3) ← parse_value fuel' rest2;
              match skip_ws rest3 with
              | ","%char :: rest4 => parse_members fuel' rest4 ((key, v) :: acc)
              | "}"%char :: rest4 => Some (rev ((key, v) :: acc), rest4)
              | _ => None
              end
          | _ => None
          end
      | _ => None
      end
  end.

(** A document is one value surrounded by optional white space. *)
Definition parse (text : string) : option JsonValue :=
  let s := String.list_ascii_of_string text in
  '(v, rest) ← parse_value (S (length s)) s;
  match skip_ws rest with
  | [] => Some v
  | _ => None
  end.

Definition digit_char (d : Z) : ascii := ascii_of_nat (Z.to_nat (48 + d)).

Fixpoint digits_of (fuel : nat) (n : Z) (acc : list ascii) : list ascii :=
  match fuel with
  | O => acc
  | S fuel' =>
      if n <? 10 then digit_char n :: acc
      else digits_of fuel' (n / 10) (digit_char (n mod 10) :: acc)
  end.

Definition show_Z (n : Z) : string :=
  let body := String.string_of_list_ascii (digits_of (S (Z.to_nat (Z.log2 (Z.abs n)))) (Z.abs n) []) in
  if n <? 0 then "-" +:+ body else body.

Definition hex_char (d : Z) : ascii :=
  ascii_of_nat (Z.to_nat (if d <? 10 then 48 + d else 87 + d)).

Definition escape_char (c : ascii) : string :=
  match c with
  | dquote => String "\"%char (String dquote "")
  | "\"%char => "\\"
  | "008"%char => "\b"
  | "012"%char => "\f"
  | "010"%char => "\n"
  | "013"%char => "\r"
  | "009"%char => "\t"
  | _ =>
      let n := Z.of_nat (nat_of_ascii c) in
      if n <? 32
      then "\u00" +:+ String (hex_char (n / 16)) (String (hex_char (n mod 16)) "")
      else String c ""
  end.

Fixpoint escape (s : string) : string :=
  match s with
  | EmptyString => ""
  | String c s' => escape_char c +:+ escape s'
  end.

Definition quote (s : string) : string :=
  String dquote (escape s +:+ String dquote "").

Fixpoint join (sep : string) (parts : list string) : string :=
  match parts with
  | [] => ""
  | [p] => p
  | p :: ps => p +:+ sep +:+ join sep ps
  end.

Fixpoint stringify (v : JsonValue) : string :=
  match v with
  | JNull => "null"
  | JBool true => "true"
  | JBool false => "false"
  | JNumber m e => if e =? 0 then show_Z m else show_Z m +:+ "e" +:+ show_Z e
  | JString s => quote s
  | JArray items => "[" +:+ join "," (map stringify items) +:+ "]"
  | JObject members =>
      "{" +:+ join "," (map (fun kv => quote (fst kv) +:+ ":" +:+ stringify (snd kv)) members) +:+ "}"
  end.

Definition lib : JsonLib := {| JSON_parse := parse; JSON_stringify := stringify |}.

End Json.

(** ** Data model *)

(** [AlarmRecord] ([storage.ts]): a row of the [alarms] table,
    [id TEXT PRIMARY KEY, type TEXT NOT NULL, scheduled_at INTEGER NOT NULL,
     repeat_interval INTEGER, payload TEXT, created_at INTEGER NOT NULL]. *)
Module AlarmRecord.
Record t := {
  id : string;
  type : string;
  scheduled_at : Z;
  repeat_interval : option Z;
  payload : option string;
  created_at : Z;
}.
End AlarmRecord.

#[global] Instance AlarmRecord_eq_dec : EqDecision AlarmRecord.t.
Proof. solve_decision. Defined.

(** [ScheduleAlarmOptions] ([alarms.ts]), structurally the same as
    [AlarmScheduleOptions] ([storage.ts]), to which it is passed. *)
Module ScheduleAlarmOptions.
Record t := {
  id : string;
  type : string;
  scheduledAt : Z;
  repeatInterval : option Z;
  payload : JsonValue;
}.
End ScheduleAlarmOptions.

(** [Alarm] ([alarms.ts]): a row with its payload parsed. *)
Module Alarm.
Record t := {
  id : string;
  type : string;
  scheduledAt : Z;
  repeatInterval : option Z;
  payload : JsonValue;
  createdAt : Z;
}.
End Alarm.

(** [AlarmHandleResult] ([alarms.ts]). *)
Module AlarmHandleResult.
Record t := {
  id : string;
  type : string;
  rescheduled : bool;
  deleted : bool;
}.
End AlarmHandleResult.

(** [ScheduledEventSnapshot] (alarm scheduler). *)
Module ScheduledEventSnapshot.
Record t := {
  sourceSessionId : string;
  targetSessionId : string;
  event : JsonValue;
  delay : Z;
  id : string;
  startedAt : Z;
}.
End ScheduledEventSnapshot.

(** [XStateAlarmData] (alarm scheduler): the payload of an alarm that
    carries an XState delayed event. [type] is declared as the literal
    ["xstate-delay"], but the value comes from a parsed payload and is
    compared at run time. *)
Module XStateAlarmData.
Record t := {
  type : string;
  sourceSessionId : string;
  targetSessionId : string;
  event : JsonValue;
  scheduledEventId : string;
  alarmId : string;
}.
End XStateAlarmData.

(** A [Map<string, ScheduledEventSnapshot>] object's contents. *)
Abbreviation MapObject := (gmap string ScheduledEventSnapshot.t).

(** ** Exceptions and outcomes *)

Inductive JsError :=
| SqliteConstraint (message : string)
| SyntaxError (text : string)
| TypeError (message : string)
| UserError (message : string).

Inductive Outcome (A : Type) :=
| Returned (a : A)
| Threw (e : JsError).
Arguments Returned {A} a.
Arguments Threw {A} e.

(** ** SQL statements issued by the persistence layer *)

(** One constructor per query text of [storage.ts] that touches the
    [alarms] table, with its positional binds. *)
Inductive SqlStmt :=
| CreateSchema
| SelectAlarms
| SelectDueAlarms (before : Z)
| SelectEarliestAlarm
| InsertAlarm (id type : string) (scheduled_at : Z) (repeat_interval : option Z)
    (payload : string) (created_at : Z)
| UpdateAlarm (scheduled_at : Z) (repeat_interval : option Z) (payload : string) (id : string)
| DeleteAlarm (id : string)
| DeleteAlarmsByType (type : string).

(** ** Observable effects *)

Inductive Effect :=
| SqlExec (q : SqlStmt)                       (* this.sql.exec(query, ...binds) *)
| SetAlarm (scheduledTime : Z)                (* this.state.storage.setAlarm(t) *)
| CallHandler (alarm : Alarm.t)               (* handler(alarm) *)
| ConsoleError (message : string) (e : JsError)  (* console.error(message, error) *)
| Relay (event : JsonValue)                   (* actor.system._relay(actor, actor, event) *)
| Send (event : JsonValue).                   (* actor.send(event) *)

(** ** The world *)

(** What [Math.random()] can return: a number greater than or equal to 0
    and less than 1 (ECMA-262, 21.3.2.27). *)
Record Random01 := {
  number : Qc;
  number_range : (0 <= number)%Qc /\ (number < 1)%Qc;
}.

(** The three result shapes of the SQL driver. *)
Inductive ResultShape :=
| ShapeBatches        (* [{columns, rows}] *)
| ShapeColumnNames    (* [{columnNames, results}] *)
| ShapeCursor.        (* async iterable of {columns, results} *)

Record World := {
  (* wall clock: the k-th call of Date.now() returns [clock k] *)
  clock : nat -> Z;
  ticks : nat;
  (* the k-th call of Math.random() returns [random k] *)
  random : nat -> Random01;
  draws : nat;
  (* the SQL engine: the rows of the alarms table in rowid order, and the
     shape in which the driver hands out result sets *)
  alarms : list AlarmRecord.t;
  driver : ResultShape;
  (* the Durable Object's alarm slot *)
  do_alarm : option Z;
  (* ActorKitStorage.initialized *)
  initialized : bool;
  (* AlarmManager.currentAlarmId, AlarmManager.currentAlarmTime *)
  currentAlarmId : option string;
  currentAlarmTime : option Z;
  (* Map objects by reference *)
  maps : gmap nat MapObject;
}.

Definition set_ticks (n : nat) (w : World) : World :=
  {| clock := clock w; ticks := n; random := random w; draws := draws w;
     alarms := alarms w; driver := driver w; do_alarm := do_alarm w;
     initialized := initialized w; currentAlarmId := currentAlarmId w;
     currentAlarmTime := currentAlarmTime w; maps := maps w |}.

Definition set_draws (n : nat) (w : World) : World :=
  {| clock := clock w; ticks := ticks w; random := random w; draws := n;
     alarms := alarms w; driver := driver w; do_alarm := do_alarm w;
     initialized := initialized w; currentAlarmId := currentAlarmId w;
     currentAlarmTime := currentAlarmTime w; maps := maps w |}.

Definition set_alarms (rows : list AlarmRecord.t) (w : World) : World :=
  {| clock := clock w; ticks := ticks w; random := random w; draws := draws w;
     alarms := rows; driver := driver w; do_alarm := do_alarm w;
     initialized := initialized w; currentAlarmId := currentAlarmId w;
     currentAlarmTime := currentAlarmTime w; maps := maps w |}.

Definition set_do_alarm (t : option Z) (w : World) : World :=
  {| clock := clock w; ticks := ticks w; random := random w; draws := draws w;
     alarms := alarms w; driver := driver w; do_alarm := t;
     initialized := initialized w; currentAlarmId := currentAlarmId w;
     currentAlarmTime := currentAlarmTime w; maps := maps w |}.

Definition set_initialized (b : bool) (w : World) : World :=
  {| clock := clock w; ticks := ticks w; random := random w; draws := draws w;
     alarms := alarms w; driver := driver w; do_alarm := do_alarm w;
     initialized := b; currentAlarmId := currentAlarmId w;
     currentAlarmTime := currentAlarmTime w; maps := maps w |}.

Definition set_current (i : option string) (t : option Z) (w : World) : World :=
  {| clock := clock w; ticks := ticks w; random := random w; draws := draws w;
     alarms := alarms w; driver := driver w; do_alarm := do_alarm w;
     initialized := initialized w; currentAlarmId := i;
     currentAlarmTime := t; maps := maps w |}.

Definition set_maps (h : gmap nat MapObject) (w : World) : World :=
  {| clock := clock w; ticks := ticks w; random := random w; draws := draws w;
     alarms := alarms w; driver := driver w; do_alarm := do_alarm w;
     initialized := initialized w; currentAlarmId := currentAlarmId w;
     currentAlarmTime := currentAlarmTime w; maps := h |}.

(** ** Computations *)

(** The result of running a computation: its outcome, the world it leaves
    and the effects it performed, oldest first. A computation that throws
    keeps the world as it was when the exception was raised. *)
Record Run (A : Type) := MkRun {
  outcome : Outcome A;
  world : World;
  effects : list Effect;
}.
Arguments MkRun {A} outcome world effects.
Arguments outcome {A} r.
Arguments world {A} r.
Arguments effects {A} r.

Definition M (A : Type) : Type := World -> Run A.

Definition ret {A} (a : A) : M A := fun w => MkRun (Returned a) w [].

Definition throw {A} (e : JsError) : M A := fun w => MkRun (Threw e) w [].

Definition bind {A B} (m : M A) (k : A -> M B) : M B := fun w =>
  let r := m w in
  match outcome r with
  | Returned a =>
      let r' := k a (world r) in
      MkRun (outcome r') (world r') (effects r ++ effects r')
  | Threw e => MkRun (Threw e) (world r) (effects r)
  end.

(** [try { m } catch (error) { h error }]. *)
Definition try_catch {A} (m : M A) (h : JsError -> M A) : M A := fun w =>
  let r := m w in
  match outcome r with
  | Returned a => r
  | Threw e =>
      let r' := h e (world r) in
      MkRun (outcome r') (world r') (effects r ++ effects r')
  end.

Notation "'let*' x ':=' m 'in' k" := (bind m (fun x => k))
  (at level 10, x name, m at level 100, k at level 200,
   format "'[v' 'let*'  x  ':='  m  'in' '/' k ']'").

Definition lift {A} (o : Outcome A) : M A := fun w => MkRun o w [].

Definition emit (e : Effect) : M unit := fun w => MkRun (Returned tt) w [e].

Definition modify (f : World -> World) : M unit := fun w => MkRun (Returned tt) (f w) [].

Definition gets {A} (f : World -> A) : M A := fun w => MkRun (Returned (f w)) w [].

(** [Date.now()]. *)
Definition Date_now : M Z := fun w =>
  MkRun (Returned (clock w (ticks w))) (set_ticks (S (ticks w)) w) [].

(** [Math.random()]. *)
Definition Math_random : M Qc := fun w =>
  MkRun (Returned (number (random w (draws w)))) (set_draws (S (draws w)) w) [].

(** [console.error(message, error)]. *)
Definition console_error (message : string) (e : JsError) : M unit :=
  emit (ConsoleError message e).

(** [array.map(f)] for an [f] that may throw: the first exception ends the
    map. *)
Fixpoint map_outcome {A B} (f : A -> Outcome B) (xs : list A) : Outcome (list B) :=
  match xs with
  | [] => Returned []
  | x :: xs' =>
      match f x with
      | Threw e => Threw e
      | Returned y =>
          match map_outcome f xs' with
          | Threw e => Threw e
          | Returned ys => Returned (y :: ys)
          end
      end
  end.

(** ** The SQL engine (platform) *)

Module Sql.

(** [ORDER BY scheduled_at ASC]: rows with equal keys keep their rowid
    order (the engine is deterministic, and the sort is stable). *)
Fixpoint insert_row (r : AlarmRecord.t) (sorted : list AlarmRecord.t) : list AlarmRecord.t :=
  match sorted with
  | [] => [r]
  | x :: rest =>
      if AlarmRecord.scheduled_at r <=? AlarmRecord.scheduled_at x
      then r :: sorted
      else x :: insert_row r rest
  end.

Definition order_by_scheduled_at (rows : list AlarmRecord.t) : list AlarmRecord.t :=
  foldr insert_row [] rows.

Definition has_id (i : string) (r : AlarmRecord.t) : bool :=
  bool_decide (AlarmRecord.id r = i).

(** [UPDATE alarms SET scheduled_at = ?, repeat_interval = ?, payload = ?
    WHERE id = ?] on one row. *)
Definition update_row (scheduled_at : Z) (repeat_interval : option Z) (payload : string)
    (i : string) (r : AlarmRecord.t) : AlarmRecord.t :=
  if has_id i r then
    {| AlarmRecord.id := AlarmRecord.id r;
       AlarmRecord.type := AlarmRecord.type r;
       AlarmRecord.scheduled_at := scheduled_at;
       AlarmRecord.repeat_interval := repeat_interval;
       AlarmRecord.payload := Some payload;
       AlarmRecord.created_at := AlarmRecord.created_at r |}
  else r.

(** The effect of a statement on the table: the result rows and the new
    table, or the constraint violation that aborts the statement. *)
Definition run (q : SqlStmt) (table : list AlarmRecord.t)
  : Outcome (list AlarmRecord.t) * list AlarmRecord.t :=
  match q with
  | CreateSchema => (Returned [], table)
  | SelectAlarms => (Returned (order_by_scheduled_at table), table)
  | SelectDueAlarms before =>
      (Returned (order_by_scheduled_at
                   (filter (fun r => AlarmRecord.scheduled_at r ≤ before) table)), table)
  | SelectEarliestAlarm => (Returned (take 1 (order_by_scheduled_at table)), table)
  | InsertAlarm i ty sched rep pay created =>
      if existsb (has_id i) table
      then (Threw (SqliteConstraint "UNIQUE constraint failed: alarms.id"), table)
      else (Returned [],
            table ++ [ {| AlarmRecord.id := i; AlarmRecord.type := ty;
                          AlarmRecord.scheduled_at := sched;
                          AlarmRecord.repeat_interval := rep;
                          AlarmRecord.payload := Some pay;
                          AlarmRecord.created_at := created |} ])
  | UpdateAlarm sched rep pay i =>
      (Returned [], update_row sched rep pay i <$> table)
  | DeleteAlarm i =>
      (Returned [], filter (fun r => AlarmRecord.id r ≠ i) table)
  | DeleteAlarmsByType ty =>
      (Returned [], filter (fun r => AlarmRecord.type r ≠ ty) table)
  end.

(** *** Result sets as the driver hands them out *)

(** A batch object; an absent property reads [undefined]. *)
Record Batch := {
  columns : option (list string);
  columnNames : option (list string);
  rows : option (list (list JsValue));
  results : option (list (list JsValue));
}.

(** What [sql.exec] returns, by the runtime tests that [parseRows]
    applies to it. *)
Inductive ExecResult :=
| Cursor (batches : list Batch)   (* has a [Symbol.asyncIterator] method *)
| Batches (batches : list Batch)  (* [Array.isArray(result)] *)
| Single (batch : Batch)          (* any other truthy value *)
| Nullish.                        (* [null], [undefined] or another falsy value *)

(** A result set carried by a single batch of the given shape. *)
Definition encode (shape : ResultShape) (cols : list string) (rs : list (list JsValue))
  : ExecResult :=
  match shape with
  | ShapeBatches =>
      Batches [ {| columns := Some cols; columnNames := None;
                   rows := Some rs; results := None |} ]
  | ShapeColumnNames =>
      Batches [ {| columns := None; columnNames := Some cols;
                   rows := None; results := Some rs |} ]
  | ShapeCursor =>
      Cursor [ {| columns := Some cols; columnNames := None;
                  rows := None; results := Some rs |} ]
  end.

(** The columns of the alarm queries, in SELECT order. *)
Definition alarm_columns : list string :=
  ["id"; "type"; "scheduled_at"; "repeat_interval"; "payload"; "created_at"].

Definition nullable {A} (f : A -> JsValue) (o : option A) : JsValue :=
  match o with
  | Some a => f a
  | None => JsNull
  end.

Definition row_of_record (r : AlarmRecord.t) : list JsValue :=
  [ JsString (AlarmRecord.id r);
    JsString (AlarmRecord.type r);
    JsNumber (AlarmRecord.scheduled_at r);
    nullable JsNumber (AlarmRecord.repeat_interval r);
    nullable JsString (AlarmRecord.payload r);
    JsNumber (AlarmRecord.created_at r) ].

End Sql.

(** ** [storage.ts]: the persistence layer *)

Module ActorKitStorage.
Import Sql.

(** [this.sql.exec(query, ...binds)]: the engine runs the statement and the
    driver hands out the result rows in its shape. *)
Definition exec (q : SqlStmt) : M ExecResult := fun w =>
  let '(out, table) := Sql.run q (alarms w) in
  MkRun
    (match out with
     | Returned rs => Returned (encode (driver w) alarm_columns (row_of_record <$> rs))
     | Threw e => Threw e
     end)
    (set_alarms table w)
    [SqlExec q].

(** [ensureInitialized]. The [catch] block logs and rethrows. *)
Definition ensureInitialized : M unit :=
  let* done := gets initialized in
  if done then ret tt
  else
    try_catch
      (let* _ := exec CreateSchema in
       modify (set_initialized true))
      (fun error =>
         let* _ := console_error "Failed to initialize database schema:" error in
         throw error).

(** [columns.forEach((col, i) => { obj[col] = row[i]; })], from index [i]. *)
Fixpoint assign_columns (cols : list string) (i : nat) (row : list JsValue) (obj : JsObject)
  : JsObject :=
  match cols with
  | [] => obj
  | col :: rest =>
      assign_columns rest (S i) row (<[col := default JsUndefined (row !! i)]> obj)
  end.

Definition object_of_row (cols : list string) (row : list JsValue) : JsObject :=
  assign_columns cols 0 row ∅.

(** The [for await (const batch of cursor)] loop, with the loop variables
    [columns] and [rows]. Iterating an absent [batch.results] throws. *)
Fixpoint cursor_loop (batches : list Batch) (cols : option (list string)) (acc : list JsObject)
  : Outcome (list JsObject) :=
  match batches with
  | [] => Returned acc
  | batch :: rest =>
      let cols := match cols with
                  | None => columns batch
                  | Some _ => cols
                  end in
      match results batch with
      | None => Threw (TypeError "batch.results is not iterable")
      | Some rs =>
          cursor_loop rest cols (acc ++ (object_of_row (default [] cols) <$> rs))
      end
  end.

(** [a ?? b]. *)
Definition nullish_or {A} (a b : option A) : option A :=
  match a with
  | Some _ => a
  | None => b
  end.

(** [parseRows]. *)
Definition parseRows (result : ExecResult) : Outcome (list JsObject) :=
  match result with
  | Cursor batches => cursor_loop batches None []
  | _ =>
      let batches := match result with
                     | Batches bs => bs
                     | Single b => [b]
                     | _ => []
                     end in
      match batches with
      | [] => Returned []
      | first :: _ =>
          let cols := default [] (nullish_or (columns first) (columnNames first)) in
          let rs := default [] (nullish_or (rows first) (results first)) in
          if (length cols =? 0)%nat || (length rs =? 0)%nat then Returned []
          else Returned (object_of_row cols <$> rs)
      end
  end.

(** [as AlarmRecord[]] is an unchecked TypeScript cast. The embedding is
    typed, so a record is read from an object whose properties hold values
    of the declared column types; no other object is an [AlarmRecord]. *)
Definition as_AlarmRecord (obj : JsObject) : Outcome AlarmRecord.t :=
  match obj !! "id", obj !! "type", obj !! "scheduled_at", obj !! "created_at" with
  | Some (JsString i), Some (JsString ty), Some (JsNumber sched), Some (JsNumber created) =>
      match obj !! "repeat_interval", obj !! "payload" with
      | Some (JsNumber k), Some (JsString p) =>
          Returned (AlarmRecord.Build_t i ty sched (Some k) (Some p) created)
      | Some (JsNumber k), Some JsNull =>
          Returned (AlarmRecord.Build_t i ty sched (Some k) None created)
      | Some JsNull, Some (JsString p) =>
          Returned (AlarmRecord.Build_t i ty sched None (Some p) created)
      | Some JsNull, Some JsNull =>
          Returned (AlarmRecord.Build_t i ty sched None None created)
      | _, _ => Threw (TypeError "not an AlarmRecord")
      end
  | _, _, _, _ => Threw (TypeError "not an AlarmRecord")
  end.

Definition select (q : SqlStmt) : M (list AlarmRecord.t) :=
  let* _ := ensureInitialized in
  let* result := exec q in
  let* objects := lift (parseRows result) in
  lift (map_outcome as_AlarmRecord objects).

(** [getAlarms]. *)
Definition getAlarms : M (list AlarmRecord.t) := select SelectAlarms.

(** [getDueAlarms]. *)
Definition getDueAlarms (before : Z) : M (list AlarmRecord.t) :=
  select (SelectDueAlarms before).

(** [getEarliestAlarm]; [rows[0] || null]. *)
Definition getEarliestAlarm : M (option AlarmRecord.t) :=
  let* rows := select SelectEarliestAlarm in
  ret (head rows).

(** [insertAlarm], for a [JSON.stringify] of the runtime. *)
Definition insertAlarm `{JsonLib} (options : ScheduleAlarmOptions.t) : M unit :=
  let* _ := ensureInitialized in
  let* created := Date_now in
  let* _ := exec (InsertAlarm (ScheduleAlarmOptions.id options)
                    (ScheduleAlarmOptions.type options)
                    (ScheduleAlarmOptions.scheduledAt options)
                    (ScheduleAlarmOptions.repeatInterval options)
                    (JSON_stringify (ScheduleAlarmOptions.payload options))
                    created) in
  ret tt.

(** [updateAlarm]. *)
Definition updateAlarm `{JsonLib} (options : ScheduleAlarmOptions.t) : M unit :=
  let* _ := ensureInitialized in
  let* _ := exec (UpdateAlarm (ScheduleAlarmOptions.scheduledAt options)
                    (ScheduleAlarmOptions.repeatInterval options)
                    (JSON_stringify (ScheduleAlarmOptions.payload options))
                    (ScheduleAlarmOptions.id options)) in
  ret tt.

(** [deleteAlarm]. *)
Definition deleteAlarm (id : string) : M unit :=
  let* _ := ensureInitialized in
  let* _ := exec (DeleteAlarm id) in
  ret tt.

(** [deleteAlarmsByType]. *)
Definition deleteAlarmsByType (type : string) : M unit :=
  let* _ := ensureInitialized in
  let* _ := exec (DeleteAlarmsByType type) in
  ret tt.

End ActorKitStorage.

(** ** [alarms.ts]: the alarm manager *)

Module AlarmManager.

(** What a handler does when it is called on an alarm in a world: it
    resolves to a boolean or rejects, and leaves a world. *)
Definition Handler : Type := Alarm.t -> World -> Outcome bool * World.

(** JavaScript truthiness of [number | undefined] and [string | null]. *)
Definition truthy_number (n : option Z) : bool :=
  match n with
  | Some k => negb (k =? 0)
  | None => false
  end.

Definition truthy_string (s : option string) : bool :=
  match s with
  | Some t => negb (bool_decide (t = ""))
  | None => false
  end.

Section WithJson.
Context `{JsonLib}.

(** [parseAlarmRecord]. *)
Definition parseAlarmRecord (record : AlarmRecord.t) : Outcome Alarm.t :=
  let build (payload : JsonValue) : Alarm.t :=
    {| Alarm.id := AlarmRecord.id record;
       Alarm.type := AlarmRecord.type record;
       Alarm.scheduledAt := AlarmRecord.scheduled_at record;
       Alarm.repeatInterval := AlarmRecord.repeat_interval record;
       Alarm.payload := payload;
       Alarm.createdAt := AlarmRecord.created_at record |} in
  if truthy_string (AlarmRecord.payload record) then
    let text := default "" (AlarmRecord.payload record) in
    match JSON_parse text with
    | Some payload => Returned (build payload)
    | None => Threw (SyntaxError text)
    end
  else Returned (build empty_object).

(** [rescheduleNextAlarm]. *)
Definition rescheduleNextAlarm : M unit :=
  let* earliest := ActorKitStorage.getEarliestAlarm in
  match earliest with
  | None => modify (set_current None None)
  | Some earliest =>
      let* currentId := gets currentAlarmId in
      let* currentTime := gets currentAlarmTime in
      if bool_decide (currentId ≠ Some (AlarmRecord.id earliest))
         || bool_decide (currentTime ≠ Some (AlarmRecord.scheduled_at earliest))
      then
        let* _ := modify (set_current (Some (AlarmRecord.id earliest))
                            (Some (AlarmRecord.scheduled_at earliest))) in
        let* _ := emit (SetAlarm (AlarmRecord.scheduled_at earliest)) in
        modify (set_do_alarm (Some (AlarmRecord.scheduled_at earliest)))
      else ret tt
  end.

(** [schedule]. *)
Definition schedule (options : ScheduleAlarmOptions.t) : M unit :=
  let* _ := ActorKitStorage.insertAlarm options in
  rescheduleNextAlarm.

(** [cancel]. *)
Definition cancel (id : string) : M unit :=
  let* _ := ActorKitStorage.deleteAlarm id in
  let* currentId := gets currentAlarmId in
  if bool_decide (currentId = Some id) then rescheduleNextAlarm else ret tt.

(** [cancelByType]. *)
Definition cancelByType (type : string) : M unit :=
  let* _ := ActorKitStorage.deleteAlarmsByType type in
  rescheduleNextAlarm.

(** [getPendingAlarms]. *)
Definition getPendingAlarms : M (list Alarm.t) :=
  let* records := ActorKitStorage.getAlarms in
  lift (map_outcome parseAlarmRecord records).

(** [getDueAlarms(before = Date.now())]. *)
Definition getDueAlarms (before : option Z) : M (list Alarm.t) :=
  let* before := match before with
                 | Some t => ret t
                 | None => Date_now
                 end in
  let* records := ActorKitStorage.getDueAlarms before in
  lift (map_outcome parseAlarmRecord records).

(** [deleteAlarm]. *)
Definition deleteAlarm (id : string) : M unit := ActorKitStorage.deleteAlarm id.

(** [updateAlarm]. *)
Definition updateAlarm (options : ScheduleAlarmOptions.t) : M unit :=
  ActorKitStorage.updateAlarm options.

(** [await handler(alarm)]. *)
Definition call_handler (handler : Handler) (alarm : Alarm.t) : M bool := fun w =>
  let '(out, w') := handler alarm w in
  MkRun out w' [CallHandler alarm].

(** The body of the [for (const alarm of dueAlarms)] loop: the storage
    mutation, the guarded handler call, and the result record that is
    pushed. *)
Definition handle_alarm (handler : Handler) (now : Z) (alarm : Alarm.t)
  : M AlarmHandleResult.t :=
  let* flags :=
    if truthy_number (Alarm.repeatInterval alarm) then
      let nextScheduledAt := now + default 0 (Alarm.repeatInterval alarm) in
      let* _ := updateAlarm
                  {| ScheduleAlarmOptions.id := Alarm.id alarm;
                     ScheduleAlarmOptions.type := Alarm.type alarm;
                     ScheduleAlarmOptions.scheduledAt := nextScheduledAt;
                     ScheduleAlarmOptions.repeatInterval := Alarm.repeatInterval alarm;
                     ScheduleAlarmOptions.payload := Alarm.payload alarm |} in
      ret (true, false)
    else
      let* _ := deleteAlarm (Alarm.id alarm) in
      ret (false, true) in
  let* _ :=
    try_catch
      (let* _ := call_handler handler alarm in ret tt)
      (fun error =>
         console_error ("Error handling alarm " +:+ Alarm.id alarm +:+ ":") error) in
  ret {| AlarmHandleResult.id := Alarm.id alarm;
         AlarmHandleResult.type := Alarm.type alarm;
         AlarmHandleResult.rescheduled := fst flags;
         AlarmHandleResult.deleted := snd flags |}.

Fixpoint handle_alarms (handler : Handler) (now : Z) (dueAlarms : list Alarm.t)
  : M (list AlarmHandleResult.t) :=
  match dueAlarms with
  | [] => ret []
  | alarm :: rest =>
      let* result := handle_alarm handler now alarm in
      let* results := handle_alarms handler now rest in
      ret (result :: results)
  end.

(** [handleDueAlarms]. *)
Definition handleDueAlarms (handler : Handler) : M (list AlarmHandleResult.t) :=
  let* now := Date_now in
  let* dueAlarms := getDueAlarms (Some now) in
  let* results := handle_alarms handler now dueAlarms in
  let* _ := rescheduleNextAlarm in
  ret results.

(** [getCurrentAlarm]. *)
Definition getCurrentAlarm : M (option string * option Z) :=
  let* i := gets currentAlarmId in
  let* t := gets currentAlarmTime in
  ret (i, t).

End WithJson.

End AlarmManager.

(** ** The alarm scheduler for XState delayed events *)

Module AlarmScheduler.

(** [AnyActorRef], as far as the scheduler reads it. *)
Record ActorRef := { sessionId : string }.

(** The actor that events are delivered to: whether [actor.system._relay]
    exists, and what [_relay(actor, actor, event)] and [send(event)] do. *)
Record Actor := {
  has_relay : bool;
  relay : JsonValue -> World -> Outcome unit * World;
  send : JsonValue -> World -> Outcome unit * World;
}.

(** [Clock]: the token is [unknown]; [clearTimeout] accepts any value. *)
Record Clock := {
  setTimeout : M unit -> Z -> M Qc;
  clearTimeout : forall A : Type, A -> M unit;
}.

(** [NOOP_CLOCK]. *)
Definition NOOP_CLOCK : Clock :=
  {| setTimeout := fun _ _ => Math_random;
     clearTimeout := fun _ _ => ret tt |}.

(** *** [Map] objects *)

(** The object that a reference denotes; the module-level [new Map()] is
    empty until it is written. *)
Definition contents (ref : nat) (w : World) : MapObject := default ∅ (maps w !! ref).

(** [map.set(key, value)]. *)
Definition Map_set (ref : nat) (key : string) (value : ScheduledEventSnapshot.t) : M unit :=
  modify (fun w => set_maps (<[ref := <[key := value]> (contents ref w)]> (maps w)) w).

(** [map.delete(key)]. *)
Definition Map_delete (ref : nat) (key : string) : M unit :=
  modify (fun w => set_maps (<[ref := delete key (contents ref w)]> (maps w)) w).

(** [map.clear()]. *)
Definition Map_clear (ref : nat) : M unit :=
  modify (fun w => set_maps (<[ref := ∅]> (maps w)) w).

(** [map.entries()]. The embedding enumerates a map in the order of its
    finite-map representation, not in insertion order. *)
Definition Map_entries (ref : nat) : M (list (string * ScheduledEventSnapshot.t)) :=
  gets (fun w => map_to_list (contents ref w)).

(** A reference that denotes no object yet, and is not the module's. *)
Definition fresh_ref (h : gmap nat MapObject) : nat := S (max_list (elements (dom h))).

(** [new Map(source)]: a new object with the entries of [source]. *)
Definition Map_copy (source : nat) : M nat := fun w =>
  let ref := fresh_ref (maps w) in
  MkRun (Returned ref) (set_maps (<[ref := contents source w]> (maps w)) w) [].

(** [const scheduledEventsMap = new Map()], created when the module is
    loaded. *)
Definition scheduledEventsMap : nat := 0%nat.

(** [scheduledEventId.split(".").pop()]: the characters after the last
    dot. *)
Fixpoint last_segment (s : string) (segment : string) : string :=
  match s with
  | EmptyString => segment
  | String c rest =>
      if Ascii.eqb c "."%char then last_segment rest ""
      else last_segment rest (segment +:+ String c "")
  end.

(** [a || b] on strings. *)
Definition or_string (a b : string) : string :=
  if bool_decide (a = "") then b else a.

(** The element type of the argument of [restoreScheduledEvents]. *)
Record RestoredAlarm := {
  payload : XStateAlarmData.t;
  scheduledAt : Z;
}.

(** The body of the loop of [restoreScheduledEvents]. *)
Definition restore_alarm (alarm : RestoredAlarm) : M unit :=
  if bool_decide (XStateAlarmData.type (payload alarm) = "xstate-delay") then
    let scheduledEventId := XStateAlarmData.scheduledEventId (payload alarm) in
    let* now := Date_now in
    let delay := scheduledAt alarm - now in
    if 0 <? delay then
      Map_set scheduledEventsMap scheduledEventId
        {| ScheduledEventSnapshot.sourceSessionId :=
             XStateAlarmData.sourceSessionId (payload alarm);
           ScheduledEventSnapshot.targetSessionId :=
             XStateAlarmData.targetSessionId (payload alarm);
           ScheduledEventSnapshot.event := XStateAlarmData.event (payload alarm);
           ScheduledEventSnapshot.delay := delay;
           ScheduledEventSnapshot.id :=
             or_string (last_segment scheduledEventId "") scheduledEventId;
           ScheduledEventSnapshot.startedAt := scheduledAt alarm - delay |}
    else ret tt
  else ret tt.

(** [restoreScheduledEvents]. *)
Fixpoint restoreScheduledEvents (alarms : list RestoredAlarm) : M unit :=
  match alarms with
  | [] => ret tt
  | alarm :: rest =>
      let* _ := restore_alarm alarm in
      restoreScheduledEvents rest
  end.

(** [getScheduledEvents]. *)
Definition getScheduledEvents : M nat := Map_copy scheduledEventsMap.

(** The object literal passed as [payload] by [schedule]. *)
Definition payload_object (data : XStateAlarmData.t) : JsonValue :=
  JObject [ ("type", JString (XStateAlarmData.type data));
            ("sourceSessionId", JString (XStateAlarmData.sourceSessionId data));
            ("targetSessionId", JString (XStateAlarmData.targetSessionId data));
            ("event", XStateAlarmData.event data);
            ("scheduledEventId", JString (XStateAlarmData.scheduledEventId data));
            ("alarmId", JString (XStateAlarmData.alarmId data)) ].

(** [await actor.system._relay(...)] or [actor.send(...)]. *)
Definition call_actor (f : JsonValue -> World -> Outcome unit * World) (e : Effect)
    (event : JsonValue) : M unit := fun w =>
  let '(out, w') := f event w in
  MkRun out w' [e].

(** [handleXStateAlarm]. *)
Definition handleXStateAlarm (alarmData : XStateAlarmData.t) (actor : Actor) : M unit :=
  let event := XStateAlarmData.event alarmData in
  let* _ := Map_delete scheduledEventsMap (XStateAlarmData.scheduledEventId alarmData) in
  try_catch
    (if has_relay actor then call_actor (relay actor) (Relay event) event
     else call_actor (send actor) (Send event) event)
    (fun error => console_error "[AlarmScheduler] Error handling XState alarm:" error).

Section WithJson.
Context `{JsonLib}.

(** [alarmManager.cancel(...).catch(...)]. *)
Definition cancel_alarm (scheduledEventId : string) : M unit :=
  try_catch
    (AlarmManager.cancel ("xstate-" +:+ scheduledEventId))
    (fun error => console_error "[AlarmScheduler] Error canceling alarm:" error).

(** The [schedule] method of [createAlarmScheduler]; [id] is the fifth
    argument after its default has been applied. The promise of
    [alarmManager.schedule] is run to completion in place. *)
Definition schedule (source target : ActorRef) (event : JsonValue) (delay : Z)
    (id : string) : M unit :=
  let scheduledEventId := sessionId source +:+ "." +:+ id in
  let* startedAt := Date_now in
  let* _ := Map_set scheduledEventsMap scheduledEventId
              {| ScheduledEventSnapshot.sourceSessionId := sessionId source;
                 ScheduledEventSnapshot.targetSessionId := sessionId target;
                 ScheduledEventSnapshot.event := event;
                 ScheduledEventSnapshot.delay := delay;
                 ScheduledEventSnapshot.id := id;
                 ScheduledEventSnapshot.startedAt := startedAt |} in
  let alarmId := "xstate-" +:+ scheduledEventId in
  let* now := Date_now in
  try_catch
    (AlarmManager.schedule
       {| ScheduleAlarmOptions.id := alarmId;
          ScheduleAlarmOptions.type := "xstate-delay";
          ScheduleAlarmOptions.scheduledAt := now + delay;
          ScheduleAlarmOptions.repeatInterval := None;
          ScheduleAlarmOptions.payload :=
            payload_object
              {| XStateAlarmData.type := "xstate-delay";
                 XStateAlarmData.sourceSessionId := sessionId source;
                 XStateAlarmData.targetSessionId := sessionId target;
                 XStateAlarmData.event := event;
                 XStateAlarmData.scheduledEventId := scheduledEventId;
                 XStateAlarmData.alarmId := alarmId |} |})
    (fun error =>
       let* _ := console_error "[AlarmScheduler] Error scheduling alarm:" error in
       Map_delete scheduledEventsMap scheduledEventId).

(** The [cancel] method. *)
Definition cancel (source : ActorRef) (id : string) : M unit :=
  let scheduledEventId := sessionId source +:+ "." +:+ id in
  let* _ := Map_delete scheduledEventsMap scheduledEventId in
  cancel_alarm scheduledEventId.

(** The second loop of [cancelAll]. *)
Fixpoint cancel_events (eventsToCancel : list string) : M unit :=
  match eventsToCancel with
  | [] => ret tt
  | scheduledEventId :: rest =>
      let* _ := Map_delete scheduledEventsMap scheduledEventId in
      let* _ := cancel_alarm scheduledEventId in
      cancel_events rest
  end.

(** The [cancelAll] method. *)
Definition cancelAll (actorRef : ActorRef) : M unit :=
  let* entries := Map_entries scheduledEventsMap in
  let eventsToCancel :=
    fst <$>
      filter (fun entry =>
                ScheduledEventSnapshot.sourceSessionId (snd entry) = sessionId actorRef)
             entries in
  cancel_events eventsToCancel.

End WithJson.

End AlarmScheduler.

(** ** Vocabulary of the statements *)

(** The world after [ensureInitialized], and the effects of that call. *)
Definition booted (w : World) : World := set_initialized true w.

Definition boot_effects (w : World) : list Effect :=
  if initialized w then [] else [SqlExec CreateSchema].

(** The world in which the drain loop starts: the clock has been read once
    and the schema is in place. *)
Definition entered (w : World) : World := booted (set_ticks (S (ticks w)) w).

(** The ids stored in a table. The primary key keeps them distinct. *)
Definition ids (table : list AlarmRecord.t) : list string := AlarmRecord.id <$> table.

(** The rows that [SELECT ... WHERE scheduled_at <= ? ORDER BY scheduled_at]
    yields. *)
Definition due_rows (before : Z) (table : list AlarmRecord.t) : list AlarmRecord.t :=
  Sql.order_by_scheduled_at (filter (fun r => AlarmRecord.scheduled_at r ≤ before) table).

Definition is_Returned {A} (o : Outcome A) : Prop :=
  match o with
  | Returned _ => True
  | Threw _ => False
  end.

(** A handler that creates no alarm row: every id stored after the call
    was stored before it. *)
Definition handler_inserts_nothing (handler : AlarmManager.Handler) : Prop :=
  forall alarm w i, i ∈ ids (alarms (snd (handler alarm w))) -> i ∈ ids (alarms w).

(** A handler that leaves the alarms table as it is. *)
Definition handler_keeps_alarms (handler : AlarmManager.Handler) : Prop :=
  forall alarm w, alarms (snd (handler alarm w)) = alarms w.

Section DrainVocabulary.
Context `{JsonLib}.

(** The statement that the drain issues for a due alarm. *)
Definition mutation (now : Z) (alarm : Alarm.t) : SqlStmt :=
  if AlarmManager.truthy_number (Alarm.repeatInterval alarm) then
    UpdateAlarm (now + default 0 (Alarm.repeatInterval alarm))
      (Alarm.repeatInterval alarm)
      (JSON_stringify (Alarm.payload alarm))
      (Alarm.id alarm)
  else DeleteAlarm (Alarm.id alarm).

(** The statement that [insertAlarm] issues in a world. *)
Definition insert_stmt `{JsonLib} (options : ScheduleAlarmOptions.t) (w : World) : SqlStmt :=
  InsertAlarm (ScheduleAlarmOptions.id options)
    (ScheduleAlarmOptions.type options)
    (ScheduleAlarmOptions.scheduledAt options)
    (ScheduleAlarmOptions.repeatInterval options)
    (JSON_stringify (ScheduleAlarmOptions.payload options))
    (clock w (ticks w)).

(** The result record that the drain returns for a due alarm. *)
Definition result_of (alarm : Alarm.t) : AlarmHandleResult.t :=
  {| AlarmHandleResult.id := Alarm.id alarm;
     AlarmHandleResult.type := Alarm.type alarm;
     AlarmHandleResult.rescheduled := AlarmManager.truthy_number (Alarm.repeatInterval alarm);
     AlarmHandleResult.deleted := negb (AlarmManager.truthy_number (Alarm.repeatInterval alarm)) |}.

(** The world in which the handler is called on a due alarm: the one in
    which the statement for that alarm has been run. *)
Definition after_mutation (now : Z) (alarm : Alarm.t) (w : World) : World :=
  set_alarms (snd (Sql.run (mutation now alarm) (alarms w))) (booted w).

(** The world that the loop body leaves: the one the handler left. *)
Definition after_alarm (handler : AlarmManager.Handler) (now : Z)
    (w : World) (alarm : Alarm.t) : World :=
  snd (handler alarm (after_mutation now alarm w)).

(** What the loop body logs for the outcome of the handler. *)
Definition handler_log (alarm : Alarm.t) (out : Outcome bool) : list Effect :=
  match out with
  | Threw e => [ConsoleError ("Error handling alarm " +:+ Alarm.id alarm +:+ ":") e]
  | Returned _ => []
  end.

(** The effects of the loop body on a due alarm, without the schema
    bootstrap and the log: the statement, then the handler call. *)
Definition steps_of (now : Z) (alarm : Alarm.t) : list Effect :=
  [SqlExec (mutation now alarm); CallHandler alarm].

End DrainVocabulary.


(** Whether the volatile fields of the manager name this row as the one
    the alarm slot was last set for. *)
Definition armed_for (w : World) (earliest : AlarmRecord.t) : Prop :=
  currentAlarmId w = Some (AlarmRecord.id earliest)
  /\ currentAlarmTime w = Some (AlarmRecord.scheduled_at earliest).

#[global] Instance armed_for_dec w earliest : Decision (armed_for w earliest).
Proof. unfold armed_for. apply _. Defined.

(** The row that [getEarliestAlarm] yields. *)
Definition earliest_row (table : list AlarmRecord.t) : option AlarmRecord.t :=
  head (Sql.order_by_scheduled_at table).

(** Effects by kind. *)
Definition is_mutation (e : Effect) : bool :=
  match e with
  | SqlExec (InsertAlarm _ _ _ _ _ _) | SqlExec (UpdateAlarm _ _ _ _)
  | SqlExec (DeleteAlarm _) | SqlExec (DeleteAlarmsByType _) => true
  | _ => false
  end.

Definition is_call (e : Effect) : bool :=
  match e with
  | CallHandler _ => true
  | _ => false
  end.


Definition is_console_error (e : Effect) : bool :=
  match e with
  | ConsoleError _ _ => true
  | _ => false
  end.

Definition is_set_alarm (e : Effect) : bool :=
  match e with
  | SetAlarm _ => true
  | _ => false
  end.

(** The statements that insert, update or delete the row under an id. *)
Definition is_statement_for (i : string) (e : Effect) : bool :=
  match e with
  | SqlExec (InsertAlarm j _ _ _ _ _) | SqlExec (UpdateAlarm _ _ _ j)
  | SqlExec (DeleteAlarm j) => bool_decide (j = i)
  | _ => false
  end.

Definition is_step (e : Effect) : bool := is_mutation e || is_call e.

Definition is_step_or_log (e : Effect) : bool := is_step e || is_console_error e.

(** The in-memory index of scheduled events: the contents of the module's
    [scheduledEventsMap]. *)
Definition index (w : World) : MapObject :=
  AlarmScheduler.contents AlarmScheduler.scheduledEventsMap w.

Definition is_xstate_delay (alarm : AlarmScheduler.RestoredAlarm) : Prop :=
  XStateAlarmData.type (AlarmScheduler.payload alarm) = "xstate-delay".

#[global] Instance is_xstate_delay_dec alarm : Decision (is_xstate_delay alarm).
Proof. unfold is_xstate_delay. apply _. Defined.

(** The key under which an alarm is restored. *)
Definition key_of (alarm : AlarmScheduler.RestoredAlarm) : string :=
  XStateAlarmData.scheduledEventId (AlarmScheduler.payload alarm).

(** The current time when [restoreScheduledEvents] visits the alarm that
    follows [before] in its argument: the loop reads the clock once for
    every alarm whose payload type is ["xstate-delay"]. *)
Definition visit_time (w : World) (before : list AlarmScheduler.RestoredAlarm) : Z :=
  clock w (ticks w + length (filter is_xstate_delay before)).

(** The alarm that follows [before] gets an index entry. *)
Definition restorable (w : World) (before : list AlarmScheduler.RestoredAlarm)
    (alarm : AlarmScheduler.RestoredAlarm) : Prop :=
  is_xstate_delay alarm /\ visit_time w before < AlarmScheduler.scheduledAt alarm.

(** The index entry of an alarm that is restored at time [now]. *)
Definition restored_entry (alarm : AlarmScheduler.RestoredAlarm) (now : Z)
  : ScheduledEventSnapshot.t :=
  {| ScheduledEventSnapshot.sourceSessionId :=
       XStateAlarmData.sourceSessionId (AlarmScheduler.payload alarm);
     ScheduledEventSnapshot.targetSessionId :=
       XStateAlarmData.targetSessionId (AlarmScheduler.payload alarm);
     ScheduledEventSnapshot.event := XStateAlarmData.event (AlarmScheduler.payload alarm);
     ScheduledEventSnapshot.delay := AlarmScheduler.scheduledAt alarm - now;
     ScheduledEventSnapshot.id :=
       AlarmScheduler.or_string (AlarmScheduler.last_segment (key_of alarm) "") (key_of alarm);
     ScheduledEventSnapshot.startedAt :=
       AlarmScheduler.scheduledAt alarm - (AlarmScheduler.scheduledAt alarm - now) |}.

(** Calls that a holder of a reference to a [Map] can make on it. *)
Inductive MapCall :=
| SetEntry (key : string) (value : ScheduledEventSnapshot.t)
| DeleteEntry (key : string)
| ClearEntries.

Definition apply_call (ref : nat) (c : MapCall) : M unit :=
  match c with
  | SetEntry key value => AlarmScheduler.Map_set ref key value
  | DeleteEntry key => AlarmScheduler.Map_delete ref key
  | ClearEntries => AlarmScheduler.Map_clear ref
  end.

Fixpoint apply_calls (ref : nat) (cs : list MapCall) : M unit :=
  match cs with
  | [] => ret tt
  | c :: rest =>
      let* _ := apply_call ref c in
      apply_calls ref rest
  end.

(** Calls on the alarm scheduler: its three methods and the delivery of a
    fired alarm. *)
Inductive SchedulerCall :=
| CallSchedule (source target : AlarmScheduler.ActorRef) (event : JsonValue)
    (delay : Z) (id : string)
| CallCancel (source : AlarmScheduler.ActorRef) (id : string)
| CallCancelAll (actorRef : AlarmScheduler.ActorRef)
| CallDeliver (alarmData : XStateAlarmData.t) (actor : AlarmScheduler.Actor).

Definition run_call `{JsonLib} (c : SchedulerCall) : M unit :=
  match c with
  | CallSchedule source target event delay id =>
      AlarmScheduler.schedule source target event delay id
  | CallCancel source id => AlarmScheduler.cancel source id
  | CallCancelAll actorRef => AlarmScheduler.cancelAll actorRef
  | CallDeliver alarmData actor => AlarmScheduler.handleXStateAlarm alarmData actor
  end.

Fixpoint run_calls `{JsonLib} (cs : list SchedulerCall) : M unit :=
  match cs with
  | [] => ret tt
  | c :: rest =>
      let* _ := run_call c in
      run_calls rest
  end.

(** The world in which the [Map] object under [ref] has the contents
    [m]. *)
Definition with_object (ref : nat) (m : MapObject) (w : World) : World :=
  set_maps (<[ref := m]> (maps w)) w.

(** A computation that neither reads nor writes the object under [ref]:
    it runs the same whatever the contents of that object. *)
Definition Ignores {A} (ref : nat) (c : M A) : Prop :=
  forall m w,
    c (with_object ref m w)
    = MkRun (outcome (c w)) (with_object ref m (world (c w))) (effects (c w)).

(** The same for what an actor does with an event. *)
Definition behaviour_ignores (ref : nat)
    (f : JsonValue -> World -> Outcome unit * World) : Prop :=
  forall event m w,
    f event (with_object ref m w) = (fst (f event w), with_object ref m (snd (f event w))).

Definition call_ignores (ref : nat) (c : SchedulerCall) : Prop :=
  match c with
  | CallDeliver _ actor =>
      behaviour_ignores ref (AlarmScheduler.relay actor)
      /\ behaviour_ignores ref (AlarmScheduler.send actor)
  | _ => True
  end.

(** ** Scenarios *)

(** Concrete worlds and handlers on which the statements are exercised. *)

Definition zero_in_range : (0 <= 0)%Qc /\ (0 < 1)%Qc := conj (Qcle_refl 0) eq_refl.

(** A random source whose every draw is 0. *)
Definition zero_random : Random01 := {| number := 0%Qc; number_range := zero_in_range |}.

(** A freshly started object whose clock reads [now] and whose alarms table
    holds [rows]. *)
Definition cold_world (now : Z) (rows : list AlarmRecord.t) : World :=
  {| clock := fun _ => now; ticks := 0; random := fun _ => zero_random; draws := 0;
     alarms := rows; driver := ShapeCursor; do_alarm := None; initialized := false;
     currentAlarmId := None; currentAlarmTime := None; maps := ∅ |}.

Definition one_shot (i : string) (t : Z) (payload : option string) : AlarmRecord.t :=
  {| AlarmRecord.id := i; AlarmRecord.type := "custom"; AlarmRecord.scheduled_at := t;
     AlarmRecord.repeat_interval := None; AlarmRecord.payload := payload;
     AlarmRecord.created_at := 0 |}.

Definition recurring (i : string) (t k : Z) (payload : option string) : AlarmRecord.t :=
  {| AlarmRecord.id := i; AlarmRecord.type := "cache-cleanup"; AlarmRecord.scheduled_at := t;
     AlarmRecord.repeat_interval := Some k; AlarmRecord.payload := payload;
     AlarmRecord.created_at := 0 |}.

(** A handler that rejects on the alarm [bad] and resolves on every other
    alarm, and touches nothing. *)
Definition throws_on (bad : string) : AlarmManager.Handler := fun alarm w =>
  if bool_decide (Alarm.id alarm = bad) then (Threw (UserError "boom"), w)
  else (Returned true, w).

(** A drain at time 1000 over a one-shot alarm that is due, a recurring
    alarm that is due and a one-shot alarm that is not. *)
Definition mixed_world : World :=
  cold_world 1000
    [ one_shot "A" 900 (Some "[1,2]");
      recurring "R" 950 500 None;
      one_shot "B" 5000 (Some "{}") ].


(** A table whose only row is due and holds a payload that is not JSON. *)
Definition corrupt_world : World := cold_world 1000 [ one_shot "A" 900 (Some "{") ].


(** The rows ["a"] and ["b"] of a one-column result, carried in two
    batches: as an array of [{columns, rows}] batches, as an array of
    [{columnNames, results}] batches and as a cursor that yields
    [{columns, results}] batches. *)
Definition two_batch_array : Sql.ExecResult :=
  Sql.Batches
    [ {| Sql.columns := Some ["id"]; Sql.columnNames := None;
         Sql.rows := Some [[JsString "a"]]; Sql.results := None |};
      {| Sql.columns := Some ["id"]; Sql.columnNames := None;
         Sql.rows := Some [[JsString "b"]]; Sql.results := None |} ].

Definition two_batch_named_array : Sql.ExecResult :=
  Sql.Batches
    [ {| Sql.columns := None; Sql.columnNames := Some ["id"];
         Sql.rows := None; Sql.results := Some [[JsString "a"]] |};
      {| Sql.columns := None; Sql.columnNames := Some ["id"];
         Sql.rows := None; Sql.results := Some [[JsString "b"]] |} ].

Definition two_batch_cursor : Sql.ExecResult :=
  Sql.Cursor
    [ {| Sql.columns := Some ["id"]; Sql.columnNames := None;
         Sql.rows := None; Sql.results := Some [[JsString "a"]] |};
      {| Sql.columns := Some ["id"]; Sql.columnNames := None;
         Sql.rows := None; Sql.results := Some [[JsString "b"]] |} ].

(** A delayed event of session ["s1"], due at [t], under the event key
    [key]. *)
Definition delayed_event (key : string) (t : Z) : AlarmScheduler.RestoredAlarm :=
  {| AlarmScheduler.payload :=
       {| XStateAlarmData.type := "xstate-delay";
          XStateAlarmData.sourceSessionId := "s1";
          XStateAlarmData.targetSessionId := "s1";
          XStateAlarmData.event := JObject [("type", JString "TICK")];
          XStateAlarmData.scheduledEventId := "s1." +:+ key;
          XStateAlarmData.alarmId := "xstate-s1." +:+ key |};
     AlarmScheduler.scheduledAt := t |}.

(** A world at time 1000 whose index holds the event ["s1.after"], restored
    from an alarm due at 1500. *)
Definition indexed_world : World :=
  world (AlarmScheduler.restoreScheduledEvents [delayed_event "after" 1500] (cold_world 1000 [])).

(** An actor with a relay that accepts every event and touches nothing. *)
Definition quiet_actor : AlarmScheduler.Actor :=
  {| AlarmScheduler.has_relay := true;
     AlarmScheduler.relay := fun _ w => (Returned tt, w);
     AlarmScheduler.send := fun _ w => (Returned tt, w) |}.

Definition session1 : AlarmScheduler.ActorRef := {| AlarmScheduler.sessionId := "s1" |}.

(** A freshly started object with an empty table whose clock returns the
    given readings, call after call, and [last] from then on. *)
Definition ticking_world (readings : list Z) (last : Z) : World :=
  {| clock := fun k => default last (readings !! k); ticks := 0;
     random := fun _ => zero_random; draws := 0;
     alarms := []; driver := ShapeColumnNames; do_alarm := None; initialized := false;
     currentAlarmId := None; currentAlarmTime := None; maps := ∅ |}.

(** A handler that resolves on every alarm and touches nothing. *)
Definition accept : AlarmManager.Handler := fun _ w => (Returned true, w).

Definition options (i ty : string) (t : Z) (k : option Z) : ScheduleAlarmOptions.t :=
  {| ScheduleAlarmOptions.id := i; ScheduleAlarmOptions.type := ty;
     ScheduleAlarmOptions.scheduledAt := t; ScheduleAlarmOptions.repeatInterval := k;
     ScheduleAlarmOptions.payload := JObject [] |}.

(** ** Vocabulary of the further properties *)

(** The volatile fields of the manager describe the table: they name its
    earliest row, or are both cleared when the table is empty. *)
Definition in_sync (w : World) : Prop :=
  match earliest_row (alarms w) with
  | Some earliest => armed_for w earliest
  | None => currentAlarmId w = None /\ currentAlarmTime w = None
  end.

(** The alarm slot was last set for the time recorded in
    [currentAlarmTime]. *)
Definition slot_follows (w : World) : Prop :=
  forall t, currentAlarmTime w = Some t -> do_alarm w = Some t.

(** The row that [insertAlarm] writes at time [created]. *)
Definition new_row `{JsonLib} (options : ScheduleAlarmOptions.t) (created : Z) : AlarmRecord.t :=
  {| AlarmRecord.id := ScheduleAlarmOptions.id options;
     AlarmRecord.type := ScheduleAlarmOptions.type options;
     AlarmRecord.scheduled_at := ScheduleAlarmOptions.scheduledAt options;
     AlarmRecord.repeat_interval := ScheduleAlarmOptions.repeatInterval options;
     AlarmRecord.payload := Some (JSON_stringify (ScheduleAlarmOptions.payload options));
     AlarmRecord.created_at := created |}.

(** Rows in ascending order of deadline. *)
Definition by_deadline (r1 r2 : AlarmRecord.t) : Prop :=
  AlarmRecord.scheduled_at r1 ≤ AlarmRecord.scheduled_at r2.

(** The rows that a sequence of batches carries in [results]. *)
Definition batch_rows (batches : list Sql.Batch) : list (list JsValue) :=
  concat ((fun b => default [] (Sql.results b)) <$> batches).

Definition has_results (b : Sql.Batch) : Prop := is_Some (Sql.results b).

(** Alarms in ascending order of deadline. *)
Definition alarm_by_deadline (a1 a2 : Alarm.t) : Prop :=
  Alarm.scheduledAt a1 ≤ Alarm.scheduledAt a2.

(** The mutating calls of the alarm manager that re-arm the platform
    alarm. *)
Inductive ManagerCall :=
  | ManagerSchedule (options : ScheduleAlarmOptions.t)
  | ManagerCancel (id : string)
  | ManagerCancelByType (type : string)
  | ManagerHandleDueAlarms (handler : AlarmManager.Handler).

Definition run_manager_call `{JsonLib} (c : ManagerCall) : M unit :=
  match c with
  | ManagerSchedule options => AlarmManager.schedule options
  | ManagerCancel id => AlarmManager.cancel id
  | ManagerCancelByType type => AlarmManager.cancelByType type
  | ManagerHandleDueAlarms handler =>
      let* _ := AlarmManager.handleDueAlarms handler in ret tt
  end.

(** A caller that goes on after a rejected call. *)
Fixpoint run_manager_calls `{JsonLib} (cs : list ManagerCall) : M unit :=
  match cs with
  | [] => ret tt
  | c :: rest =>
      let* _ := try_catch (run_manager_call c) (fun _ => ret tt) in
      run_manager_calls rest
  end.


(** ** [calculateNextRecurringAlarm] *)

(** The numbers of [calculateNextRecurringAlarm]: IEEE 754 doubles that
    hold whole numbers (times and intervals in milliseconds), and the two
    infinities that a sum can overflow to. *)
Module Double.

Inductive t :=
| Finite (z : Z)
| PosInfinity
| NegInfinity.

(** Rounding of a magnitude to a significand of 53 bits, to nearest, ties
    to the even significand. Below 2^53 every whole number is a double. *)
Definition round_magnitude (m : Z) : Z :=
  if m <? 2 ^ 53 then m
  else
    let e := Z.log2 m - 52 in
    let q := m / 2 ^ e in
    let r := m mod 2 ^ e in
    let half := 2 ^ (e - 1) in
    let q' := if r <? half then q
              else if half <? r then q + 1
              else if Z.even q then q else q + 1 in
    q' * 2 ^ e.

Definition round (z : Z) : Z := Z.sgn z * round_magnitude (Z.abs z).

(** The double that an exact whole-number result is rounded to; a result
    that rounds to 2^1024 or beyond overflows to the infinity of its
    sign. *)
Definition of_Z (z : Z) : t :=
  let r := round z in
  if 2 ^ 1024 <=? Z.abs r then (if 0 <? z then PosInfinity else NegInfinity)
  else Finite r.

(** [a + b] for a finite [b]. *)
Definition add (a : t) (b : Z) : t :=
  match a with
  | Finite z => of_Z (z + b)
  | PosInfinity => PosInfinity
  | NegInfinity => NegInfinity
  end.

(** [a < b] for a finite [b]. *)
Definition ltb (a : t) (b : Z) : bool :=
  match a with
  | Finite z => z <? b
  | PosInfinity => false
  | NegInfinity => true
  end.

(** The whole number [z] is a finite double. *)
Definition representable (z : Z) : Prop := of_Z z = Finite z.

End Double.

(** The [while (next < now) next += interval] loop, bounded by the number of
    iterations allowed; [None] when the bound is reached with the loop
    condition still true. *)
Fixpoint next_recurring_loop (fuel : nat) (next : Double.t) (interval now : Z)
  : option Double.t :=
  if Double.ltb next now then
    match fuel with
    | O => None
    | S fuel => next_recurring_loop fuel (Double.add next interval) interval now
    end
  else Some next.

(** [calculateNextRecurringAlarm(baseTime, interval, now = Date.now())], for
    arguments that are finite doubles holding whole numbers. *)
Definition calculateNextRecurringAlarm (fuel : nat) (baseTime interval : Z) (now : option Z)
  : M (option Double.t) :=
  let* now := match now with
              | Some t => ret t
              | None => Date_now
              end in
  ret (next_recurring_loop fuel (Double.Finite baseTime) interval now).

(** The number of periods that [calculateNextRecurringAlarm] adds when
    every sum is exact. *)
Definition periods_until (baseTime interval now : Z) : nat :=
  Z.to_nat ((now - baseTime + interval - 1) / interval).

(** ** Vocabulary of the scheduler properties *)

(** [`${source.sessionId}.${id}`]. *)
Definition event_key (source : AlarmScheduler.ActorRef) (id : string) : string :=
  AlarmScheduler.sessionId source +:+ "." +:+ id.

(** [`xstate-${scheduledEventId}`]. *)
Definition alarm_id_of (scheduledEventId : string) : string :=
  "xstate-" +:+ scheduledEventId.

(** The index entry that the scheduler's [schedule] writes. *)
Definition scheduled_entry (source target : AlarmScheduler.ActorRef) (event : JsonValue)
    (delay : Z) (id : string) (startedAt : Z) : ScheduledEventSnapshot.t :=
  {| ScheduledEventSnapshot.sourceSessionId := AlarmScheduler.sessionId source;
     ScheduledEventSnapshot.targetSessionId := AlarmScheduler.sessionId target;
     ScheduledEventSnapshot.event := event;
     ScheduledEventSnapshot.delay := delay;
     ScheduledEventSnapshot.id := id;
     ScheduledEventSnapshot.startedAt := startedAt |}.

(** The options that the scheduler's [schedule] passes to the manager when
    the clock reads [now]. *)
Definition scheduled_options (source target : AlarmScheduler.ActorRef) (event : JsonValue)
    (delay : Z) (id : string) (now : Z) : ScheduleAlarmOptions.t :=
  {| ScheduleAlarmOptions.id := alarm_id_of (event_key source id);
     ScheduleAlarmOptions.type := "xstate-delay";
     ScheduleAlarmOptions.scheduledAt := now + delay;
     ScheduleAlarmOptions.repeatInterval := None;
     ScheduleAlarmOptions.payload :=
       AlarmScheduler.payload_object
         {| XStateAlarmData.type := "xstate-delay";
            XStateAlarmData.sourceSessionId := AlarmScheduler.sessionId source;
            XStateAlarmData.targetSessionId := AlarmScheduler.sessionId target;
            XStateAlarmData.event := event;
            XStateAlarmData.scheduledEventId := event_key source id;
            XStateAlarmData.alarmId := alarm_id_of (event_key source id) |} |}.

(** An index entry belongs to the session of [actorRef]. *)
Definition of_session (actorRef : AlarmScheduler.ActorRef)
    (entry : string * ScheduledEventSnapshot.t) : Prop :=
  ScheduledEventSnapshot.sourceSessionId (snd entry) = AlarmScheduler.sessionId actorRef.

#[global] Instance of_session_dec actorRef entry : Decision (of_session actorRef entry).
Proof. unfold of_session. apply _. Defined.

(** The keys that [cancelAll] collects. *)
Definition session_keys (actorRef : AlarmScheduler.ActorRef) (m : MapObject) : list string :=
  fst <$> filter (of_session actorRef) (map_to_list m).

Definition is_delivery (e : Effect) : bool :=
  match e with
  | Relay _ | Send _ => true
  | _ => false
  end.

(** ** The actor metadata and snapshot tables of [ActorKitStorage] *)

(** [ActorMetaRecord], [ActorMeta], [SnapshotRecord], [Snapshot]; a
    [Caller], an [input] and a [snapshot] are JSON values. *)
Module ActorMetaRecord.
Record t := {
  actor_id : string;
  actor_type : string;
  initial_caller : string;
  input : string;
  created_at : Z;
  updated_at : Z;
}.
End ActorMetaRecord.

Module ActorMeta.
Record t := {
  actorId : string;
  actorType : string;
  initialCaller : JsonValue;
  input : JsonValue;
}.
End ActorMeta.

Module SnapshotRecord.
Record t := {
  actor_id : string;
  snapshot : string;
  checksum : option string;
  updated_at : Z;
}.
End SnapshotRecord.

Module Snapshot.
Record t := {
  actorId : string;
  snapshot : JsonValue;
  checksum : option string;
}.
End Snapshot.

(** The methods of [ActorKitStorage] on the [actor_meta] and [snapshots]
    tables. A table is passed in, in rowid order, and a mutating method
    returns the table that it leaves; the statements on these tables are not
    recorded in the trace. *)
Module ActorKitStorageTables.
Import Sql ActorKitStorage.

(** [this.sql.exec] on a SELECT: the driver hands out the result rows in
    its shape. *)
Definition hand_out (cols : list string) (rs : list (list JsValue)) : M ExecResult :=
  gets (fun w => encode (driver w) cols rs).

(** *** [snapshots] *)

Definition snapshot_columns : list string :=
  ["actor_id"; "snapshot"; "checksum"; "updated_at"].

Definition row_of_snapshot (r : SnapshotRecord.t) : list JsValue :=
  [ JsString (SnapshotRecord.actor_id r);
    JsString (SnapshotRecord.snapshot r);
    nullable JsString (SnapshotRecord.checksum r);
    JsNumber (SnapshotRecord.updated_at r) ].

(** [as SnapshotRecord[]], read as [as_AlarmRecord] is. *)
Definition as_SnapshotRecord (obj : JsObject) : Outcome SnapshotRecord.t :=
  match obj !! "actor_id", obj !! "snapshot", obj !! "updated_at" with
  | Some (JsString i), Some (JsString text), Some (JsNumber updated) =>
      match obj !! "checksum" with
      | Some (JsString c) => Returned (SnapshotRecord.Build_t i text (Some c) updated)
      | Some JsNull => Returned (SnapshotRecord.Build_t i text None updated)
      | _ => Threw (TypeError "not a SnapshotRecord")
      end
  | _, _, _ => Threw (TypeError "not a SnapshotRecord")
  end.

(** [INSERT INTO snapshots ... ON CONFLICT(actor_id) DO UPDATE SET snapshot,
    checksum, updated_at]. *)
Definition upsert_snapshot (row : SnapshotRecord.t) (table : list SnapshotRecord.t)
  : list SnapshotRecord.t :=
  if existsb (fun r => bool_decide (SnapshotRecord.actor_id r = SnapshotRecord.actor_id row))
       table
  then (fun r =>
          if bool_decide (SnapshotRecord.actor_id r = SnapshotRecord.actor_id row) then
            {| SnapshotRecord.actor_id := SnapshotRecord.actor_id r;
               SnapshotRecord.snapshot := SnapshotRecord.snapshot row;
               SnapshotRecord.checksum := SnapshotRecord.checksum row;
               SnapshotRecord.updated_at := SnapshotRecord.updated_at row |}
          else r) <$> table
  else table ++ [row].

Section WithJson.
Context `{JsonLib}.

(** [getSnapshot]. *)
Definition getSnapshot (actorId : string) (snapshots : list SnapshotRecord.t)
  : M (option Snapshot.t) :=
  let* _ := ensureInitialized in
  let* result :=
    hand_out snapshot_columns
      (row_of_snapshot
         <$> filter (fun r => SnapshotRecord.actor_id r = actorId) snapshots) in
  let* objects := lift (parseRows result) in
  let* rows := lift (map_outcome as_SnapshotRecord objects) in
  match rows with
  | [] => ret None
  | row :: _ =>
      match JSON_parse (SnapshotRecord.snapshot row) with
      | Some snapshot =>
          ret (Some {| Snapshot.actorId := SnapshotRecord.actor_id row;
                       Snapshot.snapshot := snapshot;
                       Snapshot.checksum := SnapshotRecord.checksum row |})
      | None => throw (SyntaxError (SnapshotRecord.snapshot row))
      end
  end.

(** [setSnapshot]. *)
Definition setSnapshot (actorId : string) (snapshot : JsonValue) (checksum : option string)
    (snapshots : list SnapshotRecord.t) : M (list SnapshotRecord.t) :=
  let* _ := ensureInitialized in
  let* now := Date_now in
  ret (upsert_snapshot
         {| SnapshotRecord.actor_id := actorId;
            SnapshotRecord.snapshot := JSON_stringify snapshot;
            SnapshotRecord.checksum := checksum;
            SnapshotRecord.updated_at := now |}
         snapshots).

End WithJson.

(** [deleteSnapshot]. *)
Definition deleteSnapshot (actorId : string) (snapshots : list SnapshotRecord.t)
  : M (list SnapshotRecord.t) :=
  let* _ := ensureInitialized in
  ret (filter (fun r => SnapshotRecord.actor_id r ≠ actorId) snapshots).

(** *** [actor_meta] *)

Definition actor_meta_columns : list string :=
  ["actor_id"; "actor_type"; "initial_caller"; "input"; "created_at"; "updated_at"].

Definition row_of_actor_meta (r : ActorMetaRecord.t) : list JsValue :=
  [ JsString (ActorMetaRecord.actor_id r);
    JsString (ActorMetaRecord.actor_type r);
    JsString (ActorMetaRecord.initial_caller r);
    JsString (ActorMetaRecord.input r);
    JsNumber (ActorMetaRecord.created_at r);
    JsNumber (ActorMetaRecord.updated_at r) ].

(** [as ActorMetaRecord[]]. *)
Definition as_ActorMetaRecord (obj : JsObject) : Outcome ActorMetaRecord.t :=
  match obj !! "actor_id", obj !! "actor_type", obj !! "initial_caller", obj !! "input" with
  | Some (JsString i), Some (JsString ty), Some (JsString caller), Some (JsString input) =>
      match obj !! "created_at", obj !! "updated_at" with
      | Some (JsNumber created), Some (JsNumber updated) =>
          Returned (ActorMetaRecord.Build_t i ty caller input created updated)
      | _, _ => Threw (TypeError "not an ActorMetaRecord")
      end
  | _, _, _, _ => Threw (TypeError "not an ActorMetaRecord")
  end.

(** [INSERT INTO actor_meta ... ON CONFLICT(actor_id) DO UPDATE SET
    actor_type, initial_caller, input, updated_at]. *)
Definition upsert_actor_meta (row : ActorMetaRecord.t) (table : list ActorMetaRecord.t)
  : list ActorMetaRecord.t :=
  if existsb (fun r => bool_decide (ActorMetaRecord.actor_id r = ActorMetaRecord.actor_id row))
       table
  then (fun r =>
          if bool_decide (ActorMetaRecord.actor_id r = ActorMetaRecord.actor_id row) then
            {| ActorMetaRecord.actor_id := ActorMetaRecord.actor_id r;
               ActorMetaRecord.actor_type := ActorMetaRecord.actor_type row;
               ActorMetaRecord.initial_caller := ActorMetaRecord.initial_caller row;
               ActorMetaRecord.input := ActorMetaRecord.input row;
               ActorMetaRecord.created_at := ActorMetaRecord.created_at r;
               ActorMetaRecord.updated_at := ActorMetaRecord.updated_at row |}
          else r) <$> table
  else table ++ [row].

Section WithJson.
Context `{JsonLib}.

(** The object that [getActorMeta] builds from [rows[0]]; [JSON.parse] of
    [initial_caller] comes first. *)
Definition meta_of_row (row : ActorMetaRecord.t) : Outcome ActorMeta.t :=
  match JSON_parse (ActorMetaRecord.initial_caller row) with
  | None => Threw (SyntaxError (ActorMetaRecord.initial_caller row))
  | Some initialCaller =>
      match JSON_parse (ActorMetaRecord.input row) with
      | None => Threw (SyntaxError (ActorMetaRecord.input row))
      | Some input =>
          Returned {| ActorMeta.actorId := ActorMetaRecord.actor_id row;
                      ActorMeta.actorType := ActorMetaRecord.actor_type row;
                      ActorMeta.initialCaller := initialCaller;
                      ActorMeta.input := input |}
      end
  end.

(** [getActorMeta]; [actorId] is optional, and [!actorId] also holds for
    the empty string. *)
Definition getActorMeta (actorId : option string) (actor_meta : list ActorMetaRecord.t)
  : M (option ActorMeta.t) :=
  let* _ := ensureInitialized in
  let* result :=
    if negb (AlarmManager.truthy_string actorId) then
      hand_out actor_meta_columns (row_of_actor_meta <$> take 1 actor_meta)
    else
      hand_out actor_meta_columns
        (row_of_actor_meta
           <$> filter (fun r => ActorMetaRecord.actor_id r = default "" actorId) actor_meta) in
  let* objects := lift (parseRows result) in
  let* rows := lift (map_outcome as_ActorMetaRecord objects) in
  match rows with
  | [] => ret None
  | row :: _ =>
      let* meta := lift (meta_of_row row) in
      ret (Some meta)
  end.

(** [setActorMeta]. *)
Definition setActorMeta (meta : ActorMeta.t) (actor_meta : list ActorMetaRecord.t)
  : M (list ActorMetaRecord.t) :=
  let* _ := ensureInitialized in
  let* now := Date_now in
  ret (upsert_actor_meta
         {| ActorMetaRecord.actor_id := ActorMeta.actorId meta;
            ActorMetaRecord.actor_type := ActorMeta.actorType meta;
            ActorMetaRecord.initial_caller := JSON_stringify (ActorMeta.initialCaller meta);
            ActorMetaRecord.input := JSON_stringify (ActorMeta.input meta);
            ActorMetaRecord.created_at := now;
            ActorMetaRecord.updated_at := now |}
         actor_meta).

End WithJson.

(** [deleteActorMeta]. *)
Definition deleteActorMeta (actorId : string) (actor_meta : list ActorMetaRecord.t)
  : M (list ActorMetaRecord.t) :=
  let* _ := ensureInitialized in
  ret (filter (fun r => ActorMetaRecord.actor_id r ≠ actorId) actor_meta).

End ActorKitStorageTables.

(** The actor ids stored in the two tables; the primary keys keep them
    distinct. *)
Definition snapshot_ids (table : list SnapshotRecord.t) : list string :=
  SnapshotRecord.actor_id <$> table.

Definition actor_ids (table : list ActorMetaRecord.t) : list string :=
  ActorMetaRecord.actor_id <$> table.

(** [JSON.parse(JSON.stringify(v))] gives [v] back. *)
Definition survives_json `{JsonLib} (v : JsonValue) : Prop :=
  JSON_parse (JSON_stringify v) = Some v.


(** * Properties *)

(** ** The persistence layer *)

Section StorageFacts.
Import Sql ActorKitStorage.

Lemma world_eta w : set_alarms (alarms w) w = w.
Proof. by destruct w. Qed.

Lemma booted_initialized w : initialized w = true -> booted w = w.
Proof. destruct w; simpl; intros ->; reflexivity. Qed.

Lemma ensureInitialized_run w :
  ensureInitialized w = MkRun (Returned tt) (booted w) (boot_effects w).
Proof.
  unfold ensureInitialized, bind, gets, boot_effects; simpl.
  destruct (initialized w) eqn:Hi; simpl.
  - by rewrite booted_initialized.
  - unfold try_catch, bind, exec; simpl. by rewrite world_eta.
Qed.

(** Decoding a single batch, whatever its shape. *)
Lemma parseRows_encode shape cols rs :
  cols ≠ [] ->
  parseRows (encode shape cols rs) = Returned (object_of_row cols <$> rs).
Proof.
  intros Hc. destruct shape; simpl.
  - destruct cols as [|c cols]; [done|]. simpl. by destruct rs.
  - destruct cols as [|c cols]; [done|]. simpl. by destruct rs.
  - done.
Qed.

Lemma as_AlarmRecord_row r :
  as_AlarmRecord (object_of_row alarm_columns (row_of_record r)) = Returned r.
Proof.
  destruct r as [i ty sched rep pay created].
  unfold as_AlarmRecord, object_of_row, alarm_columns, row_of_record; simpl.
  destruct rep, pay; reflexivity.
Qed.

End StorageFacts.

Section StorageRuns.
Import Sql ActorKitStorage.

Lemma map_as_AlarmRecord rs :
  map_outcome as_AlarmRecord (object_of_row alarm_columns <$> (row_of_record <$> rs))
  = Returned rs.
Proof.
  induction rs as [|r rs IH]; [done|].
  rewrite !fmap_cons. cbn [map_outcome]. by rewrite as_AlarmRecord_row, IH.
Qed.

(** A query that fails no constraint and leaves the table alone returns
    the rows of the engine, through every driver shape. *)
Lemma select_run q w rs :
  Sql.run q (alarms w) = (Returned rs, alarms w) ->
  select q w = MkRun (Returned rs) (booted w) (boot_effects w ++ [SqlExec q]).
Proof.
  intros Hq. unfold select, bind. rewrite ensureInitialized_run. simpl.
  unfold exec. simpl. rewrite Hq. simpl.
  rewrite parseRows_encode by done. simpl.
  rewrite map_as_AlarmRecord. simpl.
  by rewrite ?app_nil_r.
Qed.

Lemma getDueAlarms_run before w :
  getDueAlarms before w
  = MkRun (Returned (due_rows before (alarms w))) (booted w)
      (boot_effects w ++ [SqlExec (SelectDueAlarms before)]).
Proof. by apply select_run. Qed.

Lemma getAlarms_run w :
  getAlarms w
  = MkRun (Returned (order_by_scheduled_at (alarms w))) (booted w)
      (boot_effects w ++ [SqlExec SelectAlarms]).
Proof. by apply select_run. Qed.

Lemma getEarliestAlarm_run w :
  getEarliestAlarm w
  = MkRun (Returned (head (order_by_scheduled_at (alarms w)))) (booted w)
      (boot_effects w ++ [SqlExec SelectEarliestAlarm]).
Proof.
  unfold getEarliestAlarm, bind.
  rewrite (select_run SelectEarliestAlarm w (take 1 (order_by_scheduled_at (alarms w)))) by done.
  simpl. rewrite app_nil_r. f_equal.
  by destruct (order_by_scheduled_at (alarms w)).
Qed.

Lemma deleteAlarm_run i w :
  deleteAlarm i w
  = MkRun (Returned tt)
      (set_alarms (filter (fun r => AlarmRecord.id r ≠ i) (alarms w)) (booted w))
      (boot_effects w ++ [SqlExec (DeleteAlarm i)]).
Proof.
  unfold deleteAlarm, bind. rewrite ensureInitialized_run. simpl.
  by rewrite ?app_nil_r.
Qed.

Lemma updateAlarm_run `{JsonLib} options w :
  let q := UpdateAlarm (ScheduleAlarmOptions.scheduledAt options)
             (ScheduleAlarmOptions.repeatInterval options)
             (JSON_stringify (ScheduleAlarmOptions.payload options))
             (ScheduleAlarmOptions.id options) in
  updateAlarm options w
  = MkRun (Returned tt)
      (set_alarms
         (update_row (ScheduleAlarmOptions.scheduledAt options)
            (ScheduleAlarmOptions.repeatInterval options)
            (JSON_stringify (ScheduleAlarmOptions.payload options))
            (ScheduleAlarmOptions.id options) <$> alarms w)
         (booted w))
      (boot_effects w ++ [SqlExec q]).
Proof.
  unfold updateAlarm, bind. rewrite ensureInitialized_run. simpl.
  by rewrite ?app_nil_r.
Qed.

Lemma insertAlarm_duplicate `{JsonLib} options w :
  ScheduleAlarmOptions.id options ∈ ids (alarms w) ->
  insertAlarm options w
  = MkRun (Threw (SqliteConstraint "UNIQUE constraint failed: alarms.id"))
      (set_ticks (S (ticks w)) (booted w))
      (boot_effects w ++ [SqlExec (insert_stmt options w)]).
Proof.
  intros Hin. unfold insertAlarm, bind. rewrite ensureInitialized_run. simpl.
  unfold exec. simpl.
  assert (existsb (has_id (ScheduleAlarmOptions.id options)) (alarms w) = true) as ->.
  { apply existsb_exists. unfold ids in Hin.
    apply list_elem_of_fmap in Hin as (r & Hr & Hrin).
    exists r. split; [by apply list_elem_of_In|].
    unfold has_id. by apply bool_decide_eq_true. }
  reflexivity.
Qed.

End StorageRuns.

(** ** The alarm manager *)

Section ManagerFacts.
Import AlarmManager.

Lemma rescheduleNextAlarm_run w :
  rescheduleNextAlarm w
  = match earliest_row (alarms w) with
    | None =>
        MkRun (Returned tt) (set_current None None (booted w))
          (boot_effects w ++ [SqlExec SelectEarliestAlarm])
    | Some earliest =>
        let t := AlarmRecord.scheduled_at earliest in
        if decide (armed_for w earliest) then
          MkRun (Returned tt) (booted w) (boot_effects w ++ [SqlExec SelectEarliestAlarm])
        else
          MkRun (Returned tt)
            (set_do_alarm (Some t) (set_current (Some (AlarmRecord.id earliest)) (Some t) (booted w)))
            (boot_effects w ++ [SqlExec SelectEarliestAlarm; SetAlarm t])
    end.
Proof.
  unfold rescheduleNextAlarm, bind. rewrite getEarliestAlarm_run.
  unfold earliest_row. simpl.
  destruct (head (Sql.order_by_scheduled_at (alarms w))) as [e|]; simpl.
  - destruct (decide (armed_for w e)) as [[Hi Ht]|Hn]; simpl.
    + rewrite !bool_decide_eq_false_2 by (intros Hne; by apply Hne). simpl.
      by rewrite ?app_nil_r.
    + assert (bool_decide (currentAlarmId w ≠ Some (AlarmRecord.id e))
              || bool_decide (currentAlarmTime w ≠ Some (AlarmRecord.scheduled_at e)) = true) as ->.
      { apply orb_true_iff.
        destruct (decide (currentAlarmId w = Some (AlarmRecord.id e))) as [Hi|Hi].
        - right. apply bool_decide_eq_true. intros Ht. apply Hn. by split.
        - left. by apply bool_decide_eq_true. }
      simpl. rewrite <- !app_assoc. reflexivity.
  - by rewrite ?app_nil_r.
Qed.

Lemma filter_set_alarm_boot w : filter is_set_alarm (boot_effects w) = [].
Proof. unfold boot_effects. by destruct (initialized w). Qed.

Lemma rescheduleNextAlarm_alarms w : alarms (world (rescheduleNextAlarm w)) = alarms w.
Proof.
  rewrite rescheduleNextAlarm_run.
  destruct (earliest_row (alarms w)); [|done]. simpl. by case_decide.
Qed.

Lemma rescheduleNextAlarm_armed w earliest :
  earliest_row (alarms w) = Some earliest ->
  armed_for (world (rescheduleNextAlarm w)) earliest.
Proof.
  intros He. rewrite rescheduleNextAlarm_run, He. simpl.
  case_decide as Ha; simpl; [|done].
  destruct Ha. by split.
Qed.

Lemma filter_none {A} (P : A -> Prop) `{forall x, Decision (P x)} (l : list A) :
  (forall x, x ∈ l -> ~ P x) -> filter P l = [].
Proof.
  induction l as [|x l IH]; intros Hl; [done|].
  rewrite filter_cons_False by (apply Hl; left).
  apply IH. intros y Hy. apply Hl. by right.
Qed.

Lemma elem_of_ids r table : r ∈ table -> AlarmRecord.id r ∈ ids table.
Proof. apply list_elem_of_fmap_2. Qed.

Lemma unique_by_key {A} (key : A -> string) (l : list A) (x : A) :
  NoDup (key <$> l) -> x ∈ l -> filter (fun y => key y = key x) l = [x].
Proof.
  induction l as [|y l IH]; intros Hnd Hin; [by apply elem_of_nil in Hin|].
  rewrite fmap_cons in Hnd. apply list.NoDup_cons in Hnd as [Hy Hnd].
  apply elem_of_cons in Hin as [->|Hin].
  - rewrite filter_cons_True by done. f_equal.
    apply filter_none. intros z Hz Heq.
    apply Hy. rewrite <- Heq. by apply list_elem_of_fmap_2.
  - rewrite filter_cons_False; [by apply IH|].
    intros Heq. apply Hy. rewrite Heq. by apply list_elem_of_fmap_2.
Qed.

Lemma unique_row table r :
  NoDup (ids table) -> r ∈ table ->
  filter (fun x => AlarmRecord.id x = AlarmRecord.id r) table = [r].
Proof. apply unique_by_key. Qed.

Lemma filter_fmap {A B} (f : A -> B) (P : B -> Prop) `{forall y, Decision (P y)} (l : list A) :
  filter P (f <$> l) = f <$> filter (fun x => P (f x)) l.
Proof.
  induction l as [|x l IH]; [done|].
  rewrite fmap_cons, !filter_cons, IH. by case_decide.
Qed.

End ManagerFacts.

(** C4. [rescheduleNextAlarm] calls [setAlarm] exactly when there is an
    earliest stored alarm and its (id, scheduled_at) differs from the
    volatile (currentAlarmId, currentAlarmTime). A second call right after
    the first calls [setAlarm] never, so the two calls together call it at
    most once. On an empty table the call clears both volatile fields, calls
    [setAlarm] not at all and leaves the alarm slot as it is. *)
Theorem rearm_only_on_change (w : World) :
  let first := AlarmManager.rescheduleNextAlarm w in
  let second := AlarmManager.rescheduleNextAlarm (world first) in
  let both := bind AlarmManager.rescheduleNextAlarm
                (fun _ => AlarmManager.rescheduleNextAlarm) w in
  let cleared := AlarmManager.rescheduleNextAlarm (set_alarms [] w) in
  filter is_set_alarm (effects first)
  = match earliest_row (alarms w) with
    | Some earliest =>
        if decide (armed_for w earliest) then []
        else [SetAlarm (AlarmRecord.scheduled_at earliest)]
    | None => []
    end
  /\ filter is_set_alarm (effects second) = []
  /\ effects both = effects first ++ effects second
  /\ (length (filter is_set_alarm (effects both)) <= 1)%nat
  /\ currentAlarmId (world cleared) = None
  /\ currentAlarmTime (world cleared) = None
  /\ filter is_set_alarm (effects cleared) = []
  /\ do_alarm (world cleared) = do_alarm w.
Proof.
  intros first second both cleared.
  assert (Hfirst : filter is_set_alarm (effects first)
                   = match earliest_row (alarms w) with
                     | Some earliest =>
                         if decide (armed_for w earliest) then []
                         else [SetAlarm (AlarmRecord.scheduled_at earliest)]
                     | None => []
                     end).
  { subst first. rewrite rescheduleNextAlarm_run.
    destruct (earliest_row (alarms w)) as [e|]; simpl.
    - case_decide; simpl; by rewrite list.filter_app, filter_set_alarm_boot.
    - by rewrite list.filter_app, filter_set_alarm_boot. }
  assert (Hsecond : filter is_set_alarm (effects second) = []).
  { subst second first. rewrite rescheduleNextAlarm_run.
    rewrite (rescheduleNextAlarm_alarms w).
    destruct (earliest_row (alarms w)) as [e|] eqn:He; simpl.
    - rewrite decide_True by (by apply rescheduleNextAlarm_armed).
      simpl. by rewrite list.filter_app, filter_set_alarm_boot.
    - by rewrite list.filter_app, filter_set_alarm_boot. }
  assert (Hboth : effects both = effects first ++ effects second).
  { subst both second first. unfold bind.
    rewrite (rescheduleNextAlarm_run w).
    destruct (earliest_row (alarms w)); simpl; [case_decide|]; reflexivity. }
  split_and!; try done.
  - rewrite Hboth, list.filter_app, Hsecond, app_nil_r, Hfirst.
    destruct (earliest_row (alarms w)); [case_decide|]; simpl; lia.
  - subst cleared. by rewrite rescheduleNextAlarm_run.
  - subst cleared. by rewrite rescheduleNextAlarm_run.
  - subst cleared. rewrite rescheduleNextAlarm_run. simpl.
    by rewrite list.filter_app, filter_set_alarm_boot.
  - subst cleared. by rewrite rescheduleNextAlarm_run.
Qed.

(** C5. [schedule] with the id of a stored row throws the constraint error
    of the INSERT: the table is left as it was, so it still holds exactly
    the original row under that id; the call issues no statement after the
    INSERT and does not call [setAlarm], and the volatile fields and the
    alarm slot are unchanged. *)
Theorem schedule_duplicate_id_throws `{JsonLib}
    (options : ScheduleAlarmOptions.t) (w : World) (original : AlarmRecord.t) :
  NoDup (ids (alarms w)) ->
  original ∈ alarms w ->
  AlarmRecord.id original = ScheduleAlarmOptions.id options ->
  let run := AlarmManager.schedule options w in
  outcome run = Threw (SqliteConstraint "UNIQUE constraint failed: alarms.id")
  /\ alarms (world run) = alarms w
  /\ filter (fun r => AlarmRecord.id r = ScheduleAlarmOptions.id options) (alarms (world run))
     = [original]
  /\ effects run = boot_effects w ++ [SqlExec (insert_stmt options w)]
  /\ currentAlarmId (world run) = currentAlarmId w
  /\ currentAlarmTime (world run) = currentAlarmTime w
  /\ do_alarm (world run) = do_alarm w.
Proof.
  intros Hnd Hin Hid run. subst run.
  unfold AlarmManager.schedule, bind.
  rewrite insertAlarm_duplicate by (rewrite <- Hid; by apply elem_of_ids).
  simpl. split_and!; try done.
  rewrite <- Hid. by apply unique_row.
Qed.

(** C5 on a table that holds the alarm ["A"]: scheduling ["A"] again throws
    and leaves the row. *)
Lemma schedule_duplicate_id_throws_witness :
  let w := cold_world 1000 [one_shot "A" 2000 (Some "{}")] in
  let options := {| ScheduleAlarmOptions.id := "A"; ScheduleAlarmOptions.type := "custom";
                    ScheduleAlarmOptions.scheduledAt := 5000;
                    ScheduleAlarmOptions.repeatInterval := Some 10;
                    ScheduleAlarmOptions.payload := JObject [("x", JNumber 1 0)] |} in
  outcome (AlarmManager.schedule (H := Json.lib) options w)
  = Threw (SqliteConstraint "UNIQUE constraint failed: alarms.id")
  /\ alarms (world (AlarmManager.schedule (H := Json.lib) options w))
     = [one_shot "A" 2000 (Some "{}")].
Proof.
  intros w options.
  destruct (schedule_duplicate_id_throws (H := Json.lib) options w
              (one_shot "A" 2000 (Some "{}"))) as (Ho & Ha & _).
  - apply NoDup_singleton.
  - apply list_elem_of_singleton. reflexivity.
  - reflexivity.
  - split; [exact Ho | exact Ha].
Defined.

(** For every row sequence over a non-empty column list that
    the driver carries in a single batch, the three result shapes are
    decoded by [parseRows] into the same sequence of column-keyed records,
    one per row, and so is a bare [{columnNames, results}] object; and
    [getAlarms] returns the rows of the table in [scheduled_at] order
    whatever the shape of the driver. *)
Theorem parseRows_single_batch_shapes_agree (cols : list string) (rs : list (list JsValue)) :
  cols ≠ [] ->
  let decoded := Returned (ActorKitStorage.object_of_row cols <$> rs) in
  ActorKitStorage.parseRows (Sql.encode ShapeBatches cols rs) = decoded
  /\ ActorKitStorage.parseRows (Sql.encode ShapeColumnNames cols rs) = decoded
  /\ ActorKitStorage.parseRows (Sql.encode ShapeCursor cols rs) = decoded
  /\ ActorKitStorage.parseRows
       (Sql.Single {| Sql.columns := None; Sql.columnNames := Some cols;
                      Sql.rows := None; Sql.results := Some rs |}) = decoded
  /\ forall w, outcome (ActorKitStorage.getAlarms w)
               = Returned (Sql.order_by_scheduled_at (alarms w)).
Proof.
  intros Hc decoded. split_and!; try by apply parseRows_encode.
  - apply (parseRows_encode ShapeColumnNames cols rs Hc).
  - intros w. by rewrite getAlarms_run.
Qed.

(** The single-batch shapes on two rows over the columns [id] and
    [scheduled_at]. *)
Lemma parseRows_single_batch_shapes_agree_witness :
  let rs := [[JsString "c1"; JsNumber 10]; [JsString "c2"; JsNull]] in
  ActorKitStorage.parseRows (Sql.encode ShapeBatches ["id"; "scheduled_at"] rs)
  = ActorKitStorage.parseRows (Sql.encode ShapeCursor ["id"; "scheduled_at"] rs)
  /\ ActorKitStorage.parseRows (Sql.encode ShapeColumnNames ["id"; "scheduled_at"] rs)
     = ActorKitStorage.parseRows (Sql.encode ShapeCursor ["id"; "scheduled_at"] rs).
Proof.
  intros rs.
  destruct (parseRows_single_batch_shapes_agree ["id"; "scheduled_at"] rs)
    as (Ha & Hb & Hc & _ & _); [discriminate|].
  split; [exact (eq_trans Ha (eq_sym Hc)) | exact (eq_trans Hb (eq_sym Hc))].
Defined.

(** On a row sequence without columns the array shape is decoded to no
    record at all, the cursor to one empty record per row. *)
Lemma parseRows_shapes_differ_without_columns :
  ActorKitStorage.parseRows (Sql.encode ShapeBatches [] [[]]) = Returned []
  /\ ActorKitStorage.parseRows (Sql.encode ShapeCursor [] [[]]) = Returned [∅]
  /\ ActorKitStorage.parseRows (Sql.encode ShapeBatches [] [[]])
     ≠ ActorKitStorage.parseRows (Sql.encode ShapeCursor [] [[]]).
Proof. split_and!; [reflexivity | reflexivity | discriminate]. Qed.

(** Only the first batch of an array is decoded, every batch of a cursor. *)
Lemma parseRows_array_reads_first_batch (first : Sql.Batch) (others : list Sql.Batch) :
  ActorKitStorage.parseRows (Sql.Batches (first :: others))
  = ActorKitStorage.parseRows (Sql.Batches [first]).
Proof. reflexivity. Qed.

(** C6. The claim fails on a row sequence that the driver carries in more
    than one batch: of the rows ["a"] and ["b"], carried in two batches,
    [parseRows] decodes only ["a"] from either array shape, where it reads
    [batches[0]] alone, and both rows from the cursor, where it reads every
    batch; the three shapes of the same row sequence are not decoded to the
    same records. *)
Theorem parseRows_array_drops_later_batches :
  ActorKitStorage.parseRows two_batch_array
  = Returned [ActorKitStorage.object_of_row ["id"] [JsString "a"]]
  /\ ActorKitStorage.parseRows two_batch_named_array
     = Returned [ActorKitStorage.object_of_row ["id"] [JsString "a"]]
  /\ ActorKitStorage.parseRows two_batch_cursor
     = Returned [ActorKitStorage.object_of_row ["id"] [JsString "a"];
                 ActorKitStorage.object_of_row ["id"] [JsString "b"]]
  /\ ActorKitStorage.parseRows two_batch_array
     ≠ ActorKitStorage.parseRows two_batch_cursor
  /\ ActorKitStorage.parseRows two_batch_named_array
     ≠ ActorKitStorage.parseRows two_batch_cursor.
Proof.
  assert (ActorKitStorage.parseRows two_batch_array
          = Returned [ActorKitStorage.object_of_row ["id"] [JsString "a"]]) as Harray
    by reflexivity.
  assert (ActorKitStorage.parseRows two_batch_named_array
          = Returned [ActorKitStorage.object_of_row ["id"] [JsString "a"]]) as Hnamed
    by reflexivity.
  assert (ActorKitStorage.parseRows two_batch_cursor
          = Returned [ActorKitStorage.object_of_row ["id"] [JsString "a"];
                      ActorKitStorage.object_of_row ["id"] [JsString "b"]]) as Hcursor
    by reflexivity.
  split_and!; [exact Harray|exact Hnamed|exact Hcursor|..].
  - rewrite Harray, Hcursor. intros Heq. by injection Heq.
  - rewrite Hnamed, Hcursor. intros Heq. by injection Heq.
Qed.

(** ** The drain *)

Section DrainFacts.
Context `{JsonLib}.
Import AlarmManager.

Lemma handle_alarm_run handler now alarm w :
  handle_alarm handler now alarm w
  = MkRun (Returned (result_of alarm))
      (after_alarm handler now w alarm)
      (boot_effects w ++ steps_of now alarm
         ++ handler_log alarm (fst (handler alarm (after_mutation now alarm w)))).
Proof.
  unfold handle_alarm, after_alarm, after_mutation, steps_of, mutation, result_of, bind.
  destruct (truthy_number (Alarm.repeatInterval alarm)) eqn:Ht.
  - unfold updateAlarm. rewrite updateAlarm_run. simpl.
    unfold try_catch, bind, call_handler. simpl.
    destruct (handler alarm _) as [[b|e] w']; simpl;
      rewrite ?app_nil_r, <- ?app_assoc; reflexivity.
  - unfold deleteAlarm. rewrite deleteAlarm_run. simpl.
    unfold try_catch, bind, call_handler. simpl.
    destruct (handler alarm _) as [[b|e] w']; simpl;
      rewrite ?app_nil_r, <- ?app_assoc; reflexivity.
Qed.

Lemma handle_alarms_cons handler now alarm rest w :
  handle_alarms handler now (alarm :: rest) w
  = let first := handle_alarm handler now alarm w in
    let others := handle_alarms handler now rest (world first) in
    match outcome others with
    | Returned results =>
        MkRun (Returned (result_of alarm :: results)) (world others)
          (effects first ++ effects others)
    | Threw e => MkRun (Threw e) (world others) (effects first ++ effects others)
    end.
Proof.
  cbn [handle_alarms]. unfold bind at 1. rewrite handle_alarm_run. simpl.
  unfold bind.
  destruct (handle_alarms handler now rest _) as [[results|e] w' es]; simpl;
    by rewrite ?app_nil_r.
Qed.

(** The loop never throws: it returns one record per alarm, in order. *)
Lemma handle_alarms_outcome handler now dueAlarms w :
  outcome (handle_alarms handler now dueAlarms w) = Returned (result_of <$> dueAlarms).
Proof.
  revert w. induction dueAlarms as [|alarm rest IH]; intros w; [done|].
  rewrite handle_alarms_cons. simpl. by rewrite IH.
Qed.

Lemma handle_alarms_world handler now dueAlarms w :
  world (handle_alarms handler now dueAlarms w)
  = foldl (after_alarm handler now) w dueAlarms.
Proof.
  revert w. induction dueAlarms as [|alarm rest IH]; intros w; [done|].
  rewrite handle_alarms_cons. simpl. rewrite handle_alarms_outcome. simpl.
  rewrite IH. by rewrite handle_alarm_run.
Qed.

Lemma handle_alarms_effects_cons handler now alarm rest w :
  effects (handle_alarms handler now (alarm :: rest) w)
  = effects (handle_alarm handler now alarm w)
    ++ effects (handle_alarms handler now rest (after_alarm handler now w alarm)).
Proof.
  rewrite handle_alarms_cons. simpl. rewrite handle_alarms_outcome. simpl.
  by rewrite handle_alarm_run.
Qed.

End DrainFacts.

Section OutcomeFacts.
Context {A B : Type} (f : A -> Outcome B).

Lemma map_outcome_Returned xs ys :
  map_outcome f xs = Returned ys <-> Forall2 (fun x y => f x = Returned y) xs ys.
Proof.
  revert ys. induction xs as [|x xs IH]; intros ys; simpl.
  - split; [intros [= <-]; constructor | by inversion 1].
  - destruct (f x) as [y|e] eqn:Hx.
    + destruct (map_outcome f xs) as [zs|e] eqn:Hxs.
      * split.
        -- intros [= <-]. constructor; [done|]. by apply IH.
        -- inversion 1 as [|? y' ? zs' Hy Hzs]; subst.
           apply IH in Hzs. congruence.
      * split; [done|]. inversion 1 as [|? y' ? zs' Hy Hzs]; subst.
        apply IH in Hzs. congruence.
    + split; [done|]. inversion 1; congruence.
Qed.

Lemma map_outcome_total xs :
  (forall x, x ∈ xs -> is_Returned (f x)) -> exists ys, map_outcome f xs = Returned ys.
Proof.
  induction xs as [|x xs IH]; intros Hall; [by eexists|]. simpl.
  pose proof (Hall x (list_elem_of_here _ _)) as Hx.
  destruct (f x) as [y|e]; [|done].
  destruct IH as [ys ->]; [|by eexists].
  intros z Hz. apply Hall. by right.
Qed.

Lemma map_outcome_Threw xs x e :
  x ∈ xs -> f x = Threw e ->
  exists x' e', x' ∈ xs /\ f x' = Threw e' /\ map_outcome f xs = Threw e'.
Proof.
  induction xs as [|z xs IH]; intros Hin Hx; [by apply elem_of_nil in Hin|].
  simpl. destruct (f z) as [y|e0] eqn:Hz.
  - apply elem_of_cons in Hin as [->|Hin]; [congruence|].
    destruct (IH Hin Hx) as (x' & e' & Hin' & Hx' & ->).
    exists x', e'. split_and!; [by right|done|done].
  - exists z, e0. split_and!; [by left|done|done].
Qed.

End OutcomeFacts.

Section OrderFacts.
Import Sql.

Lemma insert_row_Permutation r rows : insert_row r rows ≡ₚ r :: rows.
Proof.
  induction rows as [|x rows IH]; [done|]. simpl.
  case_match; [done|]. rewrite IH. apply Permutation_swap.
Qed.

Lemma order_by_scheduled_at_Permutation rows : order_by_scheduled_at rows ≡ₚ rows.
Proof.
  induction rows as [|x rows IH]; [done|]. simpl.
  by rewrite insert_row_Permutation, IH.
Qed.

(** Rows with the same deadline come out in rowid order. *)
Lemma order_by_scheduled_at_ties :
  Sql.order_by_scheduled_at [one_shot "B" 7 None; one_shot "A" 7 None; one_shot "C" 3 None]
  = [one_shot "C" 3 None; one_shot "B" 7 None; one_shot "A" 7 None].
Proof. reflexivity. Qed.

Lemma elem_of_due_rows r before table :
  r ∈ due_rows before table <-> r ∈ table /\ AlarmRecord.scheduled_at r ≤ before.
Proof.
  unfold due_rows. rewrite order_by_scheduled_at_Permutation, list_elem_of_filter.
  tauto.
Qed.

Lemma NoDup_ids_filter (P : AlarmRecord.t -> Prop) `{forall x, Decision (P x)} table :
  NoDup (ids table) -> NoDup (ids (filter P table)).
Proof.
  unfold ids. induction table as [|x table IH]; [done|].
  rewrite fmap_cons, list.NoDup_cons. intros [Hx Hnd].
  rewrite filter_cons. case_decide; [|by apply IH].
  rewrite fmap_cons, list.NoDup_cons. split; [|by apply IH].
  intros Hin. apply Hx.
  apply list_elem_of_fmap in Hin as (y & -> & Hy).
  apply list_elem_of_filter in Hy as [_ Hy]. by apply list_elem_of_fmap_2.
Qed.

Lemma NoDup_ids_due_rows before table :
  NoDup (ids table) -> NoDup (ids (due_rows before table)).
Proof.
  intros Hnd. unfold due_rows, ids.
  rewrite order_by_scheduled_at_Permutation. by apply NoDup_ids_filter.
Qed.

End OrderFacts.

Section BindFacts.
Context {A B : Type} (m : M A) (k : A -> M B).

Lemma bind_Returned w a :
  outcome (m w) = Returned a ->
  bind m k w
  = MkRun (outcome (k a (world (m w)))) (world (k a (world (m w))))
      (effects (m w) ++ effects (k a (world (m w)))).
Proof. unfold bind. by intros ->. Qed.

Lemma bind_Threw w e :
  outcome (m w) = Threw e ->
  bind m k w = MkRun (Threw e) (world (m w)) (effects (m w)).
Proof. unfold bind. by intros ->. Qed.

End BindFacts.

Section DrainRuns.
Context `{JsonLib}.
Import AlarmManager.

Lemma rescheduleNextAlarm_outcome w : outcome (rescheduleNextAlarm w) = Returned tt.
Proof.
  rewrite rescheduleNextAlarm_run.
  destruct (earliest_row (alarms w)); [case_decide|]; reflexivity.
Qed.

Lemma getDueAlarms_at now w :
  getDueAlarms (Some now) w
  = MkRun (map_outcome parseAlarmRecord (due_rows now (alarms w))) (booted w)
      (boot_effects w ++ [SqlExec (SelectDueAlarms now)]).
Proof.
  unfold getDueAlarms, bind. simpl. rewrite getDueAlarms_run. simpl.
  destruct (map_outcome parseAlarmRecord _); simpl; by rewrite ?app_nil_r.
Qed.

(** A drain whose due rows all parse. *)
Lemma handleDueAlarms_run handler w dueAlarms :
  let now := clock w (ticks w) in
  map_outcome parseAlarmRecord (due_rows now (alarms w)) = Returned dueAlarms ->
  let loop := handle_alarms handler now dueAlarms (entered w) in
  let rearm := rescheduleNextAlarm (world loop) in
  handleDueAlarms handler w
  = MkRun (Returned (result_of <$> dueAlarms)) (world rearm)
      (boot_effects w ++ [SqlExec (SelectDueAlarms now)] ++ effects loop ++ effects rearm).
Proof.
  intros now Hdue loop rearm. subst loop rearm.
  unfold handleDueAlarms.
  rewrite (bind_Returned Date_now _ w now eq_refl).
  cbn [Date_now outcome world effects].
  rewrite (bind_Returned (getDueAlarms (Some now)) _ _ dueAlarms)
    by (rewrite getDueAlarms_at; exact Hdue).
  rewrite getDueAlarms_at. cbn [outcome world effects].
  fold (entered w).
  rewrite (bind_Returned _ _ _ _ (handle_alarms_outcome handler now dueAlarms (entered w))).
  rewrite (bind_Returned _ _ _ _ (rescheduleNextAlarm_outcome _)).
  cbn [ret outcome world effects app].
  by rewrite ?app_nil_r, <- ?app_assoc.
Qed.

(** A drain one of whose due rows does not parse. *)
Lemma handleDueAlarms_throws handler w e :
  let now := clock w (ticks w) in
  map_outcome parseAlarmRecord (due_rows now (alarms w)) = Threw e ->
  handleDueAlarms handler w
  = MkRun (Threw e) (entered w) (boot_effects w ++ [SqlExec (SelectDueAlarms now)]).
Proof.
  intros now Hdue.
  unfold handleDueAlarms.
  rewrite (bind_Returned Date_now _ w now eq_refl).
  cbn [Date_now outcome world effects].
  rewrite (bind_Threw (getDueAlarms (Some now)) _ _ e)
    by (rewrite getDueAlarms_at; exact Hdue).
  rewrite getDueAlarms_at. reflexivity.
Qed.

Lemma parseAlarmRecord_fields record alarm :
  parseAlarmRecord record = Returned alarm ->
  Alarm.id alarm = AlarmRecord.id record
  /\ Alarm.type alarm = AlarmRecord.type record
  /\ Alarm.scheduledAt alarm = AlarmRecord.scheduled_at record
  /\ Alarm.repeatInterval alarm = AlarmRecord.repeat_interval record
  /\ Alarm.createdAt alarm = AlarmRecord.created_at record.
Proof.
  unfold parseAlarmRecord.
  destruct (truthy_string _); [destruct (JSON_parse _)|]; by intros [= <-].
Qed.

Lemma parseAlarmRecord_Threw record e :
  parseAlarmRecord record = Threw e ->
  exists text, AlarmRecord.payload record = Some text /\ text ≠ ""
               /\ JSON_parse text = None /\ e = SyntaxError text.
Proof.
  unfold parseAlarmRecord, truthy_string.
  destruct (AlarmRecord.payload record) as [text|]; [|done]. simpl.
  case_bool_decide as Hempty; simpl; [done|].
  destruct (JSON_parse text) eqn:Hp; [done|]. intros [= <-]. by exists text.
Qed.

Lemma parseAlarmRecord_corrupt record text :
  AlarmRecord.payload record = Some text -> text ≠ "" -> JSON_parse text = None ->
  parseAlarmRecord record = Threw (SyntaxError text).
Proof.
  intros Hp Hne Hparse. unfold parseAlarmRecord, truthy_string. rewrite Hp. simpl.
  rewrite bool_decide_eq_false_2 by done. simpl. by rewrite Hparse.
Qed.

End DrainRuns.

Section DrainEffects.
Context `{JsonLib}.
Import AlarmManager.

Lemma filter_boot (keep : Effect -> bool) w :
  keep (SqlExec CreateSchema) = false -> filter keep (boot_effects w) = [].
Proof.
  intros Hk. unfold boot_effects. destruct (initialized w); [done|].
  by rewrite filter_cons_False by (by apply Is_true_false_2).
Qed.

Lemma filter_handler_log (keep : Effect -> bool) alarm out :
  (forall m e, keep (ConsoleError m e) = false) -> filter keep (handler_log alarm out) = [].
Proof.
  intros Hk. destruct out as [b|e]; [done|]. simpl.
  by rewrite filter_cons_False by (by apply Is_true_false_2).
Qed.

Lemma filter_rearm (keep : Effect -> bool) w :
  keep (SqlExec CreateSchema) = false ->
  keep (SqlExec SelectEarliestAlarm) = false ->
  (forall t, keep (SetAlarm t) = false) ->
  filter keep (effects (rescheduleNextAlarm w)) = [].
Proof.
  intros Hc He Hs. rewrite rescheduleNextAlarm_run.
  destruct (earliest_row (alarms w)); [case_decide|]; simpl;
    rewrite list.filter_app, filter_boot by done;
    rewrite ?filter_cons_False by (by apply Is_true_false_2); done.
Qed.

(** The statements and handler calls of the loop, in order. *)
Lemma handle_alarms_steps handler now dueAlarms w :
  filter is_step (effects (handle_alarms handler now dueAlarms w))
  = concat (steps_of now <$> dueAlarms).
Proof.
  revert w. induction dueAlarms as [|alarm rest IH]; intros w; [done|].
  rewrite handle_alarms_effects_cons, handle_alarm_run. cbn [effects].
  rewrite !list.filter_app, IH, filter_boot, filter_handler_log, app_nil_r by done.
  rewrite fmap_cons, concat_cons. f_equal.
  unfold steps_of, mutation. by destruct (truthy_number _).
Qed.



Lemma mutation_is_statement_for now alarm i :
  is_statement_for i (SqlExec (mutation now alarm)) = bool_decide (Alarm.id alarm = i).
Proof. unfold mutation. by destruct (truthy_number _). Qed.

(** The statements of the loop on the row under one id. *)
Lemma handle_alarms_statements_for handler now dueAlarms w i :
  filter (is_statement_for i) (effects (handle_alarms handler now dueAlarms w))
  = (fun alarm => SqlExec (mutation now alarm))
      <$> filter (fun alarm => Alarm.id alarm = i) dueAlarms.
Proof.
  revert w. induction dueAlarms as [|alarm rest IH]; intros w; [done|].
  rewrite handle_alarms_effects_cons, handle_alarm_run. cbn [effects].
  rewrite !list.filter_app, IH, filter_boot, filter_handler_log, app_nil_r by done.
  unfold steps_of.
  rewrite (filter_cons (fun alarm => Alarm.id alarm = i)).
  rewrite (filter_cons (is_statement_for i)), mutation_is_statement_for.
  rewrite filter_cons_False by (by apply Is_true_false_2). simpl.
  destruct (decide (Alarm.id alarm = i)) as [Hi|Hi].
  - rewrite decide_True by (by apply bool_decide_pack). by rewrite fmap_cons.
  - rewrite decide_False; [done|]. by intros Hb%bool_decide_unpack.
Qed.

End DrainEffects.

Section TableFacts.
Context `{JsonLib}.
Import Sql.

Lemma ids_update sched rep pay i table :
  ids (update_row sched rep pay i <$> table) = ids table.
Proof.
  unfold ids. rewrite <- list_fmap_compose. apply list_fmap_ext.
  intros _ r _. unfold update_row. simpl. by destruct (has_id i r).
Qed.

(** The statement of the drain for an alarm adds no id, and keeps the ids
    distinct. *)
Lemma mutation_ids now alarm table i :
  i ∈ ids (snd (Sql.run (mutation now alarm) table)) -> i ∈ ids table.
Proof.
  unfold mutation. destruct (AlarmManager.truthy_number _); simpl.
  - by rewrite ids_update.
  - unfold ids. intros (r & -> & Hr)%list_elem_of_fmap.
    apply list_elem_of_filter in Hr as [_ Hr]. by apply list_elem_of_fmap_2.
Qed.

Lemma mutation_NoDup now alarm table :
  NoDup (ids table) -> NoDup (ids (snd (Sql.run (mutation now alarm) table))).
Proof.
  unfold mutation. destruct (AlarmManager.truthy_number _); simpl.
  - by rewrite ids_update.
  - by apply NoDup_ids_filter.
Qed.

(** The DELETE removes the id. *)
Lemma delete_removes_id i table :
  i ∉ ids (filter (fun r => AlarmRecord.id r ≠ i) table).
Proof.
  unfold ids. intros (r & -> & Hr)%list_elem_of_fmap.
  by apply list_elem_of_filter in Hr as [Hne _].
Qed.

(** A row under another id passes through the statement unchanged. *)
Lemma mutation_keeps_other now alarm table r :
  AlarmRecord.id r ≠ Alarm.id alarm ->
  r ∈ table -> r ∈ snd (Sql.run (mutation now alarm) table).
Proof.
  intros Hne Hin. unfold mutation. destruct (AlarmManager.truthy_number _); simpl.
  - apply list_elem_of_fmap. exists r. split; [|done].
    unfold update_row, has_id. by rewrite bool_decide_eq_false_2.
  - apply list_elem_of_filter. by split.
Qed.

End TableFacts.

Section DrainTables.
Context `{JsonLib}.
Import AlarmManager.

Lemma after_alarm_absent handler now w alarm i :
  handler_inserts_nothing handler ->
  i ∉ ids (alarms w) -> i ∉ ids (alarms (after_alarm handler now w alarm)).
Proof.
  intros Hh Hi Hin. apply Hi.
  apply Hh in Hin. unfold after_mutation in Hin. simpl in Hin.
  by apply mutation_ids in Hin.
Qed.

Lemma drain_keeps_absent handler now dueAlarms w i :
  handler_inserts_nothing handler ->
  i ∉ ids (alarms w) -> i ∉ ids (alarms (foldl (after_alarm handler now) w dueAlarms)).
Proof.
  intros Hh. revert w. induction dueAlarms as [|alarm rest IH]; intros w Hi; [done|].
  simpl. apply IH. by apply after_alarm_absent.
Qed.

Lemma drain_removes_one_shot handler now dueAlarms w alarm :
  handler_inserts_nothing handler ->
  alarm ∈ dueAlarms -> truthy_number (Alarm.repeatInterval alarm) = false ->
  Alarm.id alarm ∉ ids (alarms (foldl (after_alarm handler now) w dueAlarms)).
Proof.
  intros Hh Hin Hone. revert w.
  induction dueAlarms as [|first rest IH]; intros w; [by apply elem_of_nil in Hin|].
  simpl. apply elem_of_cons in Hin as [<-|Hin]; [|by apply IH].
  apply drain_keeps_absent; [done|].
  intros Hi. apply Hh in Hi. unfold after_mutation, mutation in Hi.
  rewrite Hone in Hi. simpl in Hi. by apply delete_removes_id in Hi.
Qed.

(** With a handler that leaves the table alone, the table after the loop
    is the table after the statements of the loop. *)
Lemma drain_table handler now dueAlarms w :
  handler_keeps_alarms handler ->
  alarms (foldl (after_alarm handler now) w dueAlarms)
  = foldl (fun table alarm => snd (Sql.run (mutation now alarm) table)) (alarms w) dueAlarms.
Proof.
  intros Hh. revert w. induction dueAlarms as [|alarm rest IH]; intros w; [done|].
  simpl. rewrite IH. f_equal. unfold after_alarm. by rewrite Hh.
Qed.

Lemma statements_keep_other now dueAlarms table r :
  (forall alarm, alarm ∈ dueAlarms -> AlarmRecord.id r ≠ Alarm.id alarm) ->
  r ∈ table ->
  r ∈ foldl (fun table alarm => snd (Sql.run (mutation now alarm) table)) table dueAlarms.
Proof.
  revert table. induction dueAlarms as [|alarm rest IH]; intros table Hne Hin; [done|].
  simpl. apply IH.
  - intros a Ha. apply Hne. by right.
  - apply mutation_keeps_other; [|done]. apply Hne. by left.
Qed.

Lemma statements_NoDup now dueAlarms table :
  NoDup (ids table) ->
  NoDup (ids (foldl (fun table alarm => snd (Sql.run (mutation now alarm) table))
                table dueAlarms)).
Proof.
  revert table. induction dueAlarms as [|alarm rest IH]; intros table Hnd; [done|].
  simpl. apply IH. by apply mutation_NoDup.
Qed.

End DrainTables.

Section DueAlarms.
Context `{JsonLib}.
Import AlarmManager.

Lemma parsed_elem records dueAlarms record :
  map_outcome parseAlarmRecord records = Returned dueAlarms ->
  record ∈ records ->
  exists alarm, alarm ∈ dueAlarms /\ parseAlarmRecord record = Returned alarm.
Proof.
  intros Hall%map_outcome_Returned. induction Hall as [|r a rs als Hr Hrs IH];
    intros Hin; [by apply elem_of_nil in Hin|].
  apply elem_of_cons in Hin as [->|Hin].
  - exists a. split; [by left|done].
  - destruct (IH Hin) as (alarm & Ha & Hp). exists alarm. split; [by right|done].
Qed.

Lemma parsed_ids records dueAlarms :
  map_outcome parseAlarmRecord records = Returned dueAlarms ->
  Alarm.id <$> dueAlarms = ids records.
Proof.
  intros Hall%map_outcome_Returned. unfold ids.
  induction Hall as [|r a rs als Hr Hrs IH]; [done|].
  rewrite !fmap_cons, IH. f_equal. by apply parseAlarmRecord_fields in Hr as [-> _].
Qed.

End DueAlarms.

(** ** The drain: the claims *)


Section Rescheduling.
Context `{JsonLib}.
Import AlarmManager.

Lemma statements_update now dueAlarms table alarm r :
  NoDup (Alarm.id <$> dueAlarms) ->
  alarm ∈ dueAlarms ->
  truthy_number (Alarm.repeatInterval alarm) = true ->
  r ∈ table -> AlarmRecord.id r = Alarm.id alarm ->
  Sql.update_row (now + default 0 (Alarm.repeatInterval alarm)) (Alarm.repeatInterval alarm)
    (JSON_stringify (Alarm.payload alarm)) (Alarm.id alarm) r
  ∈ foldl (fun table alarm => snd (Sql.run (mutation now alarm) table)) table dueAlarms.
Proof.
  intros Hnd Hin Htruthy. revert table.
  induction dueAlarms as [|first rest IH]; intros table Hr Hid;
    [by apply elem_of_nil in Hin|].
  rewrite fmap_cons in Hnd. apply list.NoDup_cons in Hnd as [Hfirst Hnd].
  simpl. apply elem_of_cons in Hin as [<-|Hin].
  - apply statements_keep_other.
    + intros a Ha Heq. apply Hfirst.
      unfold Sql.update_row, Sql.has_id in Heq.
      rewrite bool_decide_eq_true_2 in Heq by done. simpl in Heq.
      rewrite <- Hid, Heq. by apply list_elem_of_fmap_2.
    + unfold mutation. rewrite Htruthy. simpl.
      by apply list_elem_of_fmap_2.
  - apply IH; [done|done| |done].
    apply mutation_keeps_other; [|done].
    intros Heq. apply Hfirst. rewrite <- Heq, Hid. by apply list_elem_of_fmap_2.
Qed.

End Rescheduling.



(** A drain over a table with a due row whose payload is not JSON throws
    after the SELECT of the due rows and leaves the table as it was. *)
Lemma handleDueAlarms_corrupt `{JsonLib}
    (handler : AlarmManager.Handler) (w : World) (record : AlarmRecord.t) (text : string) :
  record ∈ alarms w ->
  AlarmRecord.scheduled_at record ≤ clock w (ticks w) ->
  AlarmRecord.payload record = Some text ->
  text ≠ "" ->
  JSON_parse text = None ->
  exists rejected,
    JSON_parse rejected = None
    /\ AlarmManager.handleDueAlarms handler w
       = MkRun (Threw (SyntaxError rejected)) (entered w)
           (boot_effects w ++ [SqlExec (SelectDueAlarms (clock w (ticks w)))]).
Proof.
  intros Hin Hdue Hpay Hne Hbad.
  destruct (map_outcome_Threw AlarmManager.parseAlarmRecord
              (due_rows (clock w (ticks w)) (alarms w))
              record (SyntaxError text)) as (r & e & Hr & He & Hall).
  { by apply elem_of_due_rows. }
  { by apply parseAlarmRecord_corrupt. }
  apply parseAlarmRecord_Threw in He as (rejected & _ & _ & Hrej & ->).
  exists rejected. split; [done|]. by rewrite (handleDueAlarms_throws handler w _ Hall).
Qed.

(** C7 (amended). When a due row holds in [payload] a non-empty string that
    [JSON.parse] rejects, the drain throws the [SyntaxError] of a due row
    before it processes any alarm: the only statements it has issued are the
    schema bootstrap and the SELECT of the due rows, so no row is deleted
    or updated, no handler is called, nothing is logged and the alarm slot
    is not set again; the table is as it was. The next drain, with whatever
    handler, throws a [SyntaxError] again and leaves the table as it was
    when the row is due at the time that it reads. *)
Theorem drain_throws_on_corrupt_payload `{JsonLib}
    (handler : AlarmManager.Handler) (w : World) (record : AlarmRecord.t) (text : string) :
  let now := clock w (ticks w) in
  let run := AlarmManager.handleDueAlarms handler w in
  record ∈ alarms w ->
  AlarmRecord.scheduled_at record ≤ now ->
  AlarmRecord.payload record = Some text ->
  text ≠ "" ->
  JSON_parse text = None ->
  exists rejected,
    outcome run = Threw (SyntaxError rejected)
    /\ JSON_parse rejected = None
    /\ effects run = boot_effects w ++ [SqlExec (SelectDueAlarms now)]
    /\ world run = entered w
    /\ alarms (world run) = alarms w
    /\ forall next_handler : AlarmManager.Handler,
         let next := AlarmManager.handleDueAlarms next_handler (world run) in
         AlarmRecord.scheduled_at record ≤ clock w (S (ticks w)) ->
         exists rejected_next,
           outcome next = Threw (SyntaxError rejected_next)
           /\ JSON_parse rejected_next = None
           /\ effects next = [SqlExec (SelectDueAlarms (clock w (S (ticks w))))]
           /\ alarms (world next) = alarms w.
Proof.
  intros now run Hin Hdue Hpay Hne Hbad. subst run.
  destruct (handleDueAlarms_corrupt handler w record text Hin Hdue Hpay Hne Hbad)
    as (rejected & Hrej & ->).
  exists rejected. split_and!; try done.
  intros next_handler next Hstill. subst next. cbn [world].
  destruct (handleDueAlarms_corrupt next_handler (entered w) record text Hin Hstill
              Hpay Hne Hbad) as (rejected_next & Hrej_next & ->).
  by exists rejected_next.
Qed.

(** ** The scenarios *)







(** C7 (amended) on [corrupt_world]. *)
Lemma drain_throws_on_corrupt_payload_witness :
  exists rejected,
    outcome (AlarmManager.handleDueAlarms (H := Json.lib) (throws_on "none") corrupt_world)
    = Threw (SyntaxError rejected)
    /\ alarms (world (AlarmManager.handleDueAlarms (H := Json.lib)
                        (throws_on "none") corrupt_world))
       = alarms corrupt_world.
Proof.
  destruct (drain_throws_on_corrupt_payload (H := Json.lib) (throws_on "none") corrupt_world
              (one_shot "A" 900 (Some "{")) "{")
    as (rejected & Ho & _ & _ & _ & Ha & _).
  - simpl. set_solver.
  - simpl. lia.
  - reflexivity.
  - discriminate.
  - reflexivity.
  - exists rejected. split; [exact Ho | exact Ha].
Defined.

(** C7, as stated, fails on a due row whose payload is the text of an
    unclosed brace: the drain throws, logs nothing and leaves the row in
    place, where the next drain finds it again and throws again. *)
Lemma drain_keeps_corrupt_row :
  let run := AlarmManager.handleDueAlarms (H := Json.lib) (throws_on "none") corrupt_world in
  let again := AlarmManager.handleDueAlarms (H := Json.lib) (throws_on "none") (world run) in
  outcome run = Threw (SyntaxError "{")
  /\ alarms (world run) = [one_shot "A" 900 (Some "{")]
  /\ filter is_console_error (effects run) = []
  /\ filter is_mutation (effects run) = []
  /\ outcome again = Threw (SyntaxError "{")
  /\ alarms (world again) = [one_shot "A" 900 (Some "{")].
Proof. by vm_compute. Qed.

(** ** The alarm scheduler *)

Section RestoreFacts.
Import AlarmScheduler.

Lemma index_set_maps h w :
  index (set_maps h w) = default ∅ (h !! scheduledEventsMap).
Proof. reflexivity. Qed.

Lemma restore_alarm_run alarm w :
  restore_alarm alarm w
  = MkRun (Returned tt)
      (if decide (is_xstate_delay alarm) then
         let now := clock w (ticks w) in
         let w' := set_ticks (S (ticks w)) w in
         if decide (now < scheduledAt alarm) then
           set_maps (<[scheduledEventsMap :=
                         <[key_of alarm := restored_entry alarm now]> (index w)]> (maps w)) w'
         else w'
       else w)
      [].
Proof.
  unfold restore_alarm, is_xstate_delay.
  case_bool_decide as Hty; [|by rewrite decide_False].
  rewrite decide_True by done.
  unfold bind. simpl.
  destruct (decide (clock w (ticks w) < scheduledAt alarm)) as [Hlt|Hge].
  - rewrite (proj2 (Z.ltb_lt _ _)) by lia. reflexivity.
  - rewrite (proj2 (Z.ltb_ge _ _)) by lia. reflexivity.
Qed.

Lemma restore_alarm_index alarm w :
  index (world (restore_alarm alarm w))
  = if decide (restorable w [] alarm)
    then <[key_of alarm := restored_entry alarm (visit_time w [])]> (index w)
    else index w.
Proof.
  rewrite restore_alarm_run. unfold restorable, visit_time. simpl.
  rewrite Nat.add_0_r.
  destruct (decide (is_xstate_delay alarm)) as [Hty|Hty].
  - simpl. destruct (decide (clock w (ticks w) < scheduledAt alarm)) as [Hlt|Hge].
    + rewrite decide_True by done. rewrite index_set_maps. by rewrite lookup_insert_eq.
    + rewrite decide_False by tauto. reflexivity.
  - rewrite decide_False by tauto. reflexivity.
Qed.

Lemma restore_alarm_clock alarm w before :
  visit_time (world (restore_alarm alarm w)) before = visit_time w (alarm :: before).
Proof.
  rewrite restore_alarm_run. unfold visit_time. rewrite filter_cons.
  destruct (decide (is_xstate_delay alarm)) as [Hty|Hty]; [|done].
  simpl. case_decide; simpl; f_equal; lia.
Qed.

Lemma restorable_after alarm w before next :
  restorable (world (restore_alarm alarm w)) before next
  <-> restorable w (alarm :: before) next.
Proof. unfold restorable. by rewrite restore_alarm_clock. Qed.

Lemma restoreScheduledEvents_cons alarm rest w :
  restoreScheduledEvents (alarm :: rest) w
  = let r := restoreScheduledEvents rest (world (restore_alarm alarm w)) in
    MkRun (outcome r) (world r) (effects r).
Proof.
  cbn [restoreScheduledEvents].
  rewrite (bind_Returned _ _ _ tt) by (by rewrite restore_alarm_run).
  by rewrite restore_alarm_run.
Qed.

Lemma restoreScheduledEvents_quiet alarms w :
  outcome (restoreScheduledEvents alarms w) = Returned tt
  /\ effects (restoreScheduledEvents alarms w) = [].
Proof.
  revert w. induction alarms as [|alarm rest IH]; intros w; [done|].
  rewrite restoreScheduledEvents_cons. apply IH.
Qed.

Lemma restoreScheduledEvents_dom alarms w key :
  key ∈ dom (index (world (restoreScheduledEvents alarms w)))
  <-> key ∈ dom (index w)
      \/ exists before alarm after,
           alarms = before ++ alarm :: after
           /\ restorable w before alarm /\ key_of alarm = key.
Proof.
  revert w. induction alarms as [|alarm rest IH]; intros w.
  - simpl. split; [by left|]. intros [?|(before & a & after & Heq & _)]; [done|].
    by destruct before.
  - rewrite restoreScheduledEvents_cons. cbn [world]. rewrite IH, restore_alarm_index.
    split.
    + intros [Hdom|(before & a & after & -> & Hr & Hk)].
      * destruct (decide (restorable w [] alarm)) as [Hr|Hr]; [|by left].
        rewrite dom_insert_L in Hdom. apply elem_of_union in Hdom as [Hk|Hdom]; [|by left].
        apply elem_of_singleton in Hk. right. by exists [], alarm, rest.
      * right. exists (alarm :: before), a, after.
        split_and!; [done| |done]. by apply restorable_after.
    + intros [Hdom|(before & a & after & Heq & Hr & Hk)].
      * left. case_decide; [|done]. rewrite dom_insert_L.
        apply elem_of_union. by right.
      * destruct before as [|first before]; injection Heq as -> ->.
        -- left. rewrite decide_True by done. rewrite dom_insert_L.
           apply elem_of_union. left. by apply elem_of_singleton.
        -- right. exists before, a, after. split_and!; [done| |done].
           by apply restorable_after.
Qed.

Lemma restoreScheduledEvents_keeps alarms w key :
  (forall before alarm after,
     alarms = before ++ alarm :: after -> key_of alarm = key -> ~ restorable w before alarm) ->
  index (world (restoreScheduledEvents alarms w)) !! key = index w !! key.
Proof.
  revert w. induction alarms as [|alarm rest IH]; intros w Hnone; [done|].
  rewrite restoreScheduledEvents_cons. cbn [world]. rewrite IH.
  - rewrite restore_alarm_index. case_decide as Hr; [|done].
    rewrite lookup_insert_ne; [done|].
    intros Hk. by apply (Hnone [] alarm rest).
  - intros before a after -> Hk Hr%restorable_after.
    by apply (Hnone (alarm :: before) a after).
Qed.

Lemma restoreScheduledEvents_entry before alarm after w :
  restorable w before alarm ->
  (forall between later rest,
     after = between ++ later :: rest -> key_of later = key_of alarm ->
     ~ restorable w (before ++ alarm :: between) later) ->
  index (world (restoreScheduledEvents (before ++ alarm :: after) w)) !! key_of alarm
  = Some (restored_entry alarm (visit_time w before)).
Proof.
  revert w. induction before as [|first before IH]; intros w Hr Hlast.
  - cbn [app]. rewrite restoreScheduledEvents_cons. cbn [world].
    rewrite restoreScheduledEvents_keeps.
    + rewrite restore_alarm_index, decide_True by done. by rewrite lookup_insert_eq.
    + intros between later rest -> Hk Hl%restorable_after.
      by apply (Hlast between later rest).
  - cbn [app]. rewrite restoreScheduledEvents_cons. cbn [world].
    rewrite IH.
    + by rewrite restore_alarm_clock.
    + by apply restorable_after.
    + intros between later rest -> Hk Hl%restorable_after.
      by apply (Hlast between later rest).
Qed.

End RestoreFacts.

(** C8. [restoreScheduledEvents] performs no effect and does not throw.
    After it, a key is in the in-memory index exactly when it was there
    before or it is the [scheduledEventId] of an alarm of the argument whose
    payload type is ["xstate-delay"] and whose [scheduledAt] is strictly
    greater than the current time at its visit: an alarm of another type, or
    one whose deadline is at or before the current time, adds no entry. The
    entry under a key is built from the last such alarm with that key. *)
Theorem restore_indexes_future_xstate_delays
    (alarms : list AlarmScheduler.RestoredAlarm) (w : World) :
  let run := AlarmScheduler.restoreScheduledEvents alarms w in
  outcome run = Returned tt
  /\ effects run = []
  /\ (forall key,
        key ∈ dom (index (world run))
        <-> key ∈ dom (index w)
            \/ exists before alarm after,
                 alarms = before ++ alarm :: after
                 /\ is_xstate_delay alarm
                 /\ visit_time w before < AlarmScheduler.scheduledAt alarm
                 /\ key_of alarm = key)
  /\ (forall before alarm after,
        alarms = before ++ alarm :: after ->
        restorable w before alarm ->
        (forall between later rest,
           after = between ++ later :: rest -> key_of later = key_of alarm ->
           ~ restorable w (before ++ alarm :: between) later) ->
        index (world run) !! key_of alarm = Some (restored_entry alarm (visit_time w before))).
Proof.
  intros run. subst run. split_and!.
  - apply restoreScheduledEvents_quiet.
  - apply restoreScheduledEvents_quiet.
  - intros key. rewrite restoreScheduledEvents_dom. unfold restorable.
    split; (intros [Hd|(before & alarm & after & Heq & Hr)]; [by left|right]);
      exists before, alarm, after; tauto.
  - intros before alarm after -> Hr Hlast. by apply restoreScheduledEvents_entry.
Qed.

(** C9 (amended). [NOOP_CLOCK.setTimeout] ignores its callback and its
    delay: it returns the next draw of [Math.random()], a token that is at
    least 0 and less than 1, performs no effect and leaves the world as it
    was but for the consumed draw, so nothing is scheduled.
    [NOOP_CLOCK.clearTimeout] returns without any effect on any world, for
    an argument of any type. *)
Theorem noop_clock_schedules_nothing (callback : M unit) (delay : Z) (w : World) :
  let run := AlarmScheduler.setTimeout AlarmScheduler.NOOP_CLOCK callback delay w in
  outcome run = Returned (number (random w (draws w)))
  /\ (0 <= number (random w (draws w)))%Qc
  /\ (number (random w (draws w)) < 1)%Qc
  /\ effects run = []
  /\ world run = set_draws (S (draws w)) w
  /\ forall (A : Type) (id : A) (w' : World),
       AlarmScheduler.clearTimeout AlarmScheduler.NOOP_CLOCK A id w'
       = MkRun (Returned tt) w' [].
Proof.
  intros run. subst run. split_and!; try reflexivity.
  - apply (number_range (random w (draws w))).
  - apply (number_range (random w (draws w))).
Qed.

(** C9, as stated, fails when [Math.random()] draws 0: the token is 0. *)
Lemma noop_clock_token_can_be_zero :
  outcome (AlarmScheduler.setTimeout AlarmScheduler.NOOP_CLOCK (ret tt) 1000 (cold_world 0 []))
  = Returned 0%Qc.
Proof. reflexivity. Qed.

(** ** Framing: computations that ignore a [Map] object *)

Section IgnoresFacts.
Context (ref : nat).

Lemma ignores_ret {A} (a : A) : Ignores ref (ret a).
Proof. by intros m w. Qed.

Lemma ignores_throw {A} e : Ignores ref (throw (A := A) e).
Proof. by intros m w. Qed.

Lemma ignores_lift {A} (o : Outcome A) : Ignores ref (lift o).
Proof. by intros m w. Qed.

Lemma ignores_emit e : Ignores ref (emit e).
Proof. by intros m w. Qed.

Lemma ignores_bind {A B} (c : M A) (k : A -> M B) :
  Ignores ref c -> (forall a, Ignores ref (k a)) -> Ignores ref (bind c k).
Proof.
  intros Hc Hk m w. unfold bind. cbv zeta. rewrite !Hc.
  destruct (c w) as [[a|e] w' es]; cbn [outcome world effects]; [|done].
  rewrite !Hk. reflexivity.
Qed.

Lemma ignores_try_catch {A} (c : M A) (h : JsError -> M A) :
  Ignores ref c -> (forall e, Ignores ref (h e)) -> Ignores ref (try_catch c h).
Proof.
  intros Hc Hh m w. unfold try_catch. cbv zeta. rewrite !Hc.
  destruct (c w) as [[a|e] w' es]; cbn [outcome world effects]; [done|].
  rewrite !Hh. reflexivity.
Qed.

Lemma ignores_gets {A} (f : World -> A) :
  (forall m w, f (with_object ref m w) = f w) -> Ignores ref (gets f).
Proof. intros Hf m w. unfold gets. by rewrite Hf. Qed.

Lemma ignores_modify (f : World -> World) :
  (forall m w, f (with_object ref m w) = with_object ref m (f w)) -> Ignores ref (modify f).
Proof. intros Hf m w. unfold modify. by rewrite Hf. Qed.

Lemma ignores_Date_now : Ignores ref Date_now.
Proof. by intros m w. Qed.

Lemma ignores_exec q : Ignores ref (ActorKitStorage.exec q).
Proof.
  intros m w. unfold ActorKitStorage.exec. cbn [alarms with_object set_maps driver].
  by destruct (Sql.run q (alarms w)).
Qed.

Lemma ignores_call_actor f e event :
  behaviour_ignores ref f -> Ignores ref (AlarmScheduler.call_actor f e event).
Proof.
  intros Hf m w. unfold AlarmScheduler.call_actor. rewrite Hf.
  by destruct (f event w).
Qed.

End IgnoresFacts.

Create HintDb ignores.

#[local] Hint Resolve ignores_ret ignores_throw ignores_lift ignores_emit
  ignores_Date_now ignores_exec : ignores.

(** Splits a computation along its binds, handlers and branches. *)
Ltac ignores_step :=
  first
    [ apply ignores_bind; [|intros ?]
    | apply ignores_try_catch; [|intros ?]
    | apply ignores_gets; intros ? ?; reflexivity
    | apply ignores_modify; intros ? ?; reflexivity
    | match goal with
      | |- Ignores _ (if ?b then _ else _) => destruct b
      | |- Ignores _ (match ?x with _ => _ end) => destruct x
      end
    | solve [eauto with ignores] ].

Ltac ignores := repeat ignores_step.

Section SchedulerIgnores.
Context `{JsonLib} (ref : nat) (Href : ref ≠ AlarmScheduler.scheduledEventsMap).
Import AlarmScheduler.

Lemma index_with_object m w : index (with_object ref m w) = index w.
Proof.
  unfold index, contents, with_object. cbn [maps set_maps].
  by rewrite lookup_insert_ne.
Qed.

Lemma ignores_ensureInitialized : Ignores ref ActorKitStorage.ensureInitialized.
Proof. unfold ActorKitStorage.ensureInitialized, console_error. ignores. Qed.

Lemma ignores_select q : Ignores ref (ActorKitStorage.select q).
Proof.
  pose proof ignores_ensureInitialized.
  unfold ActorKitStorage.select. ignores.
Qed.

Lemma ignores_rescheduleNextAlarm : Ignores ref AlarmManager.rescheduleNextAlarm.
Proof.
  pose proof ignores_select.
  unfold AlarmManager.rescheduleNextAlarm, ActorKitStorage.getEarliestAlarm. ignores.
Qed.

Lemma ignores_manager_schedule options : Ignores ref (AlarmManager.schedule options).
Proof.
  pose proof ignores_ensureInitialized. pose proof ignores_rescheduleNextAlarm.
  unfold AlarmManager.schedule, ActorKitStorage.insertAlarm. ignores.
Qed.

Lemma ignores_manager_cancel id : Ignores ref (AlarmManager.cancel id).
Proof.
  pose proof ignores_ensureInitialized. pose proof ignores_rescheduleNextAlarm.
  unfold AlarmManager.cancel, ActorKitStorage.deleteAlarm. ignores.
Qed.

Lemma with_object_commute m (f : MapObject -> MapObject) w :
  set_maps (<[scheduledEventsMap := f (contents scheduledEventsMap (with_object ref m w))]>
              (maps (with_object ref m w))) (with_object ref m w)
  = with_object ref m
      (set_maps (<[scheduledEventsMap := f (contents scheduledEventsMap w)]> (maps w)) w).
Proof.
  fold (index (with_object ref m w)). fold (index w). rewrite index_with_object.
  unfold with_object, set_maps. cbn. f_equal.
  by apply insert_insert_ne.
Qed.

Lemma ignores_index_set key value : Ignores ref (Map_set scheduledEventsMap key value).
Proof.
  unfold Map_set. apply ignores_modify. intros m w.
  apply (with_object_commute m (fun o => <[key := value]> o)).
Qed.

Lemma ignores_index_delete key : Ignores ref (Map_delete scheduledEventsMap key).
Proof.
  unfold Map_delete. apply ignores_modify. intros m w.
  apply (with_object_commute m (fun o => delete key o)).
Qed.

Lemma ignores_index_entries : Ignores ref (Map_entries scheduledEventsMap).
Proof.
  unfold Map_entries. apply ignores_gets. intros m w.
  fold (index (with_object ref m w)). by rewrite index_with_object.
Qed.

Lemma ignores_cancel_alarm key : Ignores ref (cancel_alarm key).
Proof.
  pose proof ignores_manager_cancel.
  unfold cancel_alarm, console_error. ignores.
Qed.

Lemma ignores_cancel_events keys : Ignores ref (cancel_events keys).
Proof.
  pose proof ignores_index_delete. pose proof ignores_cancel_alarm.
  induction keys as [|key rest IH]; cbn [cancel_events]; ignores.
Qed.

Lemma ignores_run_call c : call_ignores ref c -> Ignores ref (run_call c).
Proof.
  pose proof ignores_index_set. pose proof ignores_index_delete.
  pose proof ignores_index_entries. pose proof ignores_cancel_alarm.
  pose proof ignores_cancel_events. pose proof ignores_manager_schedule.
  destruct c as [source target event delay id|source id|actorRef|alarmData actor];
    cbn [run_call call_ignores].
  - intros _. unfold schedule, console_error. ignores.
  - intros _. unfold cancel. ignores.
  - intros _. unfold cancelAll. ignores.
  - intros [Hrelay Hsend]. unfold handleXStateAlarm, console_error.
    pose proof (ignores_call_actor ref _ (Relay (XStateAlarmData.event alarmData))
                  (XStateAlarmData.event alarmData) Hrelay).
    pose proof (ignores_call_actor ref _ (Send (XStateAlarmData.event alarmData))
                  (XStateAlarmData.event alarmData) Hsend).
    ignores.
Qed.

Lemma ignores_run_calls cs : Forall (call_ignores ref) cs -> Ignores ref (run_calls cs).
Proof.
  induction 1 as [|c rest Hc Hrest IH]; cbn [run_calls].
  - apply ignores_ret.
  - apply ignores_bind; [by apply ignores_run_call|by intros _].
Qed.

End SchedulerIgnores.

Section CopyFacts.
Import AlarmScheduler.

Lemma fresh_ref_unused (h : gmap nat MapObject) : h !! fresh_ref h = None.
Proof.
  apply not_elem_of_dom. intros Hin.
  apply elem_of_elements, max_list_elem_of_le in Hin.
  unfold fresh_ref in Hin. lia.
Qed.

Lemma fresh_ref_not_module (h : gmap nat MapObject) : fresh_ref h ≠ scheduledEventsMap.
Proof. done. Qed.

Lemma contents_set_maps ref m h w : contents ref (set_maps (<[ref := m]> h) w) = m.
Proof. unfold contents. cbn [maps set_maps]. by rewrite lookup_insert_eq. Qed.

Lemma contents_with_object ref m w : contents ref (with_object ref m w) = m.
Proof. apply contents_set_maps. Qed.

Lemma with_object_twice ref m1 m2 w :
  with_object ref m2 (with_object ref m1 w) = with_object ref m2 w.
Proof. unfold with_object, set_maps. cbn. f_equal. apply insert_insert_eq. Qed.

Lemma apply_call_world ref c w :
  apply_call ref c w
  = MkRun (Returned tt) (with_object ref (contents ref (world (apply_call ref c w))) w) [].
Proof.
  destruct c; cbn [apply_call]; unfold Map_set, Map_delete, Map_clear, modify, with_object;
    cbn [world]; by rewrite contents_set_maps.
Qed.

(** Calls on the object under [ref] change the contents of that object
    and nothing else. *)
Lemma apply_calls_world ref cs m w :
  let run := apply_calls ref cs (with_object ref m w) in
  outcome run = Returned tt
  /\ world run = with_object ref (contents ref (world run)) w.
Proof.
  revert m. induction cs as [|c rest IH]; intros m; cbn [apply_calls].
  - cbn. by rewrite contents_with_object.
  - cbv zeta. rewrite (bind_Returned _ _ _ tt) by (by rewrite apply_call_world).
    rewrite apply_call_world. cbn [outcome world effects].
    rewrite with_object_twice. apply IH.
Qed.

End CopyFacts.

(** C10. [getScheduledEvents] returns a reference to a new [Map] object,
    distinct from the module's [scheduledEventsMap], that holds the entries
    of the index at the time of the call; the index itself is untouched.
    Whatever calls are then made on the returned object, the index keeps its
    entries and the world differs only in the contents of that object; and
    every sequence of scheduler calls ([schedule], [cancel], [cancelAll],
    delivery to an actor that does not itself look at the returned object)
    has the same outcome and the same effects, and leaves the same world but
    for that object, as without those calls. *)
Theorem getScheduledEvents_returns_copy `{JsonLib}
    (w : World) (mutations : list MapCall) (calls : list SchedulerCall) :
  let ref := AlarmScheduler.fresh_ref (maps w) in
  let got := AlarmScheduler.getScheduledEvents w in
  let mutated := world (apply_calls ref mutations (world got)) in
  let plain := run_calls calls (world got) in
  Forall (call_ignores ref) calls ->
  outcome got = Returned ref
  /\ effects got = []
  /\ ref ≠ AlarmScheduler.scheduledEventsMap
  /\ maps w !! ref = None
  /\ AlarmScheduler.contents ref (world got) = index w
  /\ index (world got) = index w
  /\ world got = with_object ref (index w) w
  /\ index mutated = index w
  /\ mutated = with_object ref (AlarmScheduler.contents ref mutated) w
  /\ run_calls calls mutated
     = MkRun (outcome plain)
         (with_object ref (AlarmScheduler.contents ref mutated) (world plain))
         (effects plain)
  /\ outcome (run_calls calls mutated) = outcome plain
  /\ effects (run_calls calls mutated) = effects plain
  /\ index (world (run_calls calls mutated)) = index (world plain).
Proof.
  intros ref got mutated plain Hcalls.
  assert (Hgot : world got = with_object ref (index w) w) by reflexivity.
  assert (Hmut : mutated = with_object ref (AlarmScheduler.contents ref mutated) w).
  { subst mutated. rewrite Hgot. apply apply_calls_world. }
  assert (Hne : ref ≠ AlarmScheduler.scheduledEventsMap) by apply fresh_ref_not_module.
  assert (Hrun : run_calls calls mutated
                 = MkRun (outcome plain)
                     (with_object ref (AlarmScheduler.contents ref mutated) (world plain))
                     (effects plain)).
  { subst plain. rewrite Hmut at 1. rewrite Hgot.
    rewrite !(ignores_run_calls ref Hne calls Hcalls). cbn [outcome world effects].
    by rewrite with_object_twice. }
  split_and!; try done.
  - apply fresh_ref_unused.
  - rewrite Hgot. apply contents_with_object.
  - rewrite Hgot. by apply index_with_object.
  - rewrite Hmut. by apply index_with_object.
  - by rewrite Hrun.
  - by rewrite Hrun.
  - rewrite Hrun. cbn [world]. by apply index_with_object.
Qed.

(** C10 on [indexed_world]: the returned object is cleared, then the
    scheduler is used. *)
Lemma getScheduledEvents_returns_copy_witness :
  let ref := AlarmScheduler.fresh_ref (maps indexed_world) in
  let got := AlarmScheduler.getScheduledEvents indexed_world in
  let mutations := [ClearEntries; DeleteEntry "s1.after"] in
  let mutated := world (apply_calls ref mutations (world got)) in
  let calls :=
    [ CallSchedule session1 session1 (JObject [("type", JString "TOCK")]) 50 "next";
      CallCancel session1 "after";
      CallDeliver (AlarmScheduler.payload (delayed_event "next" 1050)) quiet_actor;
      CallCancelAll session1 ] in
  outcome got = Returned ref
  /\ index mutated = index indexed_world
  /\ index (world (run_calls (H := Json.lib) calls mutated))
     = index (world (run_calls (H := Json.lib) calls (world got)))
  /\ effects (run_calls (H := Json.lib) calls mutated)
     = effects (run_calls (H := Json.lib) calls (world got)).
Proof.
  intros ref got mutations mutated calls.
  destruct (getScheduledEvents_returns_copy (H := Json.lib) indexed_world mutations calls)
    as (Hgot & _ & _ & _ & _ & _ & _ & Hindex & _ & _ & _ & Heffects & Hsame);
    subst mutated got ref.
  - subst calls.
    constructor; [exact I|].
    constructor; [exact I|].
    constructor; [split; intros event m w; reflexivity|].
    constructor; [exact I|].
    constructor.
  - split_and!.
    + assumption.
    + assumption.
    + assumption.
    + assumption.
Defined.

(** In that scenario the returned reference is 1, the calls on the returned
    object empty it, and the index still holds its entry. *)
Lemma returned_copy_scenario :
  let got := AlarmScheduler.getScheduledEvents indexed_world in
  let mutated := world (apply_calls 1 [ClearEntries; DeleteEntry "s1.after"] (world got)) in
  outcome got = Returned 1%nat
  /\ map_to_list (AlarmScheduler.contents 1 (world got))
     = [("s1.after", restored_entry (delayed_event "after" 1500) 1000)]
  /\ map_to_list (AlarmScheduler.contents 1 mutated) = []
  /\ map_to_list (index mutated)
     = [("s1.after", restored_entry (delayed_event "after" 1500) 1000)].
Proof. by vm_compute. Qed.

(** Scenario 4 of the specification, the restore: of an alarm due in 500 ms
    and an alarm overdue by 100 ms, only the first gets an index entry. *)
Lemma restore_cold_start :
  map_to_list
    (index (world (AlarmScheduler.restoreScheduledEvents
                     [delayed_event "soon" 1500; delayed_event "late" 900]
                     (cold_world 1000 []))))
  = [("s1.soon", restored_entry (delayed_event "soon" 1500) 1000)].
Proof. by vm_compute. Qed.

(** The restored [id] is the part of the key after its last dot. *)
Lemma restored_id_is_last_segment :
  ScheduledEventSnapshot.id
    (restored_entry (delayed_event "xstate.after.1000.machine.idle" 1500) 1000)
  = "idle".
Proof. by vm_compute. Qed.

(** ** End-to-end scenarios of the specification *)

(** Scenario 1 of the specification: a single delay, scheduled at time 0 for
    time 1000 and drained at time 1000. *)
Lemma scenario_single_delay :
  let scheduled :=
    AlarmManager.schedule (H := Json.lib) (options "A" "xstate-delay" 1000 None)
      (ticking_world [0] 1000) in
  let drained := AlarmManager.handleDueAlarms (H := Json.lib) accept (world scheduled) in
  do_alarm (world scheduled) = Some 1000
  /\ outcome drained
     = Returned [ {| AlarmHandleResult.id := "A"; AlarmHandleResult.type := "xstate-delay";
                     AlarmHandleResult.rescheduled := false;
                     AlarmHandleResult.deleted := true |} ]
  /\ length (filter is_call (effects drained)) = 1%nat
  /\ alarms (world drained) = []
  /\ currentAlarmId (world drained) = None.
Proof. by vm_compute. Qed.

(** Scenario 2: a recurring alarm due at 100 with interval 500, drained at
    100, is moved to 600 and the alarm slot is set for 600. *)
Lemma scenario_recurring_alarm :
  let scheduled :=
    AlarmManager.schedule (H := Json.lib) (options "R" "cache-cleanup" 100 (Some 500))
      (ticking_world [0] 100) in
  let drained := AlarmManager.handleDueAlarms (H := Json.lib) accept (world scheduled) in
  outcome drained
  = Returned [ {| AlarmHandleResult.id := "R"; AlarmHandleResult.type := "cache-cleanup";
                  AlarmHandleResult.rescheduled := true;
                  AlarmHandleResult.deleted := false |} ]
  /\ length (filter is_call (effects drained)) = 1%nat
  /\ (AlarmRecord.id <$> alarms (world drained), AlarmRecord.scheduled_at <$> alarms (world drained))
     = (["R"], [600])
  /\ do_alarm (world drained) = Some 600.
Proof. by vm_compute. Qed.

(** Scenario 3: an alarm cancelled before it fires is not delivered. *)
Lemma scenario_cancel_before_fire :
  let scheduled :=
    AlarmManager.schedule (H := Json.lib) (options "A" "custom" 1000 None)
      (ticking_world [0] 2000) in
  let cancelled := AlarmManager.cancel "A" (world scheduled) in
  let drained := AlarmManager.handleDueAlarms (H := Json.lib) accept (world cancelled) in
  alarms (world cancelled) = []
  /\ currentAlarmId (world cancelled) = None
  /\ outcome drained = Returned []
  /\ filter is_call (effects drained) = [].
Proof. by vm_compute. Qed.

(** Scheduling a second event under the key of a pending one: the INSERT
    fails, the error is logged, and the index entry is removed while the
    first alarm row stays. *)
Lemma scheduler_duplicate_key :
  let once := AlarmScheduler.schedule (H := Json.lib) session1 session1 (JObject []) 50 "k"
                (ticking_world [] 1000) in
  let twice := AlarmScheduler.schedule (H := Json.lib) session1 session1 (JObject []) 70 "k"
                 (world once) in
  outcome twice = Returned tt
  /\ map_to_list (index (world twice)) = []
  /\ AlarmRecord.id <$> alarms (world twice) = ["xstate-s1.k"]
  /\ length (filter is_console_error (effects twice)) = 1%nat.
Proof. by vm_compute. Qed.

(** * Further properties *)

#[local] Set Warnings "-clear-no-such-hyp".

Lemma outcome_MkRun {A} (a : Outcome A) w es : outcome (MkRun a w es) = a.
Proof. reflexivity. Qed.

Lemma world_MkRun {A} (a : Outcome A) w es : world (MkRun a w es) = w.
Proof. reflexivity. Qed.

Lemma effects_MkRun {A} (a : Outcome A) w es : effects (MkRun a w es) = es.
Proof. reflexivity. Qed.

(** Projections of a run that is given by its three components, taken by
    rewriting. *)
Ltac run_simpl := rewrite ?outcome_MkRun, ?world_MkRun, ?effects_MkRun.

(** ** The persistence layer, continued *)

Section StorageMore.
Context `{JsonLib}.
Import Sql ActorKitStorage.

Lemma deleteAlarmsByType_run ty w :
  deleteAlarmsByType ty w
  = MkRun (Returned tt)
      (set_alarms (filter (fun r => AlarmRecord.type r ≠ ty) (alarms w)) (booted w))
      (boot_effects w ++ [SqlExec (DeleteAlarmsByType ty)]).
Proof.
  unfold deleteAlarmsByType, bind. rewrite ensureInitialized_run. simpl.
  by rewrite ?app_nil_r.
Qed.

Lemma insertAlarm_fresh options w :
  ScheduleAlarmOptions.id options ∉ ids (alarms w) ->
  insertAlarm options w
  = MkRun (Returned tt)
      (set_alarms (alarms w ++ [new_row options (clock w (ticks w))])
         (set_ticks (S (ticks w)) (booted w)))
      (boot_effects w ++ [SqlExec (insert_stmt options w)]).
Proof.
  intros Hfresh. unfold insertAlarm, bind. rewrite ensureInitialized_run. simpl.
  unfold exec. simpl.
  assert (existsb (has_id (ScheduleAlarmOptions.id options)) (alarms w) = false) as ->.
  { apply not_true_is_false. intros (r & Hr & Hid)%existsb_exists.
    apply Hfresh. unfold has_id in Hid. apply bool_decide_eq_true in Hid.
    rewrite <- Hid. apply elem_of_ids. by apply list_elem_of_In. }
  simpl. by rewrite ?app_nil_r.
Qed.

End StorageMore.

Section ParseRowsMore.
Import Sql ActorKitStorage.

Lemma cursor_loop_results batches cols acc :
  Forall has_results batches ->
  cursor_loop batches (Some cols) acc
  = Returned (acc ++ (object_of_row cols <$> batch_rows batches)).
Proof.
  intros Hall. revert acc. induction Hall as [|b rest [rs Hrs] Hrest IH]; intros acc.
  - by rewrite app_nil_r.
  - cbn [cursor_loop]. rewrite Hrs. cbn [default]. rewrite IH.
    unfold batch_rows. rewrite fmap_cons, concat_cons, Hrs. cbn [default].
    by rewrite fmap_app, app_assoc.
Qed.

Lemma cursor_loop_throws before batch after cols acc :
  Forall has_results before -> results batch = None ->
  cursor_loop (before ++ batch :: after) cols acc
  = Threw (TypeError "batch.results is not iterable").
Proof.
  intros Hall Hnone. revert cols acc.
  induction Hall as [|b rest [rs Hrs] Hrest IH]; intros cols acc.
  - cbn. by rewrite Hnone.
  - cbn [app cursor_loop]. rewrite Hrs. apply IH.
Qed.




End ParseRowsMore.

(** X2. From a cursor, [parseRows] decodes the rows of every batch, in
    order, under the column names of the first batch; the [columns] of the
    later batches are not read. *)
Theorem parseRows_cursor_reads_every_batch
    (first : Sql.Batch) (others : list Sql.Batch) (cols : list string) :
  Sql.columns first = Some cols ->
  Forall has_results (first :: others) ->
  ActorKitStorage.parseRows (Sql.Cursor (first :: others))
  = Returned (ActorKitStorage.object_of_row cols <$> batch_rows (first :: others)).
Proof.
  intros Hcols Hall. cbn [ActorKitStorage.parseRows].
  inversion Hall as [|? ? [rs Hrs] Hrest]; subst.
  cbn [ActorKitStorage.cursor_loop]. rewrite Hcols, Hrs. cbn [default].
  rewrite cursor_loop_results by done.
  unfold batch_rows. rewrite fmap_cons, concat_cons, Hrs. cbn [default app].
  by rewrite fmap_app.
Qed.

(** X2 on a cursor of two batches whose second batch names other
    columns. *)
Lemma parseRows_cursor_reads_every_batch_witness :
  ActorKitStorage.parseRows
    (Sql.Cursor
       [ {| Sql.columns := Some ["id"]; Sql.columnNames := None;
            Sql.rows := None; Sql.results := Some [[JsString "a"]] |};
         {| Sql.columns := Some ["other"]; Sql.columnNames := None;
            Sql.rows := None; Sql.results := Some [[JsString "b"]; [JsString "c"]] |} ])
  = Returned (ActorKitStorage.object_of_row ["id"]
                <$> [[JsString "a"]; [JsString "b"]; [JsString "c"]]).
Proof.
  refine (parseRows_cursor_reads_every_batch
            {| Sql.columns := Some ["id"]; Sql.columnNames := None;
               Sql.rows := None; Sql.results := Some [[JsString "a"]] |}
            [ {| Sql.columns := Some ["other"]; Sql.columnNames := None;
                 Sql.rows := None; Sql.results := Some [[JsString "b"]; [JsString "c"]] |} ]
            ["id"] _ _).
  - reflexivity.
  - repeat constructor; by eexists.
Defined.

(** X3. A cursor that yields a batch without a [results] property, after
    batches that have one, makes [parseRows] throw; a batch in the
    [{columns, rows}] form is such a batch. *)
Theorem parseRows_cursor_throws_without_results
    (before : list Sql.Batch) (batch : Sql.Batch) (after : list Sql.Batch) :
  Forall has_results before ->
  Sql.results batch = None ->
  ActorKitStorage.parseRows (Sql.Cursor (before ++ batch :: after))
  = Threw (TypeError "batch.results is not iterable").
Proof. intros Hall Hnone. by apply cursor_loop_throws. Qed.

(** X3 on a cursor whose second batch is in the [{columns, rows}] form. *)
Lemma parseRows_cursor_throws_without_results_witness :
  ActorKitStorage.parseRows
    (Sql.Cursor
       ([ {| Sql.columns := Some ["id"]; Sql.columnNames := None;
             Sql.rows := None; Sql.results := Some [[JsString "a"]] |} ]
        ++ {| Sql.columns := Some ["id"]; Sql.columnNames := None;
              Sql.rows := Some [[JsString "b"]]; Sql.results := None |} :: []))
  = Threw (TypeError "batch.results is not iterable").
Proof.
  apply parseRows_cursor_throws_without_results.
  - repeat constructor; by eexists.
  - reflexivity.
Defined.



(** ** Queries *)

Section QueryFacts.
Import Sql.

Lemma insert_row_sorted r rows :
  StronglySorted by_deadline rows -> StronglySorted by_deadline (insert_row r rows).
Proof.
  induction 1 as [|x rows Hs IH Hx]; cbn [insert_row]; [by repeat constructor|].
  destruct (AlarmRecord.scheduled_at r <=? AlarmRecord.scheduled_at x) eqn:Hle.
  - apply Z.leb_le in Hle. constructor; [by constructor|].
    constructor; [done|].
    eapply Forall_impl; [exact Hx|]. unfold by_deadline. intros y Hy. lia.
  - apply Z.leb_gt in Hle. constructor; [done|].
    rewrite insert_row_Permutation. constructor; [unfold by_deadline; lia|done].
Qed.

Lemma order_by_scheduled_at_sorted rows :
  StronglySorted by_deadline (order_by_scheduled_at rows).
Proof.
  induction rows as [|r rows IH]; [constructor|]. by apply insert_row_sorted.
Qed.

Lemma insert_row_front r rows :
  Forall (by_deadline r) rows -> insert_row r rows = r :: rows.
Proof.
  destruct 1 as [|x rows Hx _]; [done|]. cbn [insert_row].
  by rewrite (proj2 (Z.leb_le _ _) Hx).
Qed.

Lemma insert_row_filter (P : AlarmRecord.t -> Prop) `{forall x, Decision (P x)} r rows :
  StronglySorted by_deadline rows ->
  filter P (insert_row r rows)
  = if decide (P r) then insert_row r (filter P rows) else filter P rows.
Proof.
  induction 1 as [|x rows Hs IH Hx]; cbn [insert_row].
  - rewrite filter_cons. by case_decide.
  - destruct (AlarmRecord.scheduled_at r <=? AlarmRecord.scheduled_at x) eqn:Hle.
    + rewrite (filter_cons P r). destruct (decide (P r)) as [Hr|Hr]; [|done].
      rewrite insert_row_front; [done|].
      apply Z.leb_le in Hle. apply list.Forall_forall.
      intros y [_ Hy]%list_elem_of_filter.
      apply elem_of_cons in Hy as [->|Hy]; [done|].
      rewrite list.Forall_forall in Hx. specialize (Hx y Hy).
      unfold by_deadline in *. lia.
    + rewrite (filter_cons P x), IH.
      destruct (decide (P r)) as [Hr|Hr]; destruct (decide (P x)) as [Hp|Hp];
        try done.
      * rewrite (filter_cons P x), decide_True by done. cbn [insert_row]. by rewrite Hle.
      * by rewrite (filter_cons P x), decide_False.
      * by rewrite (filter_cons P x), decide_True.
      * by rewrite (filter_cons P x), decide_False.
Qed.

(** Sorting by deadline and selecting rows commute. *)
Lemma order_by_scheduled_at_filter (P : AlarmRecord.t -> Prop) `{forall x, Decision (P x)} rows :
  order_by_scheduled_at (filter P rows) = filter P (order_by_scheduled_at rows).
Proof.
  induction rows as [|r rows IH]; [done|].
  cbn [order_by_scheduled_at foldr]. fold (order_by_scheduled_at rows).
  rewrite insert_row_filter by apply order_by_scheduled_at_sorted.
  rewrite filter_cons. destruct (decide (P r)); [|done].
  cbn [order_by_scheduled_at foldr]. fold (order_by_scheduled_at (filter P rows)).
  by rewrite IH.
Qed.

Lemma earliest_row_None table : earliest_row table = None <-> table = [].
Proof.
  unfold earliest_row. split; [|by intros ->].
  intros Hn. apply head_None in Hn.
  apply Permutation_nil. by rewrite <- Hn, order_by_scheduled_at_Permutation.
Qed.

Lemma earliest_row_Some table e :
  earliest_row table = Some e ->
  e ∈ table /\ forall r, r ∈ table -> by_deadline e r.
Proof.
  unfold earliest_row. intros He.
  pose proof (order_by_scheduled_at_sorted table) as Hs.
  pose proof (order_by_scheduled_at_Permutation table) as Hp.
  destruct (order_by_scheduled_at table) as [|x rest]; simplify_eq/=.
  apply StronglySorted_inv in Hs as [_ Hall]. split.
  - rewrite <- Hp. by left.
  - intros r Hr. rewrite <- Hp in Hr. apply elem_of_cons in Hr as [->|Hr].
    + unfold by_deadline. lia.
    + rewrite list.Forall_forall in Hall. by apply Hall.
Qed.

(** Removing rows other than the earliest leaves the earliest in place. *)
Lemma earliest_row_filter (P : AlarmRecord.t -> Prop) `{forall x, Decision (P x)} table e :
  earliest_row table = Some e -> P e -> earliest_row (filter P table) = Some e.
Proof.
  unfold earliest_row. rewrite order_by_scheduled_at_filter.
  destruct (order_by_scheduled_at table) as [|x rest]; intros He Hp; simplify_eq/=.
  by rewrite filter_cons_True.
Qed.

End QueryFacts.

(** X5. [getEarliestAlarm] returns [null] exactly on an empty table, and
    otherwise a stored row whose deadline no stored row precedes; it changes
    neither the table nor the volatile fields of the manager. *)
Theorem getEarliestAlarm_is_minimum (w : World) :
  let run := ActorKitStorage.getEarliestAlarm w in
  exists found,
    outcome run = Returned found
    /\ (found = None <-> alarms w = [])
    /\ (forall e, found = Some e ->
          e ∈ alarms w
          /\ forall r, r ∈ alarms w -> AlarmRecord.scheduled_at e ≤ AlarmRecord.scheduled_at r)
    /\ alarms (world run) = alarms w
    /\ currentAlarmId (world run) = currentAlarmId w
    /\ currentAlarmTime (world run) = currentAlarmTime w.
Proof.
  intros run. subst run. rewrite getEarliestAlarm_run. run_simpl.
  exists (earliest_row (alarms w)). split_and!; try done.
  - apply earliest_row_None.
  - intros e He. by apply earliest_row_Some.
Qed.

Section ManagerQueries.
Context `{JsonLib}.
Import AlarmManager.

Lemma parsed_sorted records found :
  map_outcome parseAlarmRecord records = Returned found ->
  StronglySorted by_deadline records -> StronglySorted alarm_by_deadline found.
Proof.
  intros Hall%map_outcome_Returned.
  induction Hall as [|r a rs als Hr Hrs IH]; intros Hs; [constructor|].
  apply StronglySorted_inv in Hs as [Hs Hrest]. constructor; [by apply IH|].
  apply parseAlarmRecord_fields in Hr as (_ & _ & Ha & _).
  clear IH Hs. induction Hrs as [|r' a' rs' als' Hr' Hrs' IH]; [constructor|].
  apply Forall_cons in Hrest as [Hr1 Hrest]. constructor; [|by apply IH].
  apply parseAlarmRecord_fields in Hr' as (_ & _ & Ha' & _).
  unfold alarm_by_deadline, by_deadline in *. lia.
Qed.

Lemma getDueAlarms_any before w :
  let b := default (clock w (ticks w)) before in
  let w0 := if before is Some _ then w else set_ticks (S (ticks w)) w in
  getDueAlarms before w
  = MkRun (map_outcome parseAlarmRecord (due_rows b (alarms w))) (booted w0)
      (boot_effects w ++ [SqlExec (SelectDueAlarms b)]).
Proof.
  destruct before as [t|]; cbn [default]; [apply getDueAlarms_at|].
  unfold getDueAlarms, bind. simpl. rewrite getDueAlarms_run. simpl.
  destruct (map_outcome parseAlarmRecord _); simpl; by rewrite ?app_nil_r.
Qed.

Lemma getPendingAlarms_run w :
  getPendingAlarms w
  = MkRun (map_outcome parseAlarmRecord (Sql.order_by_scheduled_at (alarms w))) (booted w)
      (boot_effects w ++ [SqlExec SelectAlarms]).
Proof.
  unfold getPendingAlarms, bind. rewrite getAlarms_run. simpl.
  destruct (map_outcome parseAlarmRecord _); simpl; by rewrite ?app_nil_r.
Qed.

End ManagerQueries.

(** X6. [getDueAlarms(before)], with [before] defaulting to the current
    time, returns the alarms of exactly the rows whose deadline is at or
    before [before], in ascending order of deadline, when those rows parse;
    it issues one SELECT and changes neither the table nor the volatile
    fields of the manager. *)
Theorem getDueAlarms_lists_due_alarms `{JsonLib} (before : option Z) (w : World) :
  let b := default (clock w (ticks w)) before in
  let run := AlarmManager.getDueAlarms before w in
  (forall r, r ∈ alarms w -> AlarmRecord.scheduled_at r ≤ b ->
             is_Returned (AlarmManager.parseAlarmRecord r)) ->
  exists found,
    outcome run = Returned found
    /\ Alarm.id <$> found
       ≡ₚ ids (filter (fun r => AlarmRecord.scheduled_at r ≤ b) (alarms w))
    /\ StronglySorted alarm_by_deadline found
    /\ Forall (fun a => Alarm.scheduledAt a ≤ b) found
    /\ effects run = boot_effects w ++ [SqlExec (SelectDueAlarms b)]
    /\ alarms (world run) = alarms w
    /\ currentAlarmId (world run) = currentAlarmId w
    /\ currentAlarmTime (world run) = currentAlarmTime w
    /\ do_alarm (world run) = do_alarm w.
Proof.
  intros b run Hparse. subst run.
  destruct (map_outcome_total AlarmManager.parseAlarmRecord (due_rows b (alarms w)))
    as [found Hall].
  { intros r [Hr Hd]%elem_of_due_rows. by apply Hparse. }
  rewrite getDueAlarms_any. fold b. rewrite Hall. run_simpl.
  exists found. split_and!; try done; try (by destruct before).
  - rewrite (parsed_ids _ _ Hall). unfold due_rows, ids.
    by rewrite order_by_scheduled_at_Permutation.
  - apply (parsed_sorted _ _ Hall), order_by_scheduled_at_sorted.
  - apply list.Forall_forall. intros a Ha.
    apply map_outcome_Returned in Hall.
    apply list_elem_of_lookup in Ha as [i Hi].
    destruct (Forall2_lookup_r _ _ _ _ _ Hall Hi) as (r & Hr & Hp).
    apply parseAlarmRecord_fields in Hp as (_ & _ & -> & _).
    apply list_elem_of_lookup_2, elem_of_due_rows in Hr. tauto.
Qed.

(** X6 on [mixed_world] at time 1000, by default. *)
Lemma getDueAlarms_lists_due_alarms_witness :
  exists found,
    outcome (AlarmManager.getDueAlarms (H := Json.lib) None mixed_world) = Returned found
    /\ Alarm.id <$> found
       ≡ₚ ids (filter (fun r => AlarmRecord.scheduled_at r ≤ 1000) (alarms mixed_world))
    /\ alarms (world (AlarmManager.getDueAlarms (H := Json.lib) None mixed_world))
       = alarms mixed_world.
Proof.
  destruct (getDueAlarms_lists_due_alarms (H := Json.lib) None mixed_world)
    as (found & Ho & Hids & _ & _ & _ & Ha & _).
  - intros r Hr _. simpl in Hr. set_unfold in Hr.
    destruct Hr as [->|[->|[->|[]]]]; by vm_compute.
  - exists found. split_and!; assumption.
Defined.

(** X7. [getPendingAlarms] returns one alarm per stored row, all of them, in
    ascending order of deadline, when the rows parse, and changes nothing;
    when a stored row holds a non-empty payload that is not JSON it
    throws. *)
Theorem getPendingAlarms_lists_all_alarms `{JsonLib} (w : World) :
  let run := AlarmManager.getPendingAlarms w in
  ((forall r, r ∈ alarms w -> is_Returned (AlarmManager.parseAlarmRecord r)) ->
   exists found,
     outcome run = Returned found
     /\ Alarm.id <$> found ≡ₚ ids (alarms w)
     /\ StronglySorted alarm_by_deadline found)
  /\ (forall r text,
        r ∈ alarms w -> AlarmRecord.payload r = Some text -> text ≠ "" ->
        JSON_parse text = None ->
        exists rejected, outcome run = Threw (SyntaxError rejected))
  /\ effects run = boot_effects w ++ [SqlExec SelectAlarms]
  /\ alarms (world run) = alarms w
  /\ currentAlarmId (world run) = currentAlarmId w
  /\ currentAlarmTime (world run) = currentAlarmTime w.
Proof.
  intros run. subst run. rewrite getPendingAlarms_run. run_simpl.
  split_and!; try done.
  - intros Hparse.
    destruct (map_outcome_total AlarmManager.parseAlarmRecord
                (Sql.order_by_scheduled_at (alarms w))) as [found Hall].
    { intros r Hr. apply Hparse. by rewrite <- order_by_scheduled_at_Permutation. }
    exists found. split_and!; [done| |].
    + rewrite (parsed_ids _ _ Hall). unfold ids.
      by rewrite order_by_scheduled_at_Permutation.
    + apply (parsed_sorted _ _ Hall), order_by_scheduled_at_sorted.
  - intros r text Hr Hp Hne Hbad.
    destruct (map_outcome_Threw AlarmManager.parseAlarmRecord
                (Sql.order_by_scheduled_at (alarms w)) r (SyntaxError text))
      as (r' & e & _ & He & ->).
    { by rewrite order_by_scheduled_at_Permutation. }
    { by apply parseAlarmRecord_corrupt. }
    apply parseAlarmRecord_Threw in He as (rejected & _ & _ & _ & ->). by exists rejected.
Qed.

(** ** The alarm manager and the platform alarm *)

Section ManagerSync.
Context `{JsonLib}.
Import AlarmManager.

Lemma rearm_in_sync w : in_sync (world (rescheduleNextAlarm w)).
Proof.
  unfold in_sync. rewrite rescheduleNextAlarm_alarms.
  destruct (earliest_row (alarms w)) as [e|] eqn:He.
  - by apply rescheduleNextAlarm_armed.
  - rewrite rescheduleNextAlarm_run, He. done.
Qed.

Lemma rearm_slot_follows w :
  slot_follows w -> slot_follows (world (rescheduleNextAlarm w)).
Proof.
  intros Hs. rewrite rescheduleNextAlarm_run.
  destruct (earliest_row (alarms w)) as [e|]; [case_decide|]; intros t Ht; cbn in *.
  - by apply Hs.
  - done.
  - done.
Qed.

Lemma in_sync_volatile w w' :
  alarms w' = alarms w -> currentAlarmId w' = currentAlarmId w ->
  currentAlarmTime w' = currentAlarmTime w -> in_sync w -> in_sync w'.
Proof. unfold in_sync, armed_for. by intros -> -> ->. Qed.



Lemma schedule_run options w :
  ScheduleAlarmOptions.id options ∉ ids (alarms w) ->
  let stored := set_alarms (alarms w ++ [new_row options (clock w (ticks w))])
                  (set_ticks (S (ticks w)) (booted w)) in
  schedule options w
  = MkRun (Returned tt) (world (rescheduleNextAlarm stored))
      ((boot_effects w ++ [SqlExec (insert_stmt options w)])
         ++ effects (rescheduleNextAlarm stored)).
Proof.
  intros Hfresh stored. unfold schedule, bind. cbv zeta.
  rewrite !insertAlarm_fresh by done. run_simpl.
  fold stored. by rewrite rescheduleNextAlarm_outcome.
Qed.

Lemma schedule_duplicate_run options w :
  ScheduleAlarmOptions.id options ∈ ids (alarms w) ->
  schedule options w
  = MkRun (Threw (SqliteConstraint "UNIQUE constraint failed: alarms.id"))
      (set_ticks (S (ticks w)) (booted w))
      (boot_effects w ++ [SqlExec (insert_stmt options w)]).
Proof.
  intros Hdup. unfold schedule, bind. cbv zeta.
  by rewrite !insertAlarm_duplicate by done.
Qed.

Lemma cancel_run i w :
  let removed := set_alarms (filter (fun r => AlarmRecord.id r ≠ i) (alarms w)) (booted w) in
  cancel i w
  = if bool_decide (currentAlarmId w = Some i) then
      MkRun (Returned tt) (world (rescheduleNextAlarm removed))
        ((boot_effects w ++ [SqlExec (DeleteAlarm i)])
           ++ effects (rescheduleNextAlarm removed))
    else MkRun (Returned tt) removed (boot_effects w ++ [SqlExec (DeleteAlarm i)]).
Proof.
  intros removed. unfold cancel, bind, gets. cbv zeta.
  rewrite !deleteAlarm_run. run_simpl. fold removed.
  replace (currentAlarmId removed) with (currentAlarmId w) by done.
  case_bool_decide; run_simpl.
  - by rewrite rescheduleNextAlarm_outcome, ?app_nil_r.
  - by rewrite ?app_nil_r.
Qed.

Lemma cancelByType_run ty w :
  let removed := set_alarms (filter (fun r => AlarmRecord.type r ≠ ty) (alarms w)) (booted w) in
  cancelByType ty w
  = MkRun (Returned tt) (world (rescheduleNextAlarm removed))
      ((boot_effects w ++ [SqlExec (DeleteAlarmsByType ty)])
         ++ effects (rescheduleNextAlarm removed)).
Proof.
  intros removed. unfold cancelByType, bind. cbv zeta.
  rewrite !deleteAlarmsByType_run. run_simpl. fold removed.
  by rewrite rescheduleNextAlarm_outcome.
Qed.

Lemma filter_mutation_rearm w : filter is_mutation (effects (rescheduleNextAlarm w)) = [].
Proof. by apply filter_rearm. Qed.

Lemma filter_mutation_boot w : filter is_mutation (boot_effects w) = [].
Proof. by apply filter_boot. Qed.

Lemma cancel_in_sync i w : in_sync w -> in_sync (world (cancel i w)).
Proof.
  intros Hsync. rewrite cancel_run. case_bool_decide as Hcur; run_simpl.
  { apply rearm_in_sync. }
  unfold in_sync in *. cbn.
  destruct (earliest_row (alarms w)) as [e|] eqn:He.
  - destruct Hsync as [Hid Ht].
    rewrite (earliest_row_filter (fun r => AlarmRecord.id r ≠ i) _ e He); [done|].
    intros Heq. apply Hcur. by rewrite Hid, Heq.
  - apply earliest_row_None in He. by rewrite He.
Qed.

Lemma drain_in_sync handler w : in_sync w -> in_sync (world (handleDueAlarms handler w)).
Proof.
  intros Hsync.
  destruct (map_outcome parseAlarmRecord (due_rows (clock w (ticks w)) (alarms w)))
    as [dueAlarms|e] eqn:Hparse.
  - rewrite (handleDueAlarms_run _ _ _ Hparse). run_simpl. apply rearm_in_sync.
  - rewrite (handleDueAlarms_throws _ _ _ Hparse). run_simpl.
    by apply (in_sync_volatile w).
Qed.

Lemma run_manager_call_in_sync c w :
  in_sync w -> in_sync (world (run_manager_call c w)).
Proof.
  intros Hsync. destruct c as [options|i|ty|handler]; cbn [run_manager_call].
  - destruct (decide (ScheduleAlarmOptions.id options ∈ ids (alarms w))) as [Hin|Hout].
    + rewrite schedule_duplicate_run by done. run_simpl. by apply (in_sync_volatile w).
    + rewrite schedule_run by done. run_simpl. apply rearm_in_sync.
  - by apply cancel_in_sync.
  - rewrite cancelByType_run. run_simpl. apply rearm_in_sync.
  - unfold bind. pose proof (drain_in_sync handler w Hsync) as Hd.
    destruct (handleDueAlarms handler w) as [[a|e] w' es]; by cbn in *.
Qed.

End ManagerSync.

Lemma filter_all {A} (P : A -> Prop) `{forall x, Decision (P x)} (l : list A) :
  (forall x, x ∈ l -> P x) -> filter P l = l.
Proof.
  induction l as [|x l IH]; intros Hl; [done|].
  rewrite filter_cons_True by (apply Hl; left).
  f_equal. apply IH. intros y Hy. apply Hl. by right.
Qed.

Section ManagerFacts.
Context `{JsonLib}.
Import AlarmManager.

Lemma schedule_stores_row_and_rearms_aux options w :
  ScheduleAlarmOptions.id options ∉ ids (alarms w) ->
  outcome (schedule options w) = Returned tt
  /\ alarms (world (schedule options w))
     = alarms w ++ [new_row options (clock w (ticks w))]
  /\ filter is_mutation (effects (schedule options w)) = [SqlExec (insert_stmt options w)]
  /\ in_sync (world (schedule options w)).
Proof.
  intros Hfresh. rewrite schedule_run by done. run_simpl.
  split_and!.
  - done.
  - by rewrite rescheduleNextAlarm_alarms.
  - by rewrite !list.filter_app, filter_mutation_rearm, filter_mutation_boot.
  - apply rearm_in_sync.
Qed.

Lemma cancel_facts i w :
  outcome (cancel i w) = Returned tt
  /\ alarms (world (cancel i w)) = filter (fun r => AlarmRecord.id r ≠ i) (alarms w)
  /\ filter is_mutation (effects (cancel i w)) = [SqlExec (DeleteAlarm i)].
Proof.
  rewrite cancel_run. case_bool_decide; run_simpl; split_and!; try done.
  - by rewrite rescheduleNextAlarm_alarms.
  - by rewrite !list.filter_app, filter_mutation_rearm, filter_mutation_boot.
  - by rewrite !list.filter_app, filter_mutation_boot.
Qed.

End ManagerFacts.

(** X8. [schedule] with an id that is not stored returns, appends exactly
    one row built from the options, the payload serialised and the creation
    time read from the clock, and leaves the manager naming an earliest
    stored row; the platform alarm keeps following the manager's recorded
    time. *)
Theorem schedule_stores_row_and_rearms `{JsonLib}
    (options : ScheduleAlarmOptions.t) (w : World) :
  let run := AlarmManager.schedule options w in
  ScheduleAlarmOptions.id options ∉ ids (alarms w) ->
  outcome run = Returned tt
  /\ alarms (world run) = alarms w ++ [new_row options (clock w (ticks w))]
  /\ filter is_mutation (effects run) = [SqlExec (insert_stmt options w)]
  /\ in_sync (world run)
  /\ (slot_follows w -> slot_follows (world run)).
Proof.
  intros run Hfresh. subst run. rewrite schedule_run by done. run_simpl.
  split_and!.
  - done.
  - by rewrite rescheduleNextAlarm_alarms.
  - by rewrite !list.filter_app, filter_mutation_rearm, filter_mutation_boot.
  - apply rearm_in_sync.
  - intros Hs. apply rearm_slot_follows. intros t Ht. by apply Hs.
Qed.

(** X8 on an empty table. *)
Lemma schedule_stores_row_and_rearms_witness :
  let run := AlarmManager.schedule (H := Json.lib) (options "A" "custom" 500 None)
               (cold_world 100 []) in
  outcome run = Returned tt
  /\ alarms (world run)
     = [new_row (H := Json.lib) (options "A" "custom" 500 None) 100]
  /\ in_sync (world run).
Proof.
  destruct (schedule_stores_row_and_rearms (H := Json.lib)
              (options "A" "custom" 500 None) (cold_world 100 []))
    as (Ho & Ha & _ & Hs & _).
  - cbn. set_solver.
  - split_and!; [exact Ho|exact Ha|exact Hs].
Defined.



(** X10. [cancel] never throws, issues one DELETE, removes the row of that
    id and no other, and keeps the manager naming an earliest stored row
    and the platform alarm following it; an id that is not stored changes
    nothing in the table. *)
Theorem cancel_removes_only_that_alarm `{JsonLib} (i : string) (w : World) :
  let run := AlarmManager.cancel i w in
  outcome run = Returned tt
  /\ alarms (world run) = filter (fun r => AlarmRecord.id r ≠ i) (alarms w)
  /\ (i ∉ ids (alarms (world run)))
  /\ (i ∉ ids (alarms w) -> alarms (world run) = alarms w)
  /\ filter is_mutation (effects run) = [SqlExec (DeleteAlarm i)]
  /\ (in_sync w -> in_sync (world run))
  /\ (slot_follows w -> slot_follows (world run)).
Proof.
  intros run.
  assert (alarms (world run) = filter (fun r => AlarmRecord.id r ≠ i) (alarms w)) as Htable.
  { subst run. rewrite cancel_run. case_bool_decide; run_simpl; [|done].
    by rewrite rescheduleNextAlarm_alarms. }
  split_and!.
  - subst run. rewrite cancel_run. by case_bool_decide.
  - done.
  - rewrite Htable. apply delete_removes_id.
  - intros Hout. rewrite Htable. apply filter_all.
    intros r Hr Hid. apply Hout. rewrite <- Hid. by apply elem_of_ids.
  - subst run. rewrite cancel_run.
    case_bool_decide; run_simpl;
      by rewrite !list.filter_app, ?filter_mutation_rearm, filter_mutation_boot.
  - apply cancel_in_sync.
  - intros Hs. subst run. rewrite cancel_run. case_bool_decide; run_simpl.
    + apply rearm_slot_follows. intros t Ht. by apply Hs.
    + intros t Ht. by apply Hs.
Qed.

(** X11. Scheduling a new id and cancelling it again restores the table,
    row for row, and the manager still names an earliest stored row. *)
Theorem schedule_then_cancel_restores_table `{JsonLib}
    (options : ScheduleAlarmOptions.t) (w : World) :
  let run := bind (AlarmManager.schedule options)
               (fun _ => AlarmManager.cancel (ScheduleAlarmOptions.id options)) w in
  ScheduleAlarmOptions.id options ∉ ids (alarms w) ->
  outcome run = Returned tt
  /\ alarms (world run) = alarms w
  /\ in_sync (world run)
  /\ filter is_mutation (effects run)
     = [SqlExec (insert_stmt options w);
        SqlExec (DeleteAlarm (ScheduleAlarmOptions.id options))].
Proof.
  intros run Hfresh. subst run.
  destruct (schedule_stores_row_and_rearms_aux options w Hfresh)
    as (Ho & Ha & Hm & Hs).
  rewrite (bind_Returned _ _ w tt Ho). run_simpl.
  set (w1 := world (AlarmManager.schedule options w)) in *.
  destruct (cancel_facts (ScheduleAlarmOptions.id options) w1) as (Hco & Hca & Hcm).
  split_and!.
  - done.
  - rewrite Hca, Ha, list.filter_app, filter_all.
    + rewrite filter_cons_False, filter_nil, app_nil_r; [done|]. by intros [].
    + intros r Hr Hid. apply Hfresh. rewrite <- Hid. by apply elem_of_ids.
  - by apply cancel_in_sync.
  - by rewrite list.filter_app, Hm, Hcm.
Qed.

(** X11 on an empty table. *)
Lemma schedule_then_cancel_restores_table_witness :
  alarms (world (bind (AlarmManager.schedule (H := Json.lib)
                         (options "A" "custom" 500 None))
                   (fun _ => AlarmManager.cancel "A") (cold_world 100 [])))
  = [].
Proof.
  destruct (schedule_then_cancel_restores_table (H := Json.lib)
              (options "A" "custom" 500 None) (cold_world 100 [])) as (_ & Ha & _).
  - cbn. set_solver.
  - exact Ha.
Defined.

(** X12. [cancelByType] never throws, issues one DELETE, removes exactly
    the rows of that type, keeping the others in order, and leaves the
    manager naming an earliest stored row. *)
Theorem cancelByType_removes_that_type `{JsonLib} (ty : string) (w : World) :
  let run := AlarmManager.cancelByType ty w in
  outcome run = Returned tt
  /\ alarms (world run) = filter (fun r => AlarmRecord.type r ≠ ty) (alarms w)
  /\ filter is_mutation (effects run) = [SqlExec (DeleteAlarmsByType ty)]
  /\ in_sync (world run)
  /\ (slot_follows w -> slot_follows (world run)).
Proof.
  intros run. subst run. rewrite cancelByType_run. run_simpl.
  split_and!.
  - done.
  - by rewrite rescheduleNextAlarm_alarms.
  - by rewrite !list.filter_app, filter_mutation_rearm, filter_mutation_boot.
  - apply rearm_in_sync.
  - intros Hs. apply rearm_slot_follows. intros t Ht. by apply Hs.
Qed.

(** X13. Whatever sequence of [schedule], [cancel], [cancelByType] and
    [handleDueAlarms] calls runs, with whatever handlers, and whichever of
    them throw, a manager that names an earliest stored row (or nothing, on
    an empty table) still does so afterwards. *)
Theorem manager_calls_keep_in_sync `{JsonLib} (cs : list ManagerCall) (w : World) :
  in_sync w -> in_sync (world (run_manager_calls cs w)).
Proof.
  revert w. induction cs as [|c cs IH]; intros w Hsync; [done|].
  cbn [run_manager_calls]. unfold bind at 1. cbv zeta.
  assert (in_sync (world (try_catch (run_manager_call c) (fun _ => ret tt) w))) as Hc.
  { pose proof (run_manager_call_in_sync c w Hsync) as Hc.
    unfold try_catch. destruct (run_manager_call c w) as [[a|e] w' es]; by cbn in *. }
  assert (exists a, outcome (try_catch (run_manager_call c) (fun _ => ret tt) w) = Returned a)
    as [a Ha].
  { unfold try_catch. destruct (run_manager_call c w) as [[a|e] w' es]; cbn; by eexists. }
  rewrite Ha. run_simpl. by apply IH.
Qed.

(** X13 on a schedule, a rejected duplicate, a drain and a cancel. *)
Lemma manager_calls_keep_in_sync_witness :
  in_sync (world (run_manager_calls (H := Json.lib)
                    [ManagerSchedule (options "A" "custom" 500 None);
                     ManagerSchedule (options "A" "custom" 700 None);
                     ManagerHandleDueAlarms accept;
                     ManagerCancel "A"]
                    (cold_world 100 []))).
Proof.
  apply (manager_calls_keep_in_sync (H := Json.lib)). by vm_compute.
Defined.

(** ** The drain, continued *)

Section DrainMore.
Context `{JsonLib}.
Import AlarmManager.

Lemma due_rows_none now table :
  Forall (fun r => now < AlarmRecord.scheduled_at r) table -> due_rows now table = [].
Proof.
  intros Hall. unfold due_rows. rewrite filter_none; [done|].
  intros r Hr Hdue. rewrite list.Forall_forall in Hall. specialize (Hall r Hr). lia.
Qed.

Lemma same_id_same_row table r1 r2 :
  NoDup (ids table) -> r1 ∈ table -> r2 ∈ table ->
  AlarmRecord.id r1 = AlarmRecord.id r2 -> r1 = r2.
Proof.
  intros Hnd H1 H2 Hid. pose proof (unique_row table r2 Hnd H2) as Hu.
  assert (r1 ∈ filter (fun x => AlarmRecord.id x = AlarmRecord.id r2) table) as Hin
    by by apply list_elem_of_filter.
  rewrite Hu in Hin. by apply list_elem_of_singleton in Hin.
Qed.

Lemma due_ids_are_due now table dueAlarms alarm :
  map_outcome parseAlarmRecord (due_rows now table) = Returned dueAlarms ->
  alarm ∈ dueAlarms ->
  exists r, r ∈ table /\ AlarmRecord.scheduled_at r ≤ now
            /\ AlarmRecord.id r = Alarm.id alarm.
Proof.
  intros Hall Ha. apply map_outcome_Returned in Hall.
  apply list_elem_of_lookup in Ha as [j Hj].
  destruct (Forall2_lookup_r _ _ _ _ _ Hall Hj) as (r & Hr & Hp).
  apply parseAlarmRecord_fields in Hp as (Hid & _).
  apply list_elem_of_lookup_2, elem_of_due_rows in Hr as [Hr Hd]. by exists r.
Qed.

End DrainMore.

(** X14. A drain at a time when no stored row is due returns the empty
    result list without calling the handler, without any mutating
    statement and without logging; the table is unchanged, whatever the
    payloads of the stored rows, and the manager names an earliest stored
    row afterwards. *)
Theorem drain_with_nothing_due `{JsonLib} (handler : AlarmManager.Handler) (w : World) :
  let now := clock w (ticks w) in
  let run := AlarmManager.handleDueAlarms handler w in
  Forall (fun r => now < AlarmRecord.scheduled_at r) (alarms w) ->
  outcome run = Returned []
  /\ filter is_step_or_log (effects run) = []
  /\ alarms (world run) = alarms w
  /\ in_sync (world run).
Proof.
  intros now run Hnone. subst run.
  assert (map_outcome AlarmManager.parseAlarmRecord (due_rows now (alarms w)) = Returned [])
    as Hall by by rewrite due_rows_none.
  rewrite (handleDueAlarms_run handler w [] Hall). fold now. run_simpl.
  split_and!.
  - done.
  - rewrite !list.filter_app, filter_boot, filter_rearm by done. by cbn.
  - by rewrite rescheduleNextAlarm_alarms.
  - apply rearm_in_sync.
Qed.

(** X14 on a table whose only row is due later and holds a payload that is
    not JSON. *)
Lemma drain_with_nothing_due_witness :
  let run := AlarmManager.handleDueAlarms (H := Json.lib) accept
               (cold_world 100 [one_shot "A" 500 (Some "oops")]) in
  outcome run = Returned []
  /\ alarms (world run) = [one_shot "A" 500 (Some "oops")].
Proof.
  destruct (drain_with_nothing_due (H := Json.lib) accept
              (cold_world 100 [one_shot "A" 500 (Some "oops")])) as (Ho & _ & Ha & _).
  - apply (bool_decide_unpack _). by vm_compute.
  - split; [exact Ho|exact Ha].
Defined.

(** X15. A drain whose handler leaves the table alone keeps every stored
    row that is not yet due, unchanged, when the ids are distinct and the
    due rows parse. *)
Theorem drain_keeps_rows_not_due `{JsonLib}
    (handler : AlarmManager.Handler) (w : World) (record : AlarmRecord.t) :
  let now := clock w (ticks w) in
  let run := AlarmManager.handleDueAlarms handler w in
  NoDup (ids (alarms w)) ->
  (forall r, r ∈ alarms w -> AlarmRecord.scheduled_at r ≤ now ->
             is_Returned (AlarmManager.parseAlarmRecord r)) ->
  handler_keeps_alarms handler ->
  record ∈ alarms w ->
  now < AlarmRecord.scheduled_at record ->
  record ∈ alarms (world run).
Proof.
  intros now run Hnd Hparse Hh Hin Hlater. subst run.
  destruct (map_outcome_total AlarmManager.parseAlarmRecord (due_rows now (alarms w)))
    as [dueAlarms Hall].
  { intros r [Hr Hd]%elem_of_due_rows. by apply Hparse. }
  rewrite (handleDueAlarms_run handler w dueAlarms Hall). fold now. run_simpl.
  rewrite rescheduleNextAlarm_alarms, handle_alarms_world, drain_table by done.
  cbn [entered booted set_initialized set_ticks alarms].
  apply statements_keep_other; [|done].
  intros alarm Ha Hid.
  destruct (due_ids_are_due _ _ _ _ Hall Ha) as (r & Hr & Hd & Hrid).
  assert (record = r) as -> by (apply (same_id_same_row (alarms w)); congruence).
  lia.
Qed.

(** X15 on [mixed_world], whose row "B" is due at 5000. *)
Lemma drain_keeps_rows_not_due_witness :
  one_shot "B" 5000 (Some "{}")
  ∈ alarms (world (AlarmManager.handleDueAlarms (H := Json.lib) accept mixed_world)).
Proof.
  apply (drain_keeps_rows_not_due (H := Json.lib) accept mixed_world).
  - apply (bool_decide_unpack _). by vm_compute.
  - intros r Hr _. simpl in Hr. set_unfold in Hr.
    destruct Hr as [->|[->|[->|[]]]]; by vm_compute.
  - by intros alarm w'.
  - simpl. set_solver.
  - by vm_compute.
Defined.

(** X16. In a drain over a table with distinct ids whose due rows parse, a
    due row whose [repeat_interval] is 0 is treated as a one-time alarm:
    the drain deletes it, reports [rescheduled = false] and
    [deleted = true], and, unless the handler inserts rows, the id is gone
    afterwards. *)
Theorem drain_deletes_alarm_with_zero_interval `{JsonLib}
    (handler : AlarmManager.Handler) (w : World) (record : AlarmRecord.t) :
  let now := clock w (ticks w) in
  let run := AlarmManager.handleDueAlarms handler w in
  NoDup (ids (alarms w)) ->
  (forall r, r ∈ alarms w -> AlarmRecord.scheduled_at r ≤ now ->
             is_Returned (AlarmManager.parseAlarmRecord r)) ->
  record ∈ alarms w ->
  AlarmRecord.scheduled_at record ≤ now ->
  AlarmRecord.repeat_interval record = Some 0 ->
  exists results,
    outcome run = Returned results
    /\ filter (fun res => AlarmHandleResult.id res = AlarmRecord.id record) results
       = [ {| AlarmHandleResult.id := AlarmRecord.id record;
              AlarmHandleResult.type := AlarmRecord.type record;
              AlarmHandleResult.rescheduled := false;
              AlarmHandleResult.deleted := true |} ]
    /\ filter (is_statement_for (AlarmRecord.id record)) (effects run)
       = [SqlExec (DeleteAlarm (AlarmRecord.id record))]
    /\ (handler_inserts_nothing handler ->
        AlarmRecord.id record ∉ ids (alarms (world run))).
Proof.
  intros now run Hnd Hparse Hin Hdue Hzero. subst run.
  destruct (map_outcome_total AlarmManager.parseAlarmRecord (due_rows now (alarms w)))
    as [dueAlarms Hall].
  { intros r [Hr Hd]%elem_of_due_rows. by apply Hparse. }
  destruct (parsed_elem _ _ record Hall) as (alarm & Ha & Hp);
    [by apply elem_of_due_rows|].
  pose proof (parseAlarmRecord_fields _ _ Hp) as (Hid & Hty & _ & Hrep & _).
  assert (Htruthy : AlarmManager.truthy_number (Alarm.repeatInterval alarm) = false)
    by (by rewrite Hrep, Hzero).
  assert (Hnd' : NoDup (Alarm.id <$> dueAlarms)).
  { rewrite (parsed_ids _ _ Hall). by apply NoDup_ids_due_rows. }
  rewrite (handleDueAlarms_run handler w dueAlarms Hall). fold now. run_simpl.
  exists (result_of <$> dueAlarms). split_and!; [done|..].
  - rewrite filter_fmap. cbn [result_of AlarmHandleResult.id].
    rewrite <- Hid, (unique_by_key Alarm.id dueAlarms alarm Hnd' Ha).
    cbn [fmap list_fmap]. unfold result_of. by rewrite Htruthy, Hty.
  - rewrite !list.filter_app, filter_boot, handle_alarms_statements_for, filter_rearm by done.
    rewrite <- Hid, (unique_by_key Alarm.id dueAlarms alarm Hnd' Ha).
    rewrite app_nil_r. cbn [fmap list_fmap app]. unfold mutation. by rewrite Htruthy.
  - intros Hh. rewrite rescheduleNextAlarm_alarms, handle_alarms_world, <- Hid.
    by apply drain_removes_one_shot.
Qed.

(** X16 on a table that holds one due row with interval 0. *)
Lemma drain_deletes_alarm_with_zero_interval_witness :
  exists results,
    outcome (AlarmManager.handleDueAlarms (H := Json.lib) accept
               (cold_world 1000 [recurring "Z" 900 0 None]))
    = Returned results
    /\ filter (fun res => AlarmHandleResult.id res = "Z") results
       = [ {| AlarmHandleResult.id := "Z";
              AlarmHandleResult.type := "cache-cleanup";
              AlarmHandleResult.rescheduled := false;
              AlarmHandleResult.deleted := true |} ].
Proof.
  destruct (drain_deletes_alarm_with_zero_interval (H := Json.lib) accept
              (cold_world 1000 [recurring "Z" 900 0 None]) (recurring "Z" 900 0 None))
    as (results & Ho & Hr & _).
  - apply (bool_decide_unpack _). by vm_compute.
  - intros r Hr _. simpl in Hr. set_unfold in Hr. destruct Hr as [->|[]]. by vm_compute.
  - simpl. set_solver.
  - by vm_compute.
  - reflexivity.
  - exists results. split; [exact Ho|exact Hr].
Defined.

(** X17. In a drain over a table with distinct ids whose due rows parse, a
    due row with a negative [repeat_interval] is rescheduled into the past:
    the drain reports it rescheduled, and, when the handler leaves the table
    alone, the stored row's deadline afterwards is the drain time plus the
    interval, which is before the drain time, so that the row is due again
    at once. *)
Theorem drain_reschedules_negative_interval_into_past `{JsonLib}
    (handler : AlarmManager.Handler) (w : World) (record : AlarmRecord.t) (k : Z) :
  let now := clock w (ticks w) in
  let run := AlarmManager.handleDueAlarms handler w in
  NoDup (ids (alarms w)) ->
  (forall r, r ∈ alarms w -> AlarmRecord.scheduled_at r ≤ now ->
             is_Returned (AlarmManager.parseAlarmRecord r)) ->
  handler_keeps_alarms handler ->
  record ∈ alarms w ->
  AlarmRecord.scheduled_at record ≤ now ->
  AlarmRecord.repeat_interval record = Some k ->
  k < 0 ->
  exists results stored,
    outcome run = Returned results
    /\ filter (fun res => AlarmHandleResult.id res = AlarmRecord.id record) results
       = [ {| AlarmHandleResult.id := AlarmRecord.id record;
              AlarmHandleResult.type := AlarmRecord.type record;
              AlarmHandleResult.rescheduled := true;
              AlarmHandleResult.deleted := false |} ]
    /\ filter (fun r => AlarmRecord.id r = AlarmRecord.id record) (alarms (world run))
       = [stored]
    /\ AlarmRecord.scheduled_at stored = now + k
    /\ AlarmRecord.scheduled_at stored < now
    /\ stored ∈ due_rows now (alarms (world run)).
Proof.
  intros now run Hnd Hparse Hh Hin Hdue Hrec Hk. subst run.
  destruct (map_outcome_total AlarmManager.parseAlarmRecord (due_rows now (alarms w)))
    as [dueAlarms Hall].
  { intros r [Hr Hd]%elem_of_due_rows. by apply Hparse. }
  destruct (parsed_elem _ _ record Hall) as (alarm & Ha & Hp);
    [by apply elem_of_due_rows|].
  pose proof (parseAlarmRecord_fields _ _ Hp) as (Hid & Hty & _ & Hrep & _).
  assert (Htruthy : AlarmManager.truthy_number (Alarm.repeatInterval alarm) = true).
  { rewrite Hrep, Hrec. simpl. apply negb_true_iff, Z.eqb_neq. lia. }
  assert (Hnd' : NoDup (Alarm.id <$> dueAlarms)).
  { rewrite (parsed_ids _ _ Hall). by apply NoDup_ids_due_rows. }
  rewrite (handleDueAlarms_run handler w dueAlarms Hall). fold now. run_simpl.
  rewrite rescheduleNextAlarm_alarms, handle_alarms_world, drain_table by done.
  cbn [entered booted set_initialized set_ticks alarms].
  pose proof (statements_update now dueAlarms (alarms w) alarm record
                Hnd' Ha Htruthy Hin (eq_sym Hid)) as Hup.
  unfold Sql.update_row, Sql.has_id in Hup.
  rewrite bool_decide_eq_true_2 in Hup by done.
  rewrite Hrep, Hrec in Hup. simpl in Hup.
  pose proof (statements_NoDup now dueAlarms (alarms w) Hnd) as Hnd2.
  eexists (result_of <$> dueAlarms), _. split_and!.
  - done.
  - rewrite filter_fmap. cbn [result_of AlarmHandleResult.id].
    rewrite <- Hid, (unique_by_key Alarm.id dueAlarms alarm Hnd' Ha).
    cbn [fmap list_fmap]. unfold result_of. by rewrite Htruthy, Hty.
  - by rewrite <- (unique_row _ _ Hnd2 Hup).
  - done.
  - cbn. lia.
  - apply elem_of_due_rows. split; [exact Hup|cbn; lia].
Qed.

(** X17 on a table that holds one due row with interval -5. *)
Lemma drain_reschedules_negative_interval_into_past_witness :
  exists stored,
    filter (fun r => AlarmRecord.id r = "N")
      (alarms (world (AlarmManager.handleDueAlarms (H := Json.lib) accept
                        (cold_world 1000 [recurring "N" 900 (-5) None])))) = [stored]
    /\ AlarmRecord.scheduled_at stored = 1000 + -5.
Proof.
  destruct (drain_reschedules_negative_interval_into_past (H := Json.lib) accept
              (cold_world 1000 [recurring "N" 900 (-5) None])
              (recurring "N" 900 (-5) None) (-5))
    as (results & stored & _ & _ & Hs & Ht & _).
  - apply (bool_decide_unpack _). by vm_compute.
  - intros r Hr _. simpl in Hr. set_unfold in Hr. destruct Hr as [->|[]]. by vm_compute.
  - by intros alarm w'.
  - simpl. set_solver.
  - by vm_compute.
  - reflexivity.
  - lia.
  - exists stored. split; [exact Hs|exact Ht].
Defined.

(** ** Recurring deadlines *)

Section DoubleFacts.
Import Double.

Lemma round_magnitude_small m : m < 2 ^ 53 -> round_magnitude m = m.
Proof. intros Hm. unfold round_magnitude. by rewrite (proj2 (Z.ltb_lt _ _)). Qed.

Lemma round_small z : Z.abs z < 2 ^ 53 -> round z = z.
Proof.
  intros Hz. unfold round. rewrite round_magnitude_small by done.
  by destruct z.
Qed.

Lemma of_Z_small z : Z.abs z < 2 ^ 53 -> of_Z z = Finite z.
Proof.
  intros Hz. unfold of_Z. rewrite round_small by done.
  assert (2 ^ 53 < 2 ^ 1024) by (apply Z.pow_lt_mono_r; lia).
  by rewrite (proj2 (Z.leb_gt _ _)) by lia.
Qed.

(** The spacing of the doubles at a magnitude of 2^53 or more. *)
Lemma spacing m :
  2 ^ 53 ≤ m ->
  let e := Z.log2 m - 52 in
  1 ≤ e /\ 2 ≤ 2 ^ e /\ 2 ^ 52 * 2 ^ e ≤ m < 2 ^ 53 * 2 ^ e.
Proof.
  intros Hm e.
  assert (0 < m) as Hpos by (pose proof (Z.pow_pos_nonneg 2 53); lia).
  pose proof (Z.log2_spec m Hpos) as [Hlo Hhi].
  assert (53 ≤ Z.log2 m) as Hlog by (apply Z.log2_le_pow2; lia).
  assert (1 ≤ e) as He by (subst e; lia).
  split; [done|]. split.
  - change 2 with (2 ^ 1) at 1. apply Z.pow_le_mono_r; lia.
  - rewrite <- !Z.pow_add_r by lia.
    replace (52 + e) with (Z.log2 m) by (subst e; lia).
    replace (53 + e) with (Z.succ (Z.log2 m)) by (subst e; lia). done.
Qed.

(** A magnitude of 2^53 or more is rounded to one of the two multiples of
    the spacing that enclose it, and upwards only when it is not one. *)
Lemma round_magnitude_cases m :
  2 ^ 53 ≤ m ->
  let u := 2 ^ (Z.log2 m - 52) in
  let q := m / u in
  q * u ≤ m < (q + 1) * u
  /\ 2 ^ 52 ≤ q
  /\ (round_magnitude m = q * u \/ (round_magnitude m = (q + 1) * u /\ q * u < m)).
Proof.
  intros Hm u q.
  destruct (spacing m Hm) as (He & Hu & Hlo & Hhi). fold u in Hu, Hlo, Hhi.
  assert (0 < u) as Hupos by lia.
  pose proof (Z.div_mod m u ltac:(lia)) as Hdm. fold q in Hdm.
  pose proof (Z.mod_pos_bound m u Hupos) as Hmod.
  assert (2 ^ 52 ≤ q) as Hq.
  { subst q. apply Z.div_le_lower_bound; lia. }
  split; [nia|]. split; [done|].
  unfold round_magnitude. rewrite (proj2 (Z.ltb_ge _ _)) by done. cbv zeta.
  fold u. fold q.
  assert (0 < 2 ^ (Z.log2 m - 52 - 1)) as Hhalf by (apply Z.pow_pos_nonneg; lia).
  destruct (Z.ltb_spec (m mod u) (2 ^ (Z.log2 m - 52 - 1))); [by left|].
  destruct (Z.ltb_spec (2 ^ (Z.log2 m - 52 - 1)) (m mod u)); [right; split; [done|nia]|].
  destruct (Z.even q); [by left|]. right. split; [done|nia].
Qed.

Lemma round_magnitude_nonneg m : 0 ≤ m -> 0 ≤ round_magnitude m.
Proof.
  intros Hm. destruct (Z.lt_ge_cases m (2 ^ 53)) as [Hs|Hb].
  - by rewrite round_magnitude_small.
  - destruct (round_magnitude_cases m Hb) as (Hq & Hq52 & [->|[-> _]]).
    + assert (0 < 2 ^ (Z.log2 m - 52)) by (destruct (spacing m Hb); lia).
      pose proof (Z.pow_pos_nonneg 2 52). nia.
    + assert (0 < 2 ^ (Z.log2 m - 52)) by (destruct (spacing m Hb); lia).
      pose proof (Z.pow_pos_nonneg 2 52). nia.
Qed.

(** A double of magnitude 2^53 or more is a multiple of the spacing at its
    magnitude. *)
Lemma fixed_point_multiple n :
  2 ^ 53 ≤ n -> round_magnitude n = n -> exists c, n = c * 2 ^ (Z.log2 n - 52).
Proof.
  intros Hn Hfix. destruct (round_magnitude_cases n Hn) as (_ & _ & [Hr|[Hr _]]);
    rewrite Hfix in Hr; eauto.
Qed.

Lemma next_multiple_le (k q u m : Z) :
  0 < u -> q * u < m -> m ≤ k * u -> (q + 1) * u ≤ k * u.
Proof. intros Hu Hlo Hhi. assert (q < k) by nia. nia. Qed.

Lemma multiple_below_le (c q u m : Z) :
  0 < u -> c * u ≤ m -> m < (q + 1) * u -> c * u ≤ q * u.
Proof. intros Hu Hlo Hhi. assert (c < q + 1) by nia. nia. Qed.

(** Rounding does not pass a double that lies above. *)
Lemma round_magnitude_le m n :
  0 ≤ m -> m ≤ n -> round_magnitude n = n -> round_magnitude m ≤ n.
Proof.
  intros Hm Hle Hfix. destruct (Z.lt_ge_cases m (2 ^ 53)) as [Hs|Hb].
  { by rewrite round_magnitude_small. }
  destruct (round_magnitude_cases m Hb) as (Hq & _ & [->|[-> Hstrict]]); [lia|].
  destruct (fixed_point_multiple n ltac:(lia) Hfix) as [c Hc].
  destruct (spacing m Hb) as (He & Hu & _). destruct (spacing n ltac:(lia)) as (Hen & _).
  assert (Z.log2 m ≤ Z.log2 n) as Hlog by (apply Z.log2_le_mono; lia).
  set (u := 2 ^ (Z.log2 m - 52)) in *.
  assert (2 ^ (Z.log2 n - 52) = 2 ^ (Z.log2 n - Z.log2 m) * u) as Hsplit.
  { subst u. rewrite <- Z.pow_add_r by lia. f_equal. lia. }
  rewrite Hsplit in Hc.
  set (k := c * 2 ^ (Z.log2 n - Z.log2 m)).
  assert (n = k * u) as Hn by (subst k; lia).
  rewrite Hn. apply (next_multiple_le k (m / u) u m); lia.
Qed.

(** Rounding does not pass a double that lies below. *)
Lemma round_magnitude_ge m n :
  0 ≤ n -> n ≤ m -> round_magnitude n = n -> n ≤ round_magnitude m.
Proof.
  intros Hn Hle Hfix. destruct (Z.lt_ge_cases m (2 ^ 53)) as [Hs|Hb].
  { by rewrite round_magnitude_small. }
  destruct (round_magnitude_cases m Hb) as (Hq & Hq52 & Hr).
  destruct (spacing m Hb) as (He & Hu & Hlo & Hhi).
  set (u := 2 ^ (Z.log2 m - 52)) in *.
  assert (2 ^ 52 * u ≤ m / u * u) as Hfloor by (apply Z.mul_le_mono_nonneg_r; lia).
  assert (n ≤ m / u * u) as Hbelow.
  { destruct (Z.lt_ge_cases n (2 ^ 53)) as [Hns|Hnb].
    { assert (2 ^ 53 ≤ 2 ^ 52 * u) as Hone; [|lia].
      change (2 ^ 53) with (2 ^ 52 * 2). apply Z.mul_le_mono_nonneg_l; lia. }
    destruct (fixed_point_multiple n Hnb Hfix) as [c Hc].
    destruct (spacing n Hnb) as (Hen & Hun & Hnlo & Hnhi).
    assert (Z.log2 n ≤ Z.log2 m) as Hlog by (apply Z.log2_le_mono; lia).
    destruct (Z.eq_dec (Z.log2 n) (Z.log2 m)) as [Heq|Hne].
    - rewrite Heq in Hc. fold u in Hc. rewrite Hc.
      apply (multiple_below_le c (m / u) u m); lia.
    - assert (2 ^ 53 * 2 ^ (Z.log2 n - 52) ≤ 2 ^ 52 * u) as Hstep; [|lia].
      subst u. rewrite <- !Z.pow_add_r by lia. apply Z.pow_le_mono_r; lia. }
  assert (m / u * u ≤ (m / u + 1) * u) by lia.
  destruct Hr as [->|[-> _]]; lia.
Qed.

Lemma round_le x y : x ≤ y -> round y = y -> round x ≤ y.
Proof.
  intros Hle Hfix. unfold round in *.
  destruct (Z.lt_trichotomy x 0) as [Hx|[->|Hx]].
  - rewrite Z.sgn_neg, Z.abs_neq by lia.
    pose proof (round_magnitude_nonneg (- x) ltac:(lia)) as Hnn.
    destruct (Z.lt_trichotomy y 0) as [Hy|[->|Hy]]; [|lia|lia].
    rewrite Z.sgn_neg, Z.abs_neq in Hfix by lia.
    pose proof (round_magnitude_ge (- x) (- y) ltac:(lia) ltac:(lia) ltac:(lia)). lia.
  - cbn. lia.
  - rewrite Z.sgn_pos, Z.abs_eq by lia. rewrite Z.sgn_pos, Z.abs_eq in Hfix by lia.
    pose proof (round_magnitude_le x y ltac:(lia) ltac:(lia) ltac:(lia)). lia.
Qed.

(** Adding to a double gives nothing above a double that bounds the exact
    sum. *)
Lemma of_Z_le x y :
  x ≤ y -> representable y ->
  of_Z x = NegInfinity \/ exists x', of_Z x = Finite x' /\ x' ≤ y.
Proof.
  intros Hle Hy. unfold representable, of_Z in *. cbv zeta in *.
  destruct (Z.leb_spec (2 ^ 1024) (Z.abs (round y))) as [|Hfin]; [by destruct (0 <? y)|].
  assert (round y = y) as Hfix by congruence. rewrite Hfix in Hfin.
  pose proof (round_le x y Hle Hfix) as Hr.
  destruct (Z.leb_spec (2 ^ 1024) (Z.abs (round x))) as [Hinf|]; [|right; eauto].
  destruct (Z.ltb_spec 0 x) as [Hpos|]; [|by left].
  exfalso.
  assert (round x = round_magnitude x) as Hrx.
  { unfold round. rewrite Z.sgn_pos, Z.abs_eq by lia. lia. }
  rewrite Hrx in *. pose proof (round_magnitude_nonneg x ltac:(lia)).
  set (big := 2 ^ 1024) in *. lia.
Qed.

End DoubleFacts.

Lemma next_recurring_loop_steps n fuel next interval now :
  (forall m, (m < n)%nat -> next + Z.of_nat m * interval < now) ->
  now ≤ next + Z.of_nat n * interval ->
  (forall m, (0 < m <= n)%nat -> Z.abs (next + Z.of_nat m * interval) < 2 ^ 53) ->
  (n <= fuel)%nat ->
  next_recurring_loop fuel (Double.Finite next) interval now
  = Some (Double.Finite (next + Z.of_nat n * interval)).
Proof.
  revert fuel next. induction n as [|n IH]; intros fuel next Hbelow Hreach Hexact Hfuel.
  - destruct fuel; cbn [next_recurring_loop Double.ltb];
      rewrite (proj2 (Z.ltb_ge _ _)) by lia; do 2 f_equal; lia.
  - destruct fuel as [|fuel]; [lia|]. cbn [next_recurring_loop Double.ltb Double.add].
    rewrite (proj2 (Z.ltb_lt _ _)) by (specialize (Hbelow 0%nat); lia).
    rewrite of_Z_small by (specialize (Hexact 1%nat); rewrite Z.mul_1_l in Hexact;
                           apply Hexact; lia).
    rewrite (IH fuel (next + interval)); [do 2 f_equal; lia| | | |lia].
    + intros m Hm. specialize (Hbelow (S m)). lia.
    + lia.
    + intros m Hm. specialize (Hexact (S m)).
      replace (next + interval + Z.of_nat m * interval)
        with (next + Z.of_nat (S m) * interval) by lia.
      apply Hexact. lia.
Qed.

Lemma next_recurring_loop_stuck fuel next interval now bound :
  interval ≤ 0 -> bound < now -> Double.representable bound ->
  match next with
  | Double.Finite z => z ≤ bound
  | Double.NegInfinity => True
  | Double.PosInfinity => False
  end ->
  next_recurring_loop fuel next interval now = None.
Proof.
  intros Hi Hlt Hbound. revert next.
  induction fuel as [|fuel IH]; intros next Hnext; cbn [next_recurring_loop].
  - destruct next as [z| |]; cbn [Double.ltb]; [|done|done].
    by rewrite (proj2 (Z.ltb_lt _ _)) by lia.
  - destruct next as [z| |]; cbn [Double.ltb Double.add]; [|done|by apply IH].
    rewrite (proj2 (Z.ltb_lt _ _)) by lia. apply IH.
    destruct (of_Z_le (z + interval) bound ltac:(lia) Hbound) as [->|(z' & -> & Hz')];
      done.
Qed.

Lemma periods_until_spec baseTime interval now :
  0 < interval ->
  let n := Z.of_nat (periods_until baseTime interval now) in
  now ≤ baseTime + n * interval
  /\ forall m, 0 ≤ m < n -> baseTime + m * interval < now.
Proof.
  intros Hi n. subst n. unfold periods_until.
  set (q := (now - baseTime + interval - 1) / interval).
  pose proof (Z.div_mod (now - baseTime + interval - 1) interval ltac:(lia)) as Hdm.
  pose proof (Z.mod_pos_bound (now - baseTime + interval - 1) interval Hi) as Hmod.
  fold q in Hdm.
  destruct (Z.le_gt_cases 0 q) as [Hq|Hq].
  - rewrite Z2Nat.id by done. split; [nia|]. intros m Hm. nia.
  - replace (Z.to_nat q) with 0%nat by lia. split; [nia|]. intros m Hm. lia.
Qed.

(** X18. For a positive interval, a base of magnitude below 2^53 and
    [now + interval] at most 2^53, so that every sum is exact,
    [calculateNextRecurringAlarm] returns, after [periods_until] iterations,
    the first time of the form [baseTime + n * interval] that is not before
    [now]: it is at or after [now], every earlier period is before [now], it
    is [baseTime] itself when [baseTime] is not before [now], and otherwise
    it is less than one interval after [now]. With [now] omitted the clock
    is read once. *)
Theorem calculateNextRecurringAlarm_first_period_not_before_now
    (fuel : nat) (baseTime interval : Z) (now : option Z) (w : World) :
  let t := default (clock w (ticks w)) now in
  let n := periods_until baseTime interval t in
  let run := calculateNextRecurringAlarm fuel baseTime interval now w in
  0 < interval ->
  Z.abs baseTime < 2 ^ 53 ->
  t + interval ≤ 2 ^ 53 ->
  (n <= fuel)%nat ->
  outcome run = Returned (Some (Double.Finite (baseTime + Z.of_nat n * interval)))
  /\ t ≤ baseTime + Z.of_nat n * interval
  /\ (forall m, (m < n)%nat -> baseTime + Z.of_nat m * interval < t)
  /\ (t ≤ baseTime -> n = 0%nat)
  /\ (baseTime < t -> baseTime + Z.of_nat n * interval < t + interval)
  /\ ticks (world run) = (if now is Some _ then ticks w else S (ticks w))
  /\ effects run = [].
Proof.
  intros t n run Hi Hbase Hnow Hfuel.
  destruct (periods_until_spec baseTime interval t Hi) as [Hreach Hbelow].
  fold n in Hreach, Hbelow.
  assert (forall m, (m < n)%nat -> baseTime + Z.of_nat m * interval < t) as Hbelow'
    by (intros m Hm; apply Hbelow; lia).
  assert (next_recurring_loop fuel (Double.Finite baseTime) interval t
          = Some (Double.Finite (baseTime + Z.of_nat n * interval))) as Hloop.
  { apply next_recurring_loop_steps; [done|done| |done].
    intros m Hm. specialize (Hbelow' (m - 1)%nat ltac:(lia)).
    set (B := 2 ^ 53) in *. nia. }
  split_and!.
  - subst run t. unfold calculateNextRecurringAlarm, bind.
    destruct now as [t0|]; cbn in *; by rewrite Hloop.
  - done.
  - done.
  - intros Hle. destruct n as [|n']; [done|]. specialize (Hbelow' 0%nat). lia.
  - intros Hlt. destruct n as [|n']; [lia|].
    specialize (Hbelow' n'). lia.
  - subst run. unfold calculateNextRecurringAlarm, bind. by destruct now.
  - subst run. unfold calculateNextRecurringAlarm, bind. by destruct now.
Qed.

(** X18 for a base of 1000 and an interval of 300 at time 1700. *)
Lemma calculateNextRecurringAlarm_first_period_not_before_now_witness :
  outcome (calculateNextRecurringAlarm 10 1000 300 (Some 1700) (cold_world 0 []))
  = Returned (Some (Double.Finite 1900)).
Proof.
  destruct (calculateNextRecurringAlarm_first_period_not_before_now
              10 1000 300 (Some 1700) (cold_world 0 [])) as (Ho & _).
  - lia.
  - by vm_compute.
  - by vm_compute.
  - vm_compute. lia.
  - exact Ho.
Defined.

(** X19. For an interval that is zero or negative and a base, a finite
    double, before [now], the loop of [calculateNextRecurringAlarm] never
    ends: no number of iterations yields a result, whether the sums are
    exact, are rounded or overflow. *)
Theorem calculateNextRecurringAlarm_never_returns
    (fuel : nat) (baseTime interval now : Z) (w : World) :
  Double.representable baseTime ->
  interval ≤ 0 -> baseTime < now ->
  outcome (calculateNextRecurringAlarm fuel baseTime interval (Some now) w) = Returned None.
Proof.
  intros Hbase Hi Hlt. unfold calculateNextRecurringAlarm, bind. cbn.
  by rewrite (next_recurring_loop_stuck fuel (Double.Finite baseTime) interval now baseTime).
Qed.

(** X19 for an interval of 0. *)
Lemma calculateNextRecurringAlarm_never_returns_witness :
  outcome (calculateNextRecurringAlarm 1000 5 0 (Some 10) (cold_world 0 [])) = Returned None.
Proof.
  apply calculateNextRecurringAlarm_never_returns; [by vm_compute|lia|lia].
Defined.

(** ** The alarm scheduler, continued *)

Section SchedulerRuns.
Context `{JsonLib}.
Import AlarmScheduler.

Lemma filter_console_error_schedule options w :
  ScheduleAlarmOptions.id options ∉ ids (alarms w) ->
  filter is_console_error (effects (AlarmManager.schedule options w)) = [].
Proof.
  intros Hfresh. rewrite schedule_run by done. run_simpl.
  by rewrite !list.filter_app, filter_boot, filter_rearm.
Qed.

Lemma filter_console_error_cancel i w :
  filter is_console_error (effects (AlarmManager.cancel i w)) = [].
Proof.
  rewrite cancel_run. case_bool_decide; run_simpl;
    by rewrite !list.filter_app, ?filter_rearm, filter_boot.
Qed.

Lemma bind_pure {A B} (m : M A) (k : A -> M B) w a w' :
  m w = MkRun (Returned a) w' [] -> bind m k w = k a w'.
Proof. unfold bind. intros ->. cbn. by destruct (k a w'). Qed.

Lemma alarms_with_object ref m w : alarms (with_object ref m w) = alarms w.
Proof. done. Qed.

Lemma in_sync_with_object ref m w : in_sync (with_object ref m w) <-> in_sync w.
Proof. done. Qed.

Lemma scheduler_schedule_run source target event delay id w :
  let base := set_ticks (S (S (ticks w))) w in
  let entries := <[event_key source id
                   := scheduled_entry source target event delay id (clock w (ticks w))]>
                   (index w) in
  schedule source target event delay id w
  = try_catch
      (AlarmManager.schedule
         (scheduled_options source target event delay id (clock w (S (ticks w)))))
      (fun error =>
         let* _ := console_error "[AlarmScheduler] Error scheduling alarm:" error in
         Map_delete scheduledEventsMap (event_key source id))
      (with_object scheduledEventsMap entries base).
Proof.
  intros base entries. unfold schedule.
  rewrite (bind_pure Date_now _ w (clock w (ticks w)) (set_ticks (S (ticks w)) w) eq_refl).
  rewrite (bind_pure (Map_set _ _ _) _ _ tt
             (with_object scheduledEventsMap entries (set_ticks (S (ticks w)) w)) eq_refl).
  by rewrite (bind_pure Date_now _
                (with_object scheduledEventsMap entries (set_ticks (S (ticks w)) w))
                (clock w (S (ticks w)))
                (with_object scheduledEventsMap entries base) eq_refl).
Qed.

Lemma scheduler_cancel_run source id w :
  let inner := AlarmManager.cancel (alarm_id_of (event_key source id)) w in
  cancel source id w
  = MkRun (Returned tt)
      (with_object scheduledEventsMap (delete (event_key source id) (index w)) (world inner))
      (effects inner).
Proof.
  intros inner. subst inner. unfold cancel.
  rewrite (bind_pure (Map_delete _ _) _ w tt
             (with_object scheduledEventsMap (delete (event_key source id) (index w)) w)
             eq_refl).
  unfold cancel_alarm, try_catch. cbv zeta.
  rewrite !(ignores_manager_cancel AlarmScheduler.scheduledEventsMap). run_simpl.
  destruct (cancel_facts (alarm_id_of (event_key source id)) w) as (Ho & _).
  unfold alarm_id_of, event_key in *. by rewrite Ho.
Qed.

End SchedulerRuns.

Section SchedulerFacts.
Context `{JsonLib}.
Import AlarmScheduler.

Lemma scheduler_schedule_facts source target event delay id w :
  let run := schedule source target event delay id w in
  alarm_id_of (event_key source id) ∉ ids (alarms w) ->
  outcome run = Returned tt
  /\ index (world run)
     = <[event_key source id
         := scheduled_entry source target event delay id (clock w (ticks w))]> (index w)
  /\ alarms (world run)
     = alarms w
       ++ [new_row (scheduled_options source target event delay id (clock w (S (ticks w))))
             (clock w (S (S (ticks w))))]
  /\ filter is_console_error (effects run) = [].
Proof.
  intros run Hfresh. subst run. rewrite scheduler_schedule_run. cbv zeta.
  set (options := scheduled_options _ _ _ _ _ _).
  set (base := set_ticks _ w). set (entries := <[_ := _]> (index w)).
  unfold try_catch. cbv zeta.
  rewrite !(ignores_manager_schedule AlarmScheduler.scheduledEventsMap). run_simpl.
  destruct (schedule_stores_row_and_rearms_aux options base Hfresh) as (Ho & Ha & _ & Hs).
  rewrite Ho. run_simpl. split_and!.
  - done.
  - apply contents_with_object.
  - exact Ha.
  - by apply filter_console_error_schedule.
Qed.

End SchedulerFacts.

(** X20. The scheduler's [schedule], when no alarm row with the id
    [xstate-<source session>.<id>] is stored, returns without logging an
    error, writes the index entry under [<source session>.<id>] with
    [startedAt] the first clock reading, and appends one alarm row of type
    ["xstate-delay"], not recurring, due at the second clock reading plus
    the delay. *)
Theorem scheduler_schedule_writes_entry_and_row `{JsonLib}
    (source target : AlarmScheduler.ActorRef) (event : JsonValue) (delay : Z) (id : string)
    (w : World) :
  let run := AlarmScheduler.schedule source target event delay id w in
  let key := event_key source id in
  alarm_id_of key ∉ ids (alarms w) ->
  outcome run = Returned tt
  /\ index (world run)
     = <[key := scheduled_entry source target event delay id (clock w (ticks w))]> (index w)
  /\ alarms (world run)
     = alarms w
       ++ [new_row (scheduled_options source target event delay id (clock w (S (ticks w))))
             (clock w (S (S (ticks w))))]
  /\ filter is_console_error (effects run) = []
  /\ in_sync (world run).
Proof.
  intros run key Hfresh. subst run. rewrite scheduler_schedule_run. cbv zeta.
  set (options := scheduled_options _ _ _ _ _ _).
  set (base := set_ticks _ w). set (entries := <[_ := _]> (index w)).
  unfold try_catch. cbv zeta.
  rewrite !(ignores_manager_schedule AlarmScheduler.scheduledEventsMap). run_simpl.
  destruct (schedule_stores_row_and_rearms_aux options base Hfresh) as (Ho & Ha & _ & Hs).
  rewrite Ho. run_simpl. split_and!.
  - done.
  - apply contents_with_object.
  - exact Ha.
  - by apply filter_console_error_schedule.
  - exact Hs.
Qed.

(** X20 on an empty table and an empty index. *)
Lemma scheduler_schedule_writes_entry_and_row_witness :
  let run := AlarmScheduler.schedule (H := Json.lib) session1 session1 (JObject []) 50 "k"
               (ticking_world [1000; 1001; 1002] 2000) in
  outcome run = Returned tt
  /\ AlarmRecord.scheduled_at <$> alarms (world run) = [1051].
Proof.
  destruct (scheduler_schedule_writes_entry_and_row (H := Json.lib)
              session1 session1 (JObject []) 50 "k" (ticking_world [1000; 1001; 1002] 2000))
    as (Ho & _ & Ha & _).
  - cbn. set_solver.
  - split; [exact Ho|]. by rewrite Ha.
Defined.

(** X21. The scheduler's [schedule], when an alarm row with the id
    [xstate-<source session>.<id>] is already stored, does not throw: it
    logs the rejection once, leaves the table as it was, and the index
    holds no entry under that key afterwards, also when it held one
    before. *)
Theorem scheduler_schedule_duplicate_drops_entry `{JsonLib}
    (source target : AlarmScheduler.ActorRef) (event : JsonValue) (delay : Z) (id : string)
    (w : World) :
  let run := AlarmScheduler.schedule source target event delay id w in
  let key := event_key source id in
  alarm_id_of key ∈ ids (alarms w) ->
  outcome run = Returned tt
  /\ index (world run) = delete key (index w)
  /\ index (world run) !! key = None
  /\ alarms (world run) = alarms w
  /\ filter is_console_error (effects run)
     = [ConsoleError "[AlarmScheduler] Error scheduling alarm:"
          (SqliteConstraint "UNIQUE constraint failed: alarms.id")].
Proof.
  intros run key Hdup. subst run. rewrite scheduler_schedule_run. cbv zeta.
  set (options := scheduled_options _ _ _ _ _ _).
  set (base := set_ticks _ w). set (entries := <[_ := _]> (index w)).
  unfold try_catch. cbv zeta.
  rewrite !(ignores_manager_schedule AlarmScheduler.scheduledEventsMap). run_simpl.
  rewrite !(schedule_duplicate_run options base Hdup). run_simpl.
  unfold bind, console_error, emit, AlarmScheduler.Map_delete, modify.
  run_simpl; cbn [app].
  assert (index (set_maps
            (<[AlarmScheduler.scheduledEventsMap
               := delete (event_key source id)
                    (AlarmScheduler.contents AlarmScheduler.scheduledEventsMap
                       (with_object AlarmScheduler.scheduledEventsMap entries
                          (set_ticks (S (ticks base)) (booted base))))]>
               (maps (with_object AlarmScheduler.scheduledEventsMap entries
                        (set_ticks (S (ticks base)) (booted base)))))
            (with_object AlarmScheduler.scheduledEventsMap entries
               (set_ticks (S (ticks base)) (booted base))))
          = delete key (index w)) as Hindex.
  { unfold index at 1. rewrite contents_set_maps, contents_with_object.
    subst entries. apply delete_insert_eq. }
  split_and!.
  - done.
  - exact Hindex.
  - rewrite Hindex. apply lookup_delete_eq.
  - done.
  - rewrite !list.filter_app, filter_boot by done. by cbn.
Qed.

(** X21 on a second [schedule] under the same key. *)
Lemma scheduler_schedule_duplicate_drops_entry_witness :
  let once := world (AlarmScheduler.schedule (H := Json.lib) session1 session1 (JObject [])
                       50 "k" (ticking_world [] 1000)) in
  let run := AlarmScheduler.schedule (H := Json.lib) session1 session1 (JObject []) 70 "k"
               once in
  outcome run = Returned tt
  /\ index (world run) !! "s1.k" = None.
Proof.
  destruct (scheduler_schedule_duplicate_drops_entry (H := Json.lib)
              session1 session1 (JObject []) 70 "k"
              (world (AlarmScheduler.schedule (H := Json.lib) session1 session1 (JObject [])
                        50 "k" (ticking_world [] 1000))))
    as (Ho & _ & Hk & _).
  - apply (bool_decide_unpack _). by vm_compute.
  - split; [exact Ho|exact Hk].
Defined.

(** X22. The scheduler's [cancel] never throws and never logs: it removes
    the index entry under [<source session>.<id>], no other entry, and the
    alarm row [xstate-<source session>.<id>], no other row. *)
Theorem scheduler_cancel_removes_entry_and_row `{JsonLib}
    (source : AlarmScheduler.ActorRef) (id : string) (w : World) :
  let run := AlarmScheduler.cancel source id w in
  let key := event_key source id in
  outcome run = Returned tt
  /\ index (world run) = delete key (index w)
  /\ alarms (world run) = filter (fun r => AlarmRecord.id r ≠ alarm_id_of key) (alarms w)
  /\ filter is_console_error (effects run) = []
  /\ (in_sync w -> in_sync (world run)).
Proof.
  intros run key. subst run. rewrite scheduler_cancel_run. run_simpl.
  destruct (cancel_facts (alarm_id_of key) w) as (_ & Ha & _).
  split_and!.
  - done.
  - apply contents_with_object.
  - exact Ha.
  - apply filter_console_error_cancel.
  - intros Hsync. by apply (cancel_in_sync (alarm_id_of key)) in Hsync.
Qed.

(** X23. [schedule] followed by [cancel] of the same source and id, when
    neither the index entry nor the alarm row existed before, restores both
    the index and the table. *)
Theorem scheduler_schedule_then_cancel_restores `{JsonLib}
    (source target : AlarmScheduler.ActorRef) (event : JsonValue) (delay : Z) (id : string)
    (w : World) :
  let run := bind (AlarmScheduler.schedule source target event delay id)
               (fun _ => AlarmScheduler.cancel source id) w in
  let key := event_key source id in
  index w !! key = None ->
  alarm_id_of key ∉ ids (alarms w) ->
  outcome run = Returned tt
  /\ index (world run) = index w
  /\ alarms (world run) = alarms w
  /\ filter is_console_error (effects run) = [].
Proof.
  intros run key Hkey Hfresh. subst run key.
  pose proof (scheduler_schedule_facts source target event delay id w Hfresh)
    as (Ho & Hi & Ha & He).
  rewrite (bind_Returned _ _ w tt Ho). run_simpl.
  set (w1 := world (AlarmScheduler.schedule source target event delay id w)) in *.
  rewrite scheduler_cancel_run. run_simpl.
  destruct (cancel_facts (alarm_id_of (event_key source id)) w1) as (_ & Hca & _).
  split_and!.
  - done.
  - unfold index at 1. rewrite contents_with_object, Hi, delete_insert_eq.
    by apply delete_id.
  - rewrite alarms_with_object, Hca, Ha, list.filter_app, filter_all.
    + rewrite filter_cons_False, filter_nil, app_nil_r; [done|]. by intros [].
    + intros r Hr Hid. apply Hfresh. rewrite <- Hid. by apply elem_of_ids.
  - by rewrite list.filter_app, He, filter_console_error_cancel.
Qed.

(** X23 on an empty table and an empty index. *)
Lemma scheduler_schedule_then_cancel_restores_witness :
  let run := bind (AlarmScheduler.schedule (H := Json.lib) session1 session1 (JObject []) 50 "k")
               (fun _ => AlarmScheduler.cancel session1 "k") (ticking_world [] 1000) in
  index (world run) = index (ticking_world [] 1000)
  /\ alarms (world run) = [].
Proof.
  destruct (scheduler_schedule_then_cancel_restores (H := Json.lib)
              session1 session1 (JObject []) 50 "k" (ticking_world [] 1000))
    as (_ & Hi & Ha & _).
  - reflexivity.
  - cbn. set_solver.
  - split; [exact Hi|exact Ha].
Defined.

Section SchedulerSweep.
Context `{JsonLib}.
Import AlarmScheduler.

Lemma cancel_key_run key w :
  let inner := AlarmManager.cancel (alarm_id_of key) w in
  (let* _ := Map_delete scheduledEventsMap key in cancel_alarm key) w
  = MkRun (Returned tt)
      (with_object scheduledEventsMap (delete key (index w)) (world inner))
      (effects inner).
Proof.
  intros inner. subst inner.
  rewrite (bind_pure (Map_delete _ _) _ w tt
             (with_object scheduledEventsMap (delete key (index w)) w) eq_refl).
  unfold cancel_alarm, try_catch. cbv zeta.
  rewrite !(ignores_manager_cancel scheduledEventsMap). run_simpl.
  destruct (cancel_facts (alarm_id_of key) w) as (Ho & _).
  unfold alarm_id_of in *. by rewrite Ho.
Qed.

Lemma cancel_events_cons key rest w :
  let first := (let* _ := Map_delete scheduledEventsMap key in cancel_alarm key) w in
  cancel_events (key :: rest) w
  = MkRun (outcome (cancel_events rest (world first)))
      (world (cancel_events rest (world first)))
      (effects first ++ effects (cancel_events rest (world first))).
Proof.
  intros first. subst first. cbn [cancel_events].
  rewrite cancel_key_run. run_simpl.
  rewrite (bind_pure (Map_delete _ _) _ w tt
             (with_object scheduledEventsMap (delete key (index w)) w) eq_refl).
  pose proof (cancel_key_run key w) as Hkey. cbv zeta in Hkey.
  rewrite (bind_pure (Map_delete _ _) _ w tt
             (with_object scheduledEventsMap (delete key (index w)) w) eq_refl) in Hkey.
  unfold bind. cbv zeta. rewrite !Hkey. run_simpl.
  by destruct (outcome (cancel_events rest _)).
Qed.

Lemma filter_filter_ids (i : string) (others : list string) (table : list AlarmRecord.t) :
  filter (fun r => AlarmRecord.id r ∉ others) (filter (fun r => AlarmRecord.id r ≠ i) table)
  = filter (fun r => AlarmRecord.id r ∉ i :: others) table.
Proof.
  rewrite list_filter_filter. apply list_filter_iff. intros r. set_solver.
Qed.

Lemma cancel_events_run keys w :
  let run := cancel_events keys w in
  outcome run = Returned tt
  /\ index (world run) = foldl (fun m key => delete key m) (index w) keys
  /\ alarms (world run)
     = filter (fun r => AlarmRecord.id r ∉ (alarm_id_of <$> keys)) (alarms w)
  /\ filter is_console_error (effects run) = []
  /\ (in_sync w -> in_sync (world run)).
Proof.
  revert w. induction keys as [|key rest IH]; intros w run; subst run.
  { cbn [cancel_events ret outcome world effects foldl fmap list_fmap].
    split_and!; try done. symmetry. apply filter_all. intros r _. apply not_elem_of_nil. }
  rewrite cancel_events_cons. cbv zeta. rewrite cancel_key_run. run_simpl.
  set (inner := AlarmManager.cancel (alarm_id_of key) w).
  set (w1 := with_object scheduledEventsMap (delete key (index w)) (world inner)).
  destruct (IH w1) as (Ho & Hi & Ha & He & Hs).
  destruct (cancel_facts (alarm_id_of key) w) as (_ & Hca & _). fold inner in Hca.
  split_and!.
  - done.
  - rewrite Hi. cbn [foldl]. f_equal. apply contents_with_object.
  - rewrite Ha. subst w1. rewrite alarms_with_object, Hca, fmap_cons.
    apply filter_filter_ids.
  - rewrite list.filter_app, He. subst inner.
    by rewrite filter_console_error_cancel.
  - intros Hsync. apply Hs. subst w1. apply in_sync_with_object.
    by apply cancel_in_sync.
Qed.

Lemma lookup_foldl_delete (m : MapObject) (keys : list string) (k : string) :
  foldl (fun m key => delete key m) m keys !! k
  = if decide (k ∈ keys) then None else m !! k.
Proof.
  revert m. induction keys as [|key rest IH]; intros m; cbn [foldl].
  { by rewrite decide_False by apply not_elem_of_nil. }
  rewrite IH. destruct (decide (k ∈ rest)) as [Hin|Hout].
  - by rewrite decide_True by by right.
  - destruct (decide (k = key)) as [->|Hne].
    + rewrite decide_True by by left. apply lookup_delete_eq.
    + rewrite decide_False by set_solver. by apply lookup_delete_ne.
Qed.

Lemma elem_of_session_keys actorRef (m : MapObject) k :
  k ∈ session_keys actorRef m <-> exists v, m !! k = Some v /\ of_session actorRef (k, v).
Proof.
  unfold session_keys. rewrite list_elem_of_fmap. split.
  - intros ([k' v] & -> & [Hp Hin]%list_elem_of_filter).
    apply elem_of_map_to_list in Hin. by exists v.
  - intros (v & Hv & Hp). exists (k, v). split; [done|].
    apply list_elem_of_filter. split; [done|]. by apply elem_of_map_to_list.
Qed.

Lemma sweep_session actorRef (m : MapObject) :
  foldl (fun m key => delete key m) m (session_keys actorRef m)
  = filter (fun entry => ~ of_session actorRef entry) m.
Proof.
  apply map_eq. intros k. rewrite lookup_foldl_delete. apply option_eq. intros v.
  rewrite map_lookup_filter_Some.
  destruct (decide (k ∈ session_keys actorRef m)) as [Hin|Hout].
  - apply elem_of_session_keys in Hin as (v' & Hv' & Hp). split; [done|].
    intros [Hv Hnp]. rewrite Hv in Hv'. by simplify_eq.
  - split.
    + intros Hv. split; [done|]. intros Hp. apply Hout, elem_of_session_keys. by exists v.
    + by intros [Hv _].
Qed.

Lemma cancelAll_run actorRef w :
  cancelAll actorRef w = cancel_events (session_keys actorRef (index w)) w.
Proof.
  unfold cancelAll.
  by rewrite (bind_pure (Map_entries _) _ w (map_to_list (index w)) w eq_refl).
Qed.

End SchedulerSweep.

(** X24. [cancelAll] never throws and never logs: afterwards the index
    holds exactly the entries of the other sessions, unchanged, and the
    table has lost exactly the rows [xstate-<key>] of the removed entries,
    the others keeping their order. *)
Theorem cancelAll_removes_events_of_session `{JsonLib}
    (actorRef : AlarmScheduler.ActorRef) (w : World) :
  let run := AlarmScheduler.cancelAll actorRef w in
  outcome run = Returned tt
  /\ index (world run) = filter (fun entry => ~ of_session actorRef entry) (index w)
  /\ alarms (world run)
     = filter (fun r => AlarmRecord.id r
                        ∉ (alarm_id_of <$> session_keys actorRef (index w)))
         (alarms w)
  /\ filter is_console_error (effects run) = []
  /\ (in_sync w -> in_sync (world run)).
Proof.
  intros run. subst run. rewrite cancelAll_run.
  destruct (cancel_events_run (session_keys actorRef (index w)) w) as (Ho & Hi & Ha & He & Hs).
  split_and!; try done.
  rewrite Hi. apply sweep_session.
Qed.

(** X25. [handleXStateAlarm] never throws: it removes the index entry of
    the event before it delivers, delivers the event exactly once, through
    the relay when the actor's system has one and through [send] otherwise,
    never both, and logs once exactly when the delivery throws. *)
Theorem handleXStateAlarm_delivers_once
    (alarmData : XStateAlarmData.t) (actor : AlarmScheduler.Actor) (w : World) :
  let run := AlarmScheduler.handleXStateAlarm alarmData actor w in
  let event := XStateAlarmData.event alarmData in
  let seen := with_object AlarmScheduler.scheduledEventsMap
                (delete (XStateAlarmData.scheduledEventId alarmData) (index w)) w in
  let deliver := if AlarmScheduler.has_relay actor
                 then AlarmScheduler.relay actor else AlarmScheduler.send actor in
  outcome run = Returned tt
  /\ index seen !! XStateAlarmData.scheduledEventId alarmData = None
  /\ world run = snd (deliver event seen)
  /\ filter is_delivery (effects run)
     = [if AlarmScheduler.has_relay actor then Relay event else Send event]
  /\ filter is_console_error (effects run)
     = match fst (deliver event seen) with
       | Threw e => [ConsoleError "[AlarmScheduler] Error handling XState alarm:" e]
       | Returned _ => []
       end.
Proof.
  intros run event seen deliver. subst run.
  unfold AlarmScheduler.handleXStateAlarm.
  rewrite (bind_pure (AlarmScheduler.Map_delete _ _) _ w tt seen eq_refl).
  fold event. unfold try_catch, AlarmScheduler.call_actor, console_error, emit. cbv zeta.
  subst deliver.
  assert (index seen !! XStateAlarmData.scheduledEventId alarmData = None) as Hseen.
  { unfold index. subst seen. rewrite contents_with_object. apply lookup_delete_eq. }
  destruct (AlarmScheduler.has_relay actor).
  - destruct (AlarmScheduler.relay actor event seen) as [[[]|e] w'] eqn:Hd;
      (split; [by cbn|split; [exact Hseen|by cbn]]).
  - destruct (AlarmScheduler.send actor event seen) as [[[]|e] w'] eqn:Hd;
      (split; [by cbn|split; [exact Hseen|by cbn]]).
Qed.

(** ** Stored rows and their alarms *)

(** X26. After [schedule] of a new id whose payload survives
    [JSON.stringify] followed by [JSON.parse], [getPendingAlarms] returns,
    when the rows stored before parse, one alarm more than there were rows,
    among them the scheduled alarm with the id, type, deadline, interval and
    payload of the options. *)
Theorem schedule_then_getPendingAlarms_returns_alarm `{JsonLib}
    (options : ScheduleAlarmOptions.t) (w : World) :
  let run := bind (AlarmManager.schedule options)
               (fun _ => AlarmManager.getPendingAlarms) w in
  ScheduleAlarmOptions.id options ∉ ids (alarms w) ->
  JSON_parse (JSON_stringify (ScheduleAlarmOptions.payload options))
  = Some (ScheduleAlarmOptions.payload options) ->
  JSON_stringify (ScheduleAlarmOptions.payload options) ≠ "" ->
  (forall r, r ∈ alarms w -> is_Returned (AlarmManager.parseAlarmRecord r)) ->
  exists found,
    outcome run = Returned found
    /\ length found = S (length (alarms w))
    /\ {| Alarm.id := ScheduleAlarmOptions.id options;
          Alarm.type := ScheduleAlarmOptions.type options;
          Alarm.scheduledAt := ScheduleAlarmOptions.scheduledAt options;
          Alarm.repeatInterval := ScheduleAlarmOptions.repeatInterval options;
          Alarm.payload := ScheduleAlarmOptions.payload options;
          Alarm.createdAt := clock w (ticks w) |} ∈ found.
Proof.
  intros run Hfresh Hround Hne Hparse. subst run.
  destruct (schedule_stores_row_and_rearms_aux options w Hfresh) as (Ho & Ha & _).
  rewrite (bind_Returned _ _ w tt Ho). run_simpl.
  set (w1 := world (AlarmManager.schedule options w)) in *.
  rewrite getPendingAlarms_run. run_simpl. rewrite Ha.
  set (row := new_row options (clock w (ticks w))).
  assert (AlarmManager.parseAlarmRecord row
          = Returned {| Alarm.id := ScheduleAlarmOptions.id options;
                        Alarm.type := ScheduleAlarmOptions.type options;
                        Alarm.scheduledAt := ScheduleAlarmOptions.scheduledAt options;
                        Alarm.repeatInterval := ScheduleAlarmOptions.repeatInterval options;
                        Alarm.payload := ScheduleAlarmOptions.payload options;
                        Alarm.createdAt := clock w (ticks w) |}) as Hrow.
  { unfold AlarmManager.parseAlarmRecord, row, new_row. cbn.
    rewrite bool_decide_eq_false_2 by done. cbn. by rewrite Hround. }
  destruct (map_outcome_total AlarmManager.parseAlarmRecord
              (Sql.order_by_scheduled_at (alarms w ++ [row]))) as [found Hall].
  { intros r Hr. rewrite order_by_scheduled_at_Permutation in Hr.
    apply elem_of_app in Hr as [Hr|Hr%list_elem_of_singleton]; [by apply Hparse|].
    subst r. by rewrite Hrow. }
  exists found. split_and!.
  - by rewrite Hall.
  - apply map_outcome_Returned, Forall2_length in Hall.
    rewrite <- Hall, order_by_scheduled_at_Permutation, length_app. cbn. lia.
  - destruct (parsed_elem _ _ row Hall) as (alarm & Hin & Hp).
    { rewrite order_by_scheduled_at_Permutation. set_solver. }
    rewrite Hrow in Hp. by simplify_eq.
Qed.

(** X26 on an empty table. *)
Lemma schedule_then_getPendingAlarms_returns_alarm_witness :
  exists found,
    outcome (bind (AlarmManager.schedule (H := Json.lib) (options "A" "custom" 500 (Some 60)))
               (fun _ => AlarmManager.getPendingAlarms (H := Json.lib)) (cold_world 100 []))
    = Returned found
    /\ length found = 1%nat.
Proof.
  destruct (schedule_then_getPendingAlarms_returns_alarm (H := Json.lib)
              (options "A" "custom" 500 (Some 60)) (cold_world 100 []))
    as (found & Ho & Hlen & _).
  - cbn. set_solver.
  - by vm_compute.
  - by vm_compute.
  - intros r Hr. cbn in Hr. by apply elem_of_nil in Hr.
  - exists found. split; [exact Ho|exact Hlen].
Defined.

(** X27. [updateAlarm] never throws and never adds or removes a row: the
    row with the id of the options gets their deadline, interval and
    serialised payload and keeps its own type and creation time, whatever
    type the options name; every other row is unchanged; an id that is not
    stored changes nothing. *)
Theorem updateAlarm_rewrites_only_that_row `{JsonLib}
    (options : ScheduleAlarmOptions.t) (w : World) :
  let run := AlarmManager.updateAlarm options w in
  outcome run = Returned tt
  /\ ids (alarms (world run)) = ids (alarms w)
  /\ (forall r, r ∈ alarms w -> AlarmRecord.id r ≠ ScheduleAlarmOptions.id options ->
                r ∈ alarms (world run))
  /\ (forall r, r ∈ alarms w -> AlarmRecord.id r = ScheduleAlarmOptions.id options ->
        {| AlarmRecord.id := AlarmRecord.id r;
           AlarmRecord.type := AlarmRecord.type r;
           AlarmRecord.scheduled_at := ScheduleAlarmOptions.scheduledAt options;
           AlarmRecord.repeat_interval := ScheduleAlarmOptions.repeatInterval options;
           AlarmRecord.payload :=
             Some (JSON_stringify (ScheduleAlarmOptions.payload options));
           AlarmRecord.created_at := AlarmRecord.created_at r |} ∈ alarms (world run))
  /\ (ScheduleAlarmOptions.id options ∉ ids (alarms w) -> alarms (world run) = alarms w)
  /\ currentAlarmId (world run) = currentAlarmId w
  /\ currentAlarmTime (world run) = currentAlarmTime w
  /\ do_alarm (world run) = do_alarm w.
Proof.
  intros run. subst run. unfold AlarmManager.updateAlarm.
  rewrite updateAlarm_run. cbv zeta. run_simpl.
  set (f := Sql.update_row _ _ _ _).
  assert (alarms (set_alarms (f <$> alarms w) (booted w)) = f <$> alarms w) as -> by done.
  split_and!; try done.
  - apply ids_update.
  - intros r Hr Hne. apply list_elem_of_fmap. exists r. split; [|done].
    subst f. unfold Sql.update_row, Sql.has_id. by rewrite bool_decide_eq_false_2.
  - intros r Hr Hid. apply list_elem_of_fmap. exists r. split; [|done].
    subst f. unfold Sql.update_row, Sql.has_id. by rewrite bool_decide_eq_true_2.
  - intros Hout. rewrite <- (list_fmap_id (alarms w)) at 2. apply list_fmap_ext.
    intros _ r Hr%list_elem_of_lookup_2. subst f. unfold Sql.update_row, Sql.has_id.
    rewrite bool_decide_eq_false_2; [done|].
    intros Hid. apply Hout. rewrite <- Hid. by apply elem_of_ids.
Qed.

(** ** The actor metadata and snapshot tables *)

Section TableRuns.
Context `{JsonLib}.
Import Sql ActorKitStorage ActorKitStorageTables.

Lemma as_SnapshotRecord_row r :
  as_SnapshotRecord (object_of_row snapshot_columns (row_of_snapshot r)) = Returned r.
Proof. destruct r as [i text [c|] updated]; reflexivity. Qed.

Lemma map_as_SnapshotRecord rs :
  map_outcome as_SnapshotRecord (object_of_row snapshot_columns <$> (row_of_snapshot <$> rs))
  = Returned rs.
Proof.
  induction rs as [|r rs IH]; [done|].
  rewrite !fmap_cons. cbn [map_outcome]. by rewrite as_SnapshotRecord_row, IH.
Qed.

Lemma as_ActorMetaRecord_row r :
  as_ActorMetaRecord (object_of_row actor_meta_columns (row_of_actor_meta r)) = Returned r.
Proof. by destruct r. Qed.

Lemma map_as_ActorMetaRecord rs :
  map_outcome as_ActorMetaRecord
    (object_of_row actor_meta_columns <$> (row_of_actor_meta <$> rs))
  = Returned rs.
Proof.
  induction rs as [|r rs IH]; [done|].
  rewrite !fmap_cons. cbn [map_outcome]. by rewrite as_ActorMetaRecord_row, IH.
Qed.

Lemma bind_boot {A} (k : unit -> M A) w :
  bind ensureInitialized k w
  = MkRun (outcome (k tt (booted w))) (world (k tt (booted w)))
      (boot_effects w ++ effects (k tt (booted w))).
Proof.
  rewrite (bind_Returned _ _ w tt) by by rewrite ensureInitialized_run.
  by rewrite !ensureInitialized_run.
Qed.

(** What a SELECT on one of the two tables gives after [parseRows] and the
    cast, whatever the shape of the driver. *)
Lemma read_rows {R A} (cols : list string) (row_of : R -> list JsValue)
    (cast : JsObject -> Outcome R) (rs : list R) (k : list R -> M A) w :
  cols ≠ [] ->
  map_outcome cast (object_of_row cols <$> (row_of <$> rs)) = Returned rs ->
  (let* result := hand_out cols (row_of <$> rs) in
   let* objects := lift (parseRows result) in
   let* rows := lift (map_outcome cast objects) in
   k rows) w
  = k rs w.
Proof.
  intros Hcols Hcast.
  rewrite (bind_pure (hand_out _ _) _ w (encode (driver w) cols (row_of <$> rs)) w eq_refl).
  rewrite parseRows_encode by done.
  rewrite (bind_pure (lift _) _ w (object_of_row cols <$> (row_of <$> rs)) w eq_refl).
  rewrite Hcast.
  by rewrite (bind_pure (lift _) _ w rs w eq_refl).
Qed.

Lemma getSnapshot_run actorId table w :
  getSnapshot actorId table w
  = MkRun
      (match filter (fun r => SnapshotRecord.actor_id r = actorId) table with
       | [] => Returned None
       | row :: _ =>
           match JSON_parse (SnapshotRecord.snapshot row) with
           | Some snapshot =>
               Returned (Some {| Snapshot.actorId := SnapshotRecord.actor_id row;
                                 Snapshot.snapshot := snapshot;
                                 Snapshot.checksum := SnapshotRecord.checksum row |})
           | None => Threw (SyntaxError (SnapshotRecord.snapshot row))
           end
       end)
      (booted w) (boot_effects w).
Proof.
  unfold getSnapshot. rewrite bind_boot.
  rewrite !(read_rows snapshot_columns row_of_snapshot as_SnapshotRecord)
    by (done || apply map_as_SnapshotRecord).
  destruct (filter _ table) as [|row rest]; [by rewrite app_nil_r|].
  destruct (JSON_parse (SnapshotRecord.snapshot row)); by rewrite app_nil_r.
Qed.

Lemma setSnapshot_run actorId snapshot checksum table w :
  setSnapshot actorId snapshot checksum table w
  = MkRun
      (Returned (upsert_snapshot
                   {| SnapshotRecord.actor_id := actorId;
                      SnapshotRecord.snapshot := JSON_stringify snapshot;
                      SnapshotRecord.checksum := checksum;
                      SnapshotRecord.updated_at := clock w (ticks w) |}
                   table))
      (set_ticks (S (ticks w)) (booted w)) (boot_effects w).
Proof.
  unfold setSnapshot. rewrite bind_boot.
  rewrite !(bind_pure Date_now _ (booted w) (clock w (ticks w))
              (set_ticks (S (ticks w)) (booted w)) eq_refl).
  by rewrite app_nil_r.
Qed.

Lemma deleteSnapshot_run actorId table w :
  deleteSnapshot actorId table w
  = MkRun (Returned (filter (fun r => SnapshotRecord.actor_id r ≠ actorId) table))
      (booted w) (boot_effects w).
Proof. unfold deleteSnapshot. rewrite bind_boot. by rewrite app_nil_r. Qed.

Lemma getActorMeta_run actorId table w :
  getActorMeta actorId table w
  = MkRun
      (match (if negb (AlarmManager.truthy_string actorId) then take 1 table
              else filter (fun r => ActorMetaRecord.actor_id r = default "" actorId) table)
       with
       | [] => Returned None
       | row :: _ =>
           match meta_of_row row with
           | Returned meta => Returned (Some meta)
           | Threw e => Threw e
           end
       end)
      (booted w) (boot_effects w).
Proof.
  unfold getActorMeta. rewrite bind_boot.
  destruct (negb (AlarmManager.truthy_string actorId));
    rewrite !(read_rows actor_meta_columns row_of_actor_meta as_ActorMetaRecord)
      by (done || apply map_as_ActorMetaRecord);
    match goal with
    | |- context [match ?l with [] => _ | _ :: _ => _ end] =>
        destruct l as [|row rest]; [by rewrite app_nil_r|]
    end;
    unfold bind, lift; cbv zeta; run_simpl;
    destruct (meta_of_row row); by rewrite ?app_nil_r.
Qed.

Lemma setActorMeta_run meta table w :
  setActorMeta meta table w
  = MkRun
      (Returned (upsert_actor_meta
                   {| ActorMetaRecord.actor_id := ActorMeta.actorId meta;
                      ActorMetaRecord.actor_type := ActorMeta.actorType meta;
                      ActorMetaRecord.initial_caller :=
                        JSON_stringify (ActorMeta.initialCaller meta);
                      ActorMetaRecord.input := JSON_stringify (ActorMeta.input meta);
                      ActorMetaRecord.created_at := clock w (ticks w);
                      ActorMetaRecord.updated_at := clock w (ticks w) |}
                   table))
      (set_ticks (S (ticks w)) (booted w)) (boot_effects w).
Proof.
  unfold setActorMeta. rewrite bind_boot.
  rewrite !(bind_pure Date_now _ (booted w) (clock w (ticks w))
              (set_ticks (S (ticks w)) (booted w)) eq_refl).
  by rewrite app_nil_r.
Qed.

Lemma deleteActorMeta_run actorId table w :
  deleteActorMeta actorId table w
  = MkRun (Returned (filter (fun r => ActorMetaRecord.actor_id r ≠ actorId) table))
      (booted w) (boot_effects w).
Proof. unfold deleteActorMeta. rewrite bind_boot. by rewrite app_nil_r. Qed.

(** *** The upsert statements *)

Lemma upsert_snapshot_ids row table :
  snapshot_ids (upsert_snapshot row table)
  = if decide (SnapshotRecord.actor_id row ∈ snapshot_ids table) then snapshot_ids table
    else snapshot_ids table ++ [SnapshotRecord.actor_id row].
Proof.
  unfold upsert_snapshot, snapshot_ids.
  destruct (existsb _ table) eqn:Hex.
  - apply existsb_exists in Hex as (r & Hr%list_elem_of_In & Hid%bool_decide_eq_true).
    rewrite decide_True by (rewrite <- Hid; by apply list_elem_of_fmap_2).
    rewrite <- list_fmap_compose. apply list_fmap_ext. intros _ x _. cbn.
    by case_bool_decide.
  - rewrite decide_False; [by rewrite fmap_app|].
    intros (r & Hid & Hr)%list_elem_of_fmap.
    apply not_true_iff_false in Hex. apply Hex, existsb_exists.
    exists r. split; [by apply list_elem_of_In|]. by apply bool_decide_eq_true.
Qed.

Lemma upsert_snapshot_head row table :
  head (filter (fun r => SnapshotRecord.actor_id r = SnapshotRecord.actor_id row)
          (upsert_snapshot row table))
  = Some row.
Proof.
  unfold upsert_snapshot. destruct (existsb _ table) eqn:Hex.
  - induction table as [|x table IH]; [done|]. cbn [existsb] in Hex.
    rewrite fmap_cons. case_bool_decide as Hx.
    + rewrite filter_cons_True by done. cbn. f_equal. destruct row; cbn in *. by subst.
    + rewrite filter_cons_False by done. apply IH. by rewrite orb_false_l in Hex.
  - rewrite list.filter_app, filter_none.
    + by rewrite filter_cons_True.
    + intros r Hr Hid. apply not_true_iff_false in Hex. apply Hex, existsb_exists.
      exists r. split; [by apply list_elem_of_In|]. by apply bool_decide_eq_true.
Qed.

Lemma upsert_snapshot_others row table other :
  other ≠ SnapshotRecord.actor_id row ->
  filter (fun r => SnapshotRecord.actor_id r = other) (upsert_snapshot row table)
  = filter (fun r => SnapshotRecord.actor_id r = other) table.
Proof.
  intros Hne. unfold upsert_snapshot. destruct (existsb _ table).
  - induction table as [|x table IH]; [done|]. rewrite fmap_cons.
    case_bool_decide as Hx.
    + rewrite !filter_cons_False by (cbn; congruence). apply IH.
    + destruct (decide (SnapshotRecord.actor_id x = other)).
      * rewrite !filter_cons_True by done. by rewrite IH.
      * rewrite !filter_cons_False by done. apply IH.
  - rewrite list.filter_app, filter_cons_False by (cbn; congruence).
    by rewrite filter_nil, app_nil_r.
Qed.

Lemma upsert_actor_meta_ids row table :
  actor_ids (upsert_actor_meta row table)
  = if decide (ActorMetaRecord.actor_id row ∈ actor_ids table) then actor_ids table
    else actor_ids table ++ [ActorMetaRecord.actor_id row].
Proof.
  unfold upsert_actor_meta, actor_ids.
  destruct (existsb _ table) eqn:Hex.
  - apply existsb_exists in Hex as (r & Hr%list_elem_of_In & Hid%bool_decide_eq_true).
    rewrite decide_True by (rewrite <- Hid; by apply list_elem_of_fmap_2).
    rewrite <- list_fmap_compose. apply list_fmap_ext. intros _ x _. cbn.
    by case_bool_decide.
  - rewrite decide_False; [by rewrite fmap_app|].
    intros (r & Hid & Hr)%list_elem_of_fmap.
    apply not_true_iff_false in Hex. apply Hex, existsb_exists.
    exists r. split; [by apply list_elem_of_In|]. by apply bool_decide_eq_true.
Qed.

Lemma upsert_actor_meta_fresh row table :
  ActorMetaRecord.actor_id row ∉ actor_ids table ->
  upsert_actor_meta row table = table ++ [row].
Proof.
  intros Hout. unfold upsert_actor_meta. destruct (existsb _ table) eqn:Hex; [|done].
  apply existsb_exists in Hex as (r & Hr%list_elem_of_In & Hid%bool_decide_eq_true).
  destruct Hout. rewrite <- Hid. by apply list_elem_of_fmap_2.
Qed.

Lemma upsert_actor_meta_stored row table old :
  old ∈ table -> ActorMetaRecord.actor_id old = ActorMetaRecord.actor_id row ->
  upsert_actor_meta row table
  = (fun r =>
       if bool_decide (ActorMetaRecord.actor_id r = ActorMetaRecord.actor_id row) then
         {| ActorMetaRecord.actor_id := ActorMetaRecord.actor_id r;
            ActorMetaRecord.actor_type := ActorMetaRecord.actor_type row;
            ActorMetaRecord.initial_caller := ActorMetaRecord.initial_caller row;
            ActorMetaRecord.input := ActorMetaRecord.input row;
            ActorMetaRecord.created_at := ActorMetaRecord.created_at r;
            ActorMetaRecord.updated_at := ActorMetaRecord.updated_at row |}
       else r) <$> table.
Proof.
  intros Hin Hid. unfold upsert_actor_meta. destruct (existsb _ table) eqn:Hex; [done|].
  apply not_true_iff_false in Hex. destruct Hex. apply existsb_exists.
  exists old. split; [by apply list_elem_of_In|]. by apply bool_decide_eq_true.
Qed.

Lemma upsert_actor_meta_others row table r :
  r ∈ table -> ActorMetaRecord.actor_id r ≠ ActorMetaRecord.actor_id row ->
  r ∈ upsert_actor_meta row table.
Proof.
  intros Hr Hne. unfold upsert_actor_meta. destruct (existsb _ table).
  - apply list_elem_of_fmap. exists r. split; [|done]. by rewrite bool_decide_eq_false_2.
  - apply elem_of_app. by left.
Qed.

Lemma upsert_actor_meta_head row table :
  exists stored,
    head (filter (fun r => ActorMetaRecord.actor_id r = ActorMetaRecord.actor_id row)
            (upsert_actor_meta row table)) = Some stored
    /\ ActorMetaRecord.actor_id stored = ActorMetaRecord.actor_id row
    /\ ActorMetaRecord.actor_type stored = ActorMetaRecord.actor_type row
    /\ ActorMetaRecord.initial_caller stored = ActorMetaRecord.initial_caller row
    /\ ActorMetaRecord.input stored = ActorMetaRecord.input row.
Proof.
  unfold upsert_actor_meta. destruct (existsb _ table) eqn:Hex.
  - induction table as [|x table IH]; [done|]. cbn [existsb] in Hex.
    rewrite fmap_cons. case_bool_decide as Hx.
    + rewrite filter_cons_True by done. eexists. by split_and!.
    + rewrite filter_cons_False by done. apply IH. by rewrite orb_false_l in Hex.
  - exists row. rewrite list.filter_app, filter_none.
    + by rewrite filter_cons_True.
    + intros r Hr Hid. apply not_true_iff_false in Hex. apply Hex, existsb_exists.
      exists r. split; [by apply list_elem_of_In|]. by apply bool_decide_eq_true.
Qed.

End TableRuns.

(** X28. [setSnapshot] followed by [getSnapshot] of the same actor returns
    the snapshot and the checksum that were set, when the snapshot survives
    [JSON.stringify] and [JSON.parse]; the rows of other actors are not
    touched and the actor ids stay distinct. [deleteSnapshot] followed by
    [getSnapshot] returns null, whatever was stored. None of them throws. *)
Theorem snapshot_set_get_delete `{JsonLib}
    (actorId : string) (snapshot : JsonValue) (checksum : option string)
    (table : list SnapshotRecord.t) (w : World) :
  let stored := ActorKitStorageTables.setSnapshot actorId snapshot checksum table w in
  let deleted := ActorKitStorageTables.deleteSnapshot actorId table w in
  survives_json snapshot ->
  exists written removed,
    outcome stored = Returned written
    /\ outcome (ActorKitStorageTables.getSnapshot actorId written (world stored))
       = Returned (Some {| Snapshot.actorId := actorId;
                           Snapshot.snapshot := snapshot;
                           Snapshot.checksum := checksum |})
    /\ (forall other, other ≠ actorId ->
          filter (fun r => SnapshotRecord.actor_id r = other) written
          = filter (fun r => SnapshotRecord.actor_id r = other) table)
    /\ (NoDup (snapshot_ids table) -> NoDup (snapshot_ids written))
    /\ outcome deleted = Returned removed
    /\ outcome (ActorKitStorageTables.getSnapshot actorId removed (world deleted))
       = Returned None
    /\ (forall r, r ∈ table -> SnapshotRecord.actor_id r ≠ actorId -> r ∈ removed).
Proof.
  intros stored deleted Hjson. subst stored deleted.
  rewrite setSnapshot_run, deleteSnapshot_run. run_simpl.
  set (row := {| SnapshotRecord.actor_id := actorId;
                 SnapshotRecord.snapshot := JSON_stringify snapshot;
                 SnapshotRecord.checksum := checksum;
                 SnapshotRecord.updated_at := clock w (ticks w) |}).
  eexists _, _. split_and!; [done| | | |done| |].
  - rewrite getSnapshot_run. run_simpl.
    pose proof (upsert_snapshot_head row table) as Hhead. cbn in Hhead.
    destruct (filter _ (ActorKitStorageTables.upsert_snapshot row table)) as [|first rest];
      [done|].
    cbn in Hhead. simplify_eq. cbn. by rewrite Hjson.
  - intros other Hne. by apply upsert_snapshot_others.
  - intros Hnd. rewrite upsert_snapshot_ids. case_decide as Hin; [done|].
    apply NoDup_app. split_and!; [done| |apply NoDup_singleton].
    intros i Hi ->%list_elem_of_singleton. by apply Hin.
  - rewrite getSnapshot_run. run_simpl. rewrite filter_none; [done|].
    intros r [Hne _]%list_elem_of_filter Hid. by apply Hne.
  - intros r Hr Hne. by apply list_elem_of_filter.
Qed.

(** X28 for a snapshot that replaces a stored one. *)
Lemma snapshot_set_get_delete_witness :
  let table := [ {| SnapshotRecord.actor_id := "a1"; SnapshotRecord.snapshot := "[1]";
                    SnapshotRecord.checksum := None; SnapshotRecord.updated_at := 5 |} ] in
  exists written,
    outcome (ActorKitStorageTables.setSnapshot (H := Json.lib) "a1" (JArray [])
               (Some "c") table (cold_world 100 []))
    = Returned written
    /\ outcome (ActorKitStorageTables.getSnapshot (H := Json.lib) "a1" written
                  (world (ActorKitStorageTables.setSnapshot (H := Json.lib) "a1" (JArray [])
                            (Some "c") table (cold_world 100 []))))
       = Returned (Some {| Snapshot.actorId := "a1"; Snapshot.snapshot := JArray [];
                           Snapshot.checksum := Some "c" |}).
Proof.
  intros table.
  destruct (snapshot_set_get_delete (H := Json.lib) "a1" (JArray []) (Some "c") table
              (cold_world 100 [])) as (written & _ & Ho & Hg & _).
  - by vm_compute.
  - exists written. split; [exact Ho|exact Hg].
Defined.

(** X29. [setActorMeta] never throws and keeps the actor ids distinct: for
    an actor that is not stored it appends a row whose [created_at] and
    [updated_at] are the one clock reading; for a stored actor it replaces
    the type, caller, input and [updated_at] of its row and keeps its
    [created_at]; rows of other actors are not touched. [getActorMeta] of
    that id then returns the metadata that was set, when the id is not empty
    and the caller and the input survive [JSON.stringify] and
    [JSON.parse]. *)
Theorem setActorMeta_upserts `{JsonLib}
    (meta : ActorMeta.t) (table : list ActorMetaRecord.t) (w : World) :
  let stored := ActorKitStorageTables.setActorMeta meta table w in
  let now := clock w (ticks w) in
  let row created :=
    {| ActorMetaRecord.actor_id := ActorMeta.actorId meta;
       ActorMetaRecord.actor_type := ActorMeta.actorType meta;
       ActorMetaRecord.initial_caller := JSON_stringify (ActorMeta.initialCaller meta);
       ActorMetaRecord.input := JSON_stringify (ActorMeta.input meta);
       ActorMetaRecord.created_at := created;
       ActorMetaRecord.updated_at := now |} in
  exists written,
    outcome stored = Returned written
    /\ (NoDup (actor_ids table) -> NoDup (actor_ids written))
    /\ (ActorMeta.actorId meta ∉ actor_ids table -> written = table ++ [row now])
    /\ (forall old, old ∈ table -> ActorMetaRecord.actor_id old = ActorMeta.actorId meta ->
          row (ActorMetaRecord.created_at old) ∈ written
          /\ length written = length table)
    /\ (forall r, r ∈ table -> ActorMetaRecord.actor_id r ≠ ActorMeta.actorId meta ->
          r ∈ written)
    /\ (ActorMeta.actorId meta ≠ "" ->
        survives_json (ActorMeta.initialCaller meta) ->
        survives_json (ActorMeta.input meta) ->
        outcome (ActorKitStorageTables.getActorMeta (Some (ActorMeta.actorId meta)) written
                   (world stored))
        = Returned (Some meta)).
Proof.
  intros stored now row. subst stored. rewrite setActorMeta_run. run_simpl.
  fold now. change (ActorMetaRecord.Build_t _ _ _ _ now now) with (row now).
  eexists. split_and!; [done|..].
  - intros Hnd. rewrite upsert_actor_meta_ids. case_decide as Hin; [done|].
    apply NoDup_app. split_and!; [done| |apply NoDup_singleton].
    intros i Hi ->%list_elem_of_singleton. by apply Hin.
  - intros Hout. by apply upsert_actor_meta_fresh.
  - intros old Hold Hid. rewrite (upsert_actor_meta_stored (row now) table old Hold Hid).
    split; [|by rewrite length_fmap].
    apply list_elem_of_fmap. exists old. split; [|done].
    rewrite bool_decide_eq_true_2 by done. subst row. cbn. by rewrite Hid.
  - intros r Hr Hne. by apply upsert_actor_meta_others.
  - intros Hne Hcaller Hinput. rewrite getActorMeta_run. run_simpl.
    assert (negb (AlarmManager.truthy_string (Some (ActorMeta.actorId meta))) = false) as ->.
    { cbn. by rewrite bool_decide_eq_false_2. }
    destruct (upsert_actor_meta_head (row now) table)
      as (first & Hhead & Hid & Hty & Hc & Hi).
    cbn [default]. cbn in Hhead.
    destruct (filter _ (ActorKitStorageTables.upsert_actor_meta (row now) table))
      as [|first' rest]; [done|].
    cbn in Hhead. simplify_eq.
    unfold ActorKitStorageTables.meta_of_row. rewrite Hc, Hi, Hid, Hty. cbn.
    rewrite Hcaller, Hinput. by destruct meta.
Qed.

(** X30. [getActorMeta] called without an id, or with the empty string,
    reads the first stored row, whatever its actor id: it returns null on an
    empty table, and otherwise the metadata of that row, or the
    [SyntaxError] of the first of its caller and input that is not JSON. For
    an id that is not empty and not stored it returns null, as it does after
    [deleteActorMeta] of that id. *)
Theorem getActorMeta_without_id_reads_first_row `{JsonLib}
    (table : list ActorMetaRecord.t) (w : World) :
  let run := ActorKitStorageTables.getActorMeta None table w in
  ActorKitStorageTables.getActorMeta (Some "") table w = run
  /\ (table = [] -> outcome run = Returned None)
  /\ (forall first rest, table = first :: rest ->
        outcome run
        = match ActorKitStorageTables.meta_of_row first with
          | Returned meta => Returned (Some meta)
          | Threw e => Threw e
          end)
  /\ (forall actorId, actorId ≠ "" -> actorId ∉ actor_ids table ->
        outcome (ActorKitStorageTables.getActorMeta (Some actorId) table w) = Returned None)
  /\ (forall actorId, actorId ≠ "" ->
        let deleted := ActorKitStorageTables.deleteActorMeta actorId table w in
        exists removed,
          outcome deleted = Returned removed
          /\ outcome (ActorKitStorageTables.getActorMeta (Some actorId) removed
                        (world deleted))
             = Returned None).
Proof.
  intros run. subst run. rewrite !getActorMeta_run. cbn [AlarmManager.truthy_string negb].
  rewrite bool_decide_eq_true_2 by done. cbn [negb]. run_simpl.
  split_and!.
  - done.
  - by intros ->.
  - by intros first rest ->.
  - intros actorId Hne Hout. rewrite getActorMeta_run. run_simpl.
    cbn [AlarmManager.truthy_string]. rewrite bool_decide_eq_false_2 by done.
    cbn [negb default]. rewrite filter_none; [done|].
    intros r Hr Hid. apply Hout. cbn in Hid. rewrite <- Hid. by apply list_elem_of_fmap_2.
  - intros actorId Hne. rewrite deleteActorMeta_run. run_simpl.
    eexists. split; [done|]. rewrite getActorMeta_run. run_simpl.
    cbn [AlarmManager.truthy_string]. rewrite bool_decide_eq_false_2 by done.
    cbn [negb default]. rewrite filter_none; [done|].
    intros r [Hr _]%list_elem_of_filter Hid. by apply Hr.
Qed.
